(** * Jinx's theorem scripts: a shallow embedding and its verified properties

    The repository consists of four numeric scripts:

    - [diagdevice.py]: [compute_spectral_coherence], a score computed with
      Python's [decimal] module at 100 significant digits and then with
      binary64 floats;
    - [millionaire_scan.py]: [get_primes], a sieve of Eratosthenes over a
      NumPy boolean array, followed by a normalisation of the indicator
      vector and a simulated quantum Fourier transform;
    - [jinx_square.py]: [get_squares], the perfect-square indicator, followed
      by the same normalisation and transform.
    - [riemann.py]: a curve of thirty impulse responses over a frequency
      axis, drawn for comparison.

    Python values are embedded as follows: [int] as [Z] (array lengths and
    indices as [nat]), [float] and [numpy.float64] as [spec_float] (the IEEE
    754 binary64 model of the standard library), [decimal.Decimal] as a
    record of sign, coefficient and exponent, NumPy arrays as lists, and
    raised exceptions as the [Raise] constructor of a result type. *)

From Stdlib Require Import ZArith Lia Bool SpecFloat Znumtheory Sorted.
From stdpp Require Import base list numbers.

(** ** Python exceptions as results *)

Module Py.

(** The exception classes that the modelled code can raise. *)
Inductive exn : Type :=
| IndexError            (* array index out of bounds *)
| ValueError            (* int(nan), math domain error *)
| InvalidOperation      (* decimal.InvalidOperation (trapped signal) *)
| Overflow              (* decimal.Overflow (trapped signal) *)
| ZeroDivisionError     (* division by zero surfaced as an exception *)
| QiskitError.          (* raised by the external circuit library *)

Inductive result (A : Type) : Type :=
| Ok (a : A)
| Raise (e : exn).
Arguments Ok {A} a.
Arguments Raise {A} e.

#[global] Instance result_ret : MRet result := fun A a => Ok a.
#[global] Instance result_bind : MBind result := fun A B f r =>
  match r with
  | Ok a => f a
  | Raise e => Raise e
  end.

(** [for x in xs: s = body(x, s)], stopping at the first exception. *)
Fixpoint for_each {A S : Type} (body : A -> S -> result S)
    (xs : list A) (s : S) : result S :=
  match xs with
  | [] => Ok s
  | x :: xs' => s' ← body x s; for_each body xs' s'
  end.

(** [range(a, b)] for naturals. *)
Definition range (a b : nat) : list nat := seq a (b - a).

End Py.
Export Py.

(** ** Binary64 floats *)

Module Float64.

Definition float : Type := spec_float.

Definition prec : Z := 53.
Definition emax : Z := 1024.

Definition zero : float := S754_zero false.
Definition one : float := S754_finite false 4503599627370496 (-52).
Definition five_m : positive := 5629499534213120.
Definition five : float := S754_finite false five_m (-50).
Definition nan : float := S754_nan.

Definition add : float -> float -> float := SFadd prec emax.
Definition mul : float -> float -> float := SFmul prec emax.
Definition div : float -> float -> float := SFdiv prec emax.
Definition sqrt : float -> float := SFsqrt prec emax.
Definition abs : float -> float := SFabs.

#[global] Instance float_eq_dec : EqDecision float.
Proof. solve_decision. Defined.

Definition is_nan (x : float) : bool :=
  match x with S754_nan => true | _ => false end.
Definition is_inf (x : float) : bool :=
  match x with S754_infinity _ => true | _ => false end.

Definition is_finite (x : float) : bool :=
  match x with
  | S754_zero _ | S754_finite _ _ _ => true
  | _ => false
  end.

(** [x] is a binary64 value: its mantissa and exponent are in range. *)
Definition valid (x : float) : bool := valid_binary prec emax x.

(** A finite binary64 value. *)
Definition good (x : float) : Prop := valid x = true /\ is_finite x = true.

(** The exact value of a finite float, in units of [2^-1074] (the smallest
    positive binary64 number). *)
Definition ulps (x : float) : Z :=
  match x with
  | S754_finite s m e => cond_Zopp s (Zpos m * 2 ^ (e + 1074))
  | _ => 0
  end.

(** The order of binary64: [leb x y] is [x <= y], [ltb x y] is [x < y]. *)
Definition leb (x y : float) : bool := SFleb x y.
Definition ltb (x y : float) : bool := SFltb x y.
Definition opp (x : float) : float := SFopp x.

(** [float(b)] for a Python or NumPy boolean. *)
Definition of_bool (b : bool) : float := if b then one else zero.

End Float64.

(** ** The NumPy array operations used by the scripts *)

Module Np.
Import Float64.

(** [np.ones(n, dtype=bool)] and [np.zeros(n, dtype=np.float64)]. *)
Definition ones (n : nat) : list bool := replicate n true.
Definition zeros (n : nat) : list float := replicate n zero.

(** Membership of index [j] in the slice [start:stop:step], for non-negative
    bounds and a positive step. *)
Definition in_slice (start stop step j : nat) : bool :=
  (start <=? j) && (j <? stop) && ((j - start) mod step =? 0).

(** [a[start:stop:step] = v]: slice bounds are clipped to the array, so the
    assignment never raises.  An omitted [stop] is [len(a)]. *)
Definition setslice {A : Type} (a : list A) (start stop step : nat) (v : A)
    : list A :=
  imap (fun j x => if in_slice start stop step j then v else x) a.

(** [a[i]] with a non-negative integer index: [IndexError] out of range. *)
Definition getitem {A : Type} (a : list A) (i : nat) : result A :=
  match a !! i with
  | Some x => Ok x
  | None => Raise IndexError
  end.

(** [a[i] = v] with a non-negative integer index. *)
Definition setitem {A : Type} (a : list A) (i : nat) (v : A)
    : result (list A) :=
  if decide (i < length a) then Ok (<[i := v]> a) else Raise IndexError.

(** [p.astype(np.float64)] on a boolean array. *)
Definition astype_float64 (p : list bool) : list float := of_bool <$> p.

(** A complex amplitude, as real and imaginary part. *)
Definition complex : Type := (float * float)%type.

(** [np.sum(v)] of a float array.  NumPy adds pairwise rather than left to
    right; the two orders agree whenever every partial sum is exact, which
    is the case for the 0/1 indicator vectors the scripts build. *)
Definition sum (v : list float) : float := foldl add zero v.

(** [v ** 2], [np.abs(v)] and [v / s], elementwise.  NumPy float division
    by zero produces NaN or an infinity (with a warning); it does not
    raise. *)
Definition square (v : list float) : list float := (fun x => mul x x) <$> v.
Definition absolute (v : list float) : list float := abs <$> v.
Definition divide (v : list float) (s : float) : list float :=
  (fun x => div x s) <$> v.

(** [np.linalg.norm(v)] of a real vector: the root of [dot(v, v)]. *)
Definition linalg_norm (v : list float) : float := sqrt (sum (square v)).

(** [np.abs(z)] of a complex array, through the C library's [hypot]. *)
Definition absolute_complex (hypot : float -> float -> float)
    (z : list complex) : list float :=
  (fun c => hypot (fst c) (snd c)) <$> z.

(** [int(n ** 0.5)] and [int(np.sqrt(m))] for a non-negative integer: the
    square root is taken in binary64 and truncated.  For arguments below
    2^52, which covers every length an array can have, the truncated float
    root is the integer square root. *)
Definition int_sqrt (n : nat) : nat := Nat.sqrt n.

End Np.

(** ** millionaire_scan.py: the prime indicator *)

Module MillionaireScan.
Import Float64 Np.

(** One iteration of the sieve loop: [if p[i]: p[i*i::i] = False]. *)
Definition sieve_step (i : nat) (p : list bool) : result (list bool) :=
  b ← getitem p i;
  if b : bool then Ok (setslice p (i * i) (length p) i false) else Ok p.

Definition get_primes (n : nat) : result (list float) :=
  let p := ones n in
  let p := setslice p 0 2 1 false in
  p ← for_each sieve_step (range 2 (int_sqrt n + 1)) p;
  Ok (astype_float64 p).

Definition n_qubits : nat := 20.
Definition N : nat := 2 ^ n_qubits.

(** Step 2 of the script, "Precision Normalization". *)
Definition normalize (data : list float) : list float :=
  let norm := linalg_norm data in
  let state_vector := divide data norm in
  divide state_vector (sqrt (sum (square (absolute state_vector)))).

Section Pipeline.
(** The parts of the pipeline that run outside the repository: the circuit
    simulation of Qiskit and Aer ([initialize], the QFT block without swaps,
    [save_statevector], [run], [get_statevector]), which may raise, and the
    C library's [hypot] behind [np.abs] of a complex array. *)
Variable run_qft_circuit : nat -> list float -> result (list complex).
Variable hypot : float -> float -> float.

(** Steps 2 to 4 of the script: from the indicator vector [data] to the
    power spectrum [res]. *)
Definition spectrum (data : list float) : result (list float) :=
  let state_vector := normalize data in
  sv ← run_qft_circuit n_qubits state_vector;
  Ok (square (absolute_complex hypot sv)).

End Pipeline.

End MillionaireScan.

(** ** jinx_square.py: the perfect-square indicator *)

Module JinxSquare.
Import Float64 Np.

(** One iteration of the marking loop: [field[i*i] = 1.0]. *)
Definition mark_square (i : nat) (field : list float) : result (list float) :=
  setitem field (i * i) one.

(** [np.sqrt(n-1)] is NaN for [n = 0] and [int(nan)] raises [ValueError]. *)
Definition get_squares (n : nat) : result (list float) :=
  let field := zeros n in
  limit ← (if decide (n = 0) then Raise ValueError else Ok (int_sqrt (n - 1)));
  for_each mark_square (range 1 (limit + 1)) field.

Definition n_qubits : nat := 20.
Definition N : nat := 2 ^ n_qubits.

(** Step 2 of the script, "Normalization and State Preparation". *)
Definition normalize (data : list float) : list float :=
  let norm := linalg_norm data in
  let state_vector := divide data norm in
  divide state_vector (sqrt (sum (square (absolute state_vector)))).

Section Pipeline.
Variable run_qft_circuit : nat -> list float -> result (list complex).
Variable hypot : float -> float -> float.

(** Steps 2 to 4 of the script: from the indicator vector [data] to the
    power spectrum [res]. *)
Definition spectrum (data : list float) : result (list float) :=
  let state_vector := normalize data in
  sv ← run_qft_circuit n_qubits state_vector;
  Ok (square (absolute_complex hypot sv)).

End Pipeline.

End JinxSquare.

(** ** Python's decimal module

    The finite values of [decimal.Decimal] and the operations that
    [diagdevice.py] applies to them, following the reference implementation
    of the module (the General Decimal Arithmetic specification).  A signal
    whose trap is enabled in the context raises; with the default traps that
    is [InvalidOperation], [DivisionByZero] and [Overflow], so no operation
    below ever produces an infinity or a NaN. *)

Module Decimal.
Local Open Scope Z_scope.

(** A finite decimal [(-1)^sign * coeff * 10^exp], with [0 <= coeff]. *)
Record decimal : Type := mkdec { sign : bool; coeff : Z; exp : Z }.

Inductive rounding : Type := ROUND_HALF_EVEN | ROUND_HALF_UP.

Record context : Type :=
  mkctx { prec : Z; rnd : rounding; Emin : Z; Emax : Z }.

Definition Etiny (ctx : context) : Z := Emin ctx - prec ctx + 1.
Definition Etop (ctx : context) : Z := Emax ctx - prec ctx + 1.

(** [len(str(n))] for [0 <= n]: the number of decimal digits, 1 for 0. *)
Fixpoint ndigits_fuel (fuel : nat) (n : Z) : Z :=
  match fuel with
  | O => 1
  | S fuel' => if n <? 10 then 1 else 1 + ndigits_fuel fuel' (n / 10)
  end.

Definition ndigits (n : Z) : Z := ndigits_fuel (Z.to_nat (Z.log2 n)) n.

(** The rounding functions look at a coefficient [c] from which the last
    [k] digits are to be dropped ([1 <= k]); they answer 1 to round away
    from zero, 0 when the dropped digits are all zero, and -1 to truncate
    nonzero digits. *)
Definition round_half_up (c k : Z) : Z :=
  let r := c mod 10 ^ k in
  if 10 ^ k <=? 2 * r then 1 else if r =? 0 then 0 else -1.

Definition round_half_even (c k : Z) : Z :=
  let r := c mod 10 ^ k in
  if (2 * r =? 10 ^ k) && Z.even (c / 10 ^ k) then -1 else round_half_up c k.

Definition pick_rounding_function (r : rounding) : Z -> Z -> Z :=
  match r with
  | ROUND_HALF_EVEN => round_half_even
  | ROUND_HALF_UP => round_half_up
  end.

(** [Decimal._fix]: round to the context's precision and check the exponent
    range ([clamp] is 0). *)
Definition fix_ (ctx : context) (d : decimal) : result decimal :=
  if coeff d =? 0 then
    Ok (mkdec (sign d) 0 (Z.min (Z.max (exp d) (Etiny ctx)) (Emax ctx)))
  else
    let exp_min := ndigits (coeff d) + exp d - prec ctx in
    if Etop ctx <? exp_min then Raise Overflow
    else
      let exp_min := if exp_min <? Etiny ctx then Etiny ctx else exp_min in
      if exp d <? exp_min then
        let digits := ndigits (coeff d) + exp d - exp_min in
        let '(c, digits) := if digits <? 0 then (1, 0) else (coeff d, digits) in
        let k := ndigits c - digits in
        let changed := pick_rounding_function (rnd ctx) c k in
        let coeff := c / 10 ^ k in
        let '(coeff, exp_min) :=
          if 0 <? changed then
            let coeff := coeff + 1 in
            if prec ctx <? ndigits coeff then (coeff / 10, exp_min + 1)
            else (coeff, exp_min)
          else (coeff, exp_min) in
        if Etop ctx <? exp_min then Raise Overflow
        else Ok (mkdec (sign d) coeff exp_min)
      else Ok d.

(** [Decimal._rescale]: set the exponent to [e], padding or rounding. *)
Definition rescale (d : decimal) (e : Z) (r : rounding) : decimal :=
  if coeff d =? 0 then mkdec (sign d) 0 e
  else if e <=? exp d then mkdec (sign d) (coeff d * 10 ^ (exp d - e)) e
  else
    let digits := ndigits (coeff d) + exp d - e in
    let '(c, digits) := if digits <? 0 then (1, 0) else (coeff d, digits) in
    let k := ndigits c - digits in
    let changed := pick_rounding_function r c k in
    let coeff := c / 10 ^ k in
    mkdec (sign d) (if changed =? 1 then coeff + 1 else coeff) e.

(** [Decimal(n)] for a Python integer: exact. *)
Definition of_int (n : Z) : decimal := mkdec (n <? 0) (Z.abs n) 0.

(** [Decimal("14.134725")] and the like: [digits] are the digits without the
    point, [places] the number of digits after it. *)
Definition of_string (digits places : Z) : decimal := mkdec false digits (- places).

Definition copy_negate (d : decimal) : decimal :=
  mkdec (negb (sign d)) (coeff d) (exp d).
Definition copy_abs (d : decimal) : decimal := mkdec false (coeff d) (exp d).

(** [Decimal.sqrt].  The library finds [floor(sqrt(c))] by Newton's
    iteration; [Z.sqrt] is that value. *)
Definition sqrt (ctx : context) (d : decimal) : result decimal :=
  if coeff d =? 0 then fix_ ctx (mkdec (sign d) 0 (exp d / 2))
  else if sign d then Raise InvalidOperation
  else
    let prec := prec ctx + 1 in
    let e := Z.shiftr (exp d) 1 in
    let '(c, l) :=
      if Z.odd (exp d)
      then (coeff d * 10, Z.shiftr (ndigits (coeff d)) 1 + 1)
      else (coeff d, Z.shiftr (ndigits (coeff d) + 1) 1) in
    let shift := prec - l in
    let '(c, exact) :=
      if 0 <=? shift then (c * 100 ^ shift, true)
      else (c / 100 ^ (- shift), c mod 100 ^ (- shift) =? 0) in
    let e := e - shift in
    let n := Z.sqrt c in
    let exact := exact && (n * n =? c) in
    let '(n, e) :=
      if exact then
        (if 0 <=? shift then n / 10 ^ shift else n * 10 ^ (- shift), e + shift)
      else (if n mod 5 =? 0 then n + 1 else n, e) in
    fix_ (mkctx (Decimal.prec ctx) ROUND_HALF_EVEN (Emin ctx) (Emax ctx))
         (mkdec false n e).

(** [Decimal.to_integral_value(rounding=r)]. *)
Definition to_integral_value (d : decimal) (r : rounding) : decimal :=
  if 0 <=? exp d then d else rescale d 0 r.

(** [_normalize], used by addition: bring both operands to one exponent. *)
Definition normalize (op1 op2 : decimal) (prec : Z) : decimal * decimal :=
  let swap := exp op1 <? exp op2 in
  let tmp := if swap then op2 else op1 in
  let other := if swap then op1 else op2 in
  let e := exp tmp + Z.min (-1) (ndigits (coeff tmp) - prec - 2) in
  let other :=
    if ndigits (coeff other) + exp other - 1 <? e
    then mkdec (sign other) 1 e else other in
  let tmp := mkdec (sign tmp) (coeff tmp * 10 ^ (exp tmp - exp other)) (exp other) in
  if swap then (other, tmp) else (tmp, other).

(** [Decimal.__add__] (the context's rounding is never [ROUND_FLOOR]). *)
Definition add (ctx : context) (a b : decimal) : result decimal :=
  let e := Z.min (exp a) (exp b) in
  if (coeff a =? 0) && (coeff b =? 0) then
    fix_ ctx (mkdec (sign a && sign b) 0 e)
  else if coeff a =? 0 then
    fix_ ctx (rescale b (Z.max e (exp b - prec ctx - 1)) (rnd ctx))
  else if coeff b =? 0 then
    fix_ ctx (rescale a (Z.max e (exp a - prec ctx - 1)) (rnd ctx))
  else
    let '(op1, op2) := normalize a b (prec ctx) in
    if negb (Bool.eqb (sign op1) (sign op2)) then
      if coeff op1 =? coeff op2 then fix_ ctx (mkdec false 0 e)
      else
        let '(op1, op2) :=
          if coeff op1 <? coeff op2 then (op2, op1) else (op1, op2) in
        fix_ ctx (mkdec (sign op1) (coeff op1 - coeff op2) (exp op1))
    else fix_ ctx (mkdec (sign op1) (coeff op1 + coeff op2) (exp op1)).

(** [Decimal.__sub__]. *)
Definition sub (ctx : context) (a b : decimal) : result decimal :=
  add ctx a (copy_negate b).

(** [Decimal.__neg__], [Decimal.__pos__] and [Decimal.__abs__]. *)
Definition neg (ctx : context) (d : decimal) : result decimal :=
  fix_ ctx (if coeff d =? 0 then copy_abs d else copy_negate d).
Definition pos (ctx : context) (d : decimal) : result decimal :=
  fix_ ctx (if coeff d =? 0 then copy_abs d else d).
Definition abs (ctx : context) (d : decimal) : result decimal :=
  if sign d then neg ctx d else pos ctx d.

(** [Decimal.__mul__]. *)
Definition mul (ctx : context) (a b : decimal) : result decimal :=
  let resultsign := xorb (sign a) (sign b) in
  let resultexp := exp a + exp b in
  if (coeff a =? 0) || (coeff b =? 0) then fix_ ctx (mkdec resultsign 0 resultexp)
  else fix_ ctx (mkdec resultsign (coeff a * coeff b) resultexp).

(** [float(d)]: the decimal string is converted with correct rounding (to
    nearest, ties to even); a magnitude beyond the binary64 range gives an
    infinity.  For a negative exponent the quotient [coeff / 10^(-exp)] is
    rounded once, by the division of the binary64 model applied to the two
    integers. *)
Definition to_float (d : decimal) : Float64.float :=
  if coeff d =? 0 then S754_zero (sign d)
  else if 0 <=? exp d then
    binary_normalize Float64.prec Float64.emax
      ((if sign d then Z.opp else id) (coeff d * 10 ^ exp d)) 0 false
  else
    SFdiv Float64.prec Float64.emax
      (S754_finite (sign d) (Z.to_pos (coeff d)) 0)
      (S754_finite false (Z.to_pos (10 ^ (- exp d))) 0).

End Decimal.

(** ** diagdevice.py: the resonance score *)

Module Diagdevice.
Import Float64.

(** [getcontext().prec = 100], every other setting of the default context
    left as it is. *)
Definition the_context : Decimal.context :=
  Decimal.mkctx 100 Decimal.ROUND_HALF_EVEN (-999999) 999999.

Definition GAMMAS : list Decimal.decimal :=
  [ Decimal.of_string 14134725 6;
    Decimal.of_string 21022040 6;
    Decimal.of_string 25010857 6;
    Decimal.of_string 30424876 6;
    Decimal.of_string 32935061 6 ].

(** [float(n)] for a Python integer, as in [float / int]. *)
Definition float_of_int (n : Z) : float := binary_normalize prec emax n 0 false.

(** The builtin [sum] of a list of floats: from the integer 0, left to
    right. *)
Definition py_sum (xs : list float) : float := foldl add zero xs.

Section Score.
(** The cosine of the C library, on floats that are not infinite. *)
Variable libm_cos : float -> float.

(** [math.cos]: a "math domain error" for an infinite argument. *)
Definition math_cos (x : float) : result float :=
  if is_inf x then Raise ValueError else Ok (libm_cos x).

(** The body of the loop over [GAMMAS]. *)
Definition resonance (phase_offset gamma : Decimal.decimal)
    (resonances : list float) : result (list float) :=
  product ← Decimal.mul the_context gamma phase_offset;
  coherence ← math_cos (Decimal.to_float product);
  Ok (resonances ++ [coherence]).

(** The [try] block of [compute_spectral_coherence]. *)
Definition score_arithmetic (n : Z) : result float :=
  let n_dec := Decimal.of_int n in
  root ← Decimal.sqrt the_context n_dec;
  let nearest_square_root :=
    Decimal.to_integral_value root Decimal.ROUND_HALF_UP in
  difference ← Decimal.sub the_context root nearest_square_root;
  phase_offset ← Decimal.abs the_context difference;
  resonances ← for_each (resonance phase_offset) GAMMAS [];
  Ok (div (py_sum resonances) (float_of_int (Z.of_nat (length resonances)))).

(** [except Exception]: every exception becomes the score 0.0. *)
Definition compute_spectral_coherence (n : Z) : float :=
  match score_arithmetic n with
  | Ok score => score
  | Raise _ => zero
  end.

End Score.

(** The two samples of [analyze_composite_moduli]. *)
Definition n_irregular : Z := (10 ^ 20 + 39) * (10 ^ 50 + 151).
Definition n_regular : Z := (10 ^ 35 + 7) * (10 ^ 35 + 9).

(** The literal [0.95] of the test [score2 > 0.95]: the binary64 number
    nearest to it. *)
Definition threshold : float := S754_finite false 8556839292003942 (-53).

(** What [analyze_composite_moduli] computes between its prints: the scores
    of its two samples and the outcome of the test [score2 > 0.95], which
    decides whether the "maximal quadratic resonance" lines are printed. *)
Record analysis : Type :=
  mk_analysis { score1 : float; score2 : float; maximal_resonance : bool }.

Definition analyze_composite_moduli (libm_cos : float -> float) : analysis :=
  let p1 := (10 ^ 20 + 39)%Z in
  let q1 := (10 ^ 50 + 151)%Z in
  let n_irregular := (p1 * q1)%Z in
  let p2 := (10 ^ 35 + 7)%Z in
  let q2 := (10 ^ 35 + 9)%Z in
  let n_regular := (p2 * q2)%Z in
  let score1 := compute_spectral_coherence libm_cos n_irregular in
  let score2 := compute_spectral_coherence libm_cos n_regular in
  mk_analysis score1 score2 (ltb threshold score2).

End Diagdevice.

(** ** riemann.py: the comparison curve *)

Module Riemann.
Import Float64 Np.

Definition sub : float -> float -> float := SFsub prec emax.

(** A decimal literal of the source, as the binary64 number nearest to
    it. *)
Definition literal (digits places : Z) : float :=
  Decimal.to_float (Decimal.of_string digits places).

Definition riemann_30 : list float :=
  [ literal 1413 2; literal 2102 2; literal 2501 2; literal 3042 2;
    literal 3293 2; literal 3758 2; literal 4091 2; literal 4332 2;
    literal 4800 2; literal 4977 2; literal 5297 2; literal 5644 2;
    literal 5934 2; literal 6083 2; literal 6511 2; literal 6707 2;
    literal 6954 2; literal 7206 2; literal 7570 2; literal 7714 2;
    literal 7933 2; literal 8291 2; literal 8473 2; literal 8742 2;
    literal 8880 2; literal 9249 2; literal 9465 2; literal 9587 2;
    literal 9883 2; literal 1013 1 ].

(** [1 / (np.sqrt((x - gamma)**2 + 0.05))], elementwise. *)
Definition impulse (gamma : float) (x : list float) : list float :=
  (fun xi =>
     div one (sqrt (add (mul (sub xi gamma) (sub xi gamma)) (literal 5 2))))
  <$> x.

(** The loop [for gamma in riemann_30: jinx_curve += ...] over
    [np.zeros_like(x)]. *)
Definition jinx_curve (x : list float) : list float :=
  foldl (fun curve gamma => zip_with add curve (impulse gamma x))
        (zeros (length x)) riemann_30.

End Riemann.

(** ** The indicator builders as the specification words them *)

Module Spec.
Import Float64 Np.

(** Modelled on the specification's PRIME builder: indices 0 and 1 are
    forced non-prime; for each [i] from 2 to [floor(sqrt(n-1))], if [i] is
    still marked, all multiples of [i] from [i*i] on are unmarked. *)
Definition spec_sieve_step (p : list bool) (i : nat) : list bool :=
  match p !! i with
  | Some true => setslice p (i * i) (length p) i false
  | _ => p
  end.

Definition spec_prime_flags (n : nat) : list bool :=
  foldl spec_sieve_step (setslice (replicate n true) 0 2 1 false)
        (seq 2 (Nat.sqrt (n - 1) - 1)).

Definition build_prime (n : nat) : list float :=
  of_bool <$> spec_prime_flags n.

(** The indices at which a vector holds 1.0. *)
Definition marked (v : list float) : list nat :=
  filter (fun j : nat => v !! j = Some one) (seq 0 (length v)).

End Spec.

(** * Properties

    ** Predicates used in the statements *)

Import Float64 Np Spec.

(** Primality of an index, by trial division; [is_prime_Zprime] below
    relates it to the primes of the standard library. *)
Definition is_prime (j : nat) : Prop :=
  2 <= j /\ forall d, 2 <= d < j -> ~ (d | j).

(** Index [j] survives the marking passes of every [d <= m]. *)
Definition unmarked_upto (m j : nat) : Prop :=
  2 <= j /\ forall d, 2 <= d <= m -> d * d <= j -> ~ (d | j).

(** The state of the flag array after the passes up to [m]. *)
Definition sieve_inv (m : nat) (p : list bool) : Prop :=
  forall j b, p !! j = Some b -> (b = true <-> unmarked_upto m j).

Definition primes_below_100 : list nat :=
  [2; 3; 5; 7; 11; 13; 17; 19; 23; 29; 31; 37; 41; 43; 47; 53; 59; 61; 67;
   71; 73; 79; 83; 89; 97].

(** The indices that [get_squares n] marks. *)
Definition is_marked_square (n j : nat) : Prop :=
  exists i, 1 <= i <= Nat.sqrt (n - 1) /\ j = i * i.

(** The squares marked after the iterations up to [m]. *)
Definition squares_upto (m j : nat) : Prop :=
  exists i, 1 <= i <= m /\ j = i * i.

Definition square_inv (m : nat) (field : list float) : Prop :=
  forall j, j < length field ->
    (squares_upto m j -> field !! j = Some one) /\
    (~ squares_upto m j -> field !! j = Some zero).


(** Notions of the rounding proofs: the exponent function of binary64, a
    mantissa that is canonical for its exponent, the mantissa of a shift
    record rounded up, and the outcome of a rounding that stays within the
    magnitude [T * 2^t]. *)
Abbreviation fexp64 := (fexp 53 1024).

Definition canonical64 (m e : Z) : Prop :=
  (fexp64 (Zdigits2 m + e) = e /\ e <= 971)%Z.

Definition loc_extra (l : location) : Z :=
  match l with loc_Exact => 0%Z | _ => 1%Z end.

Definition ceil_m (x : shr_record) : Z :=
  (shr_m x + (if shr_r x || shr_s x then 1 else 0))%Z.

Definition rounds_within (sx : bool) (r : float) (T t : Z) : Prop :=
  match r with
  | S754_zero s => s = sx
  | S754_finite s m e =>
      s = sx /\ canonical64 (Zpos m) e /\
      (Zpos m * 2 ^ (e + 1074) <= T * 2 ^ (t + 1074))%Z
  | _ => False
  end.

(** Notions of the score properties.  [two_pow e] is the float [2^e] and
    [scaled k e] the float nearest to [k * 2^e]; [below_one] is
    [1 - 2^-14]. *)
Definition two_pow (e : Z) : float := S754_finite false 4503599627370496 (e - 52).
Definition below_one : float := S754_finite false 9006649498927104 (-53).
Definition scaled (k e : Z) : float := binary_normalize 53 1024 k e false.

(** What the properties assume of the C library's cosine: its values are
    binary64 numbers between -1 and 1; it is exactly 1 on arguments of
    magnitude at most [2^-100]; it is at most [1 - 2^-14] on magnitudes
    between [2^-6] and 1 (the true cosine is below [1 - 2^-13.1] there); and
    it is at most [-2^-5] between 13/8 and 17/4 (the true cosine is below
    -0.054 there). *)
Definition cos_in_unit_range (libm_cos : float -> float) : Prop :=
  forall x, is_finite x = true ->
    valid (libm_cos x) = true /\
    leb (opp one) (libm_cos x) = true /\ leb (libm_cos x) one = true.

Definition cos_one_near_zero (libm_cos : float -> float) : Prop :=
  forall x, leb (abs x) (two_pow (-100)) = true -> libm_cos x = one.

Definition cos_below_one_away (libm_cos : float -> float) : Prop :=
  forall x, leb (two_pow (-6)) (abs x) = true -> leb (abs x) one = true ->
    leb (libm_cos x) below_one = true.

Definition cos_negative_mid (libm_cos : float -> float) : Prop :=
  forall x, leb (scaled 13 (-3)) x = true -> leb x (scaled 17 (-2)) = true ->
    leb (libm_cos x) (opp (two_pow (-5))) = true.

(** A function with the first three properties, used to instantiate them. *)
Definition coarse_cos (x : float) : float :=
  if leb (abs x) (two_pow (-100)) then one else below_one.

(** [x] is the argument [float(gamma * phase_offset)] of a cosine term. *)
Definition is_cos_argument (phase_offset gamma : Decimal.decimal) (x : float)
    : Prop :=
  exists product,
    Decimal.mul Diagdevice.the_context gamma phase_offset = Ok product /\
    x = Decimal.to_float product.

(** A finite float between two others. *)
Definition within (lo hi c : float) : Prop :=
  good c /\ (ulps lo <= ulps c <= ulps hi)%Z.

(** [dec_bounded B d]: the digits of the decimal [d] end below the position
    [B], that is [|d| < 10^B] for a nonzero [d]. *)
Definition dec_bounded (B : Z) (d : Decimal.decimal) : Prop :=
  (0 <= Decimal.coeff d /\
   Decimal.ndigits (Decimal.coeff d) + Decimal.exp d <= B)%Z.

(** +0.0, a positive number or +infinity. *)
Definition nonneg (y : float) : Prop :=
  match y with
  | S754_zero false | S754_finite false _ _ | S754_infinity false => True
  | _ => False
  end.

(** ** A few runs of the models *)

Example get_primes_10 :
  MillionaireScan.get_primes 10 =
  Ok [zero; zero; one; one; zero; one; zero; one; zero; zero].
Proof. reflexivity. Qed.

Example normalize_3_4 :
  MillionaireScan.normalize [one; zero; one; one; one] =
  [div one (add one one); zero; div one (add one one); div one (add one one);
   div one (add one one)].
Proof. vm_compute. reflexivity. Qed.

Example threshold_literal :
  Diagdevice.threshold = Decimal.to_float (Decimal.of_string 95 2).
Proof. vm_compute. reflexivity. Qed.

Example below_one_value :
  ulps below_one = (ulps one - ulps (two_pow (-14)))%Z.
Proof. vm_compute. reflexivity. Qed.

(** ** The sieve of [get_primes] *)

Section SieveProofs.
Import MillionaireScan.

Lemma in_slice_spec start stop step j :
  in_slice start stop step j = true <->
  start <= j /\ j < stop /\ (j - start) mod step = 0.
Proof.
  unfold in_slice. rewrite !andb_true_iff, Nat.leb_le, Nat.ltb_lt, Nat.eqb_eq.
  tauto.
Qed.

Lemma lookup_setslice {A} (a : list A) start stop step v j :
  setslice a start stop step v !! j =
  (fun x => if in_slice start stop step j then v else x) <$> a !! j.
Proof. unfold setslice. apply list_lookup_imap. Qed.

Lemma length_setslice {A} (a : list A) start stop step v :
  length (setslice a start stop step v) = length a.
Proof. unfold setslice. apply length_imap. Qed.

Lemma multiple_from_square i j :
  2 <= i -> (i * i <= j /\ (j - i * i) mod i = 0) <-> (i * i <= j /\ (i | j)).
Proof.
  intros Hi. split; intros [Hle H]; split; auto.
  - apply Nat.Div0.mod_divides in H. destruct H as [c Hc].
    exists (c + i). nia.
  - destruct H as [c Hc]. apply Nat.Div0.mod_divides.
    exists (c - i). nia.
Qed.

Lemma sieve_inv_init n : sieve_inv 1 (setslice (ones n) 0 2 1 false).
Proof.
  intros j b. rewrite lookup_setslice. unfold ones.
  destruct (replicate n true !! j) as [x|] eqn:E; simpl; [|discriminate].
  apply lookup_replicate in E as [-> Hj].
  intros [= <-]. unfold unmarked_upto.
  destruct (in_slice 0 2 1 j) eqn:S.
  - apply in_slice_spec in S. split; [discriminate|]. intros [? _]. lia.
  - split; [|done]. intros _.
    assert (~ (0 <= j /\ j < 2 /\ (j - 0) mod 1 = 0)) as N.
    { rewrite <- in_slice_spec. congruence. }
    rewrite Nat.mod_1_r in N. split; [lia|]. intros d Hd. lia.
Qed.

Lemma sieve_step_inv n i p :
  length p = n -> 2 <= i -> i < n -> sieve_inv (i - 1) p ->
  exists p', sieve_step i p = Ok p' /\ length p' = n /\ sieve_inv i p'.
Proof.
  intros Hlen Hi Hin Hinv. unfold sieve_step, getitem.
  destruct (p !! i) as [b|] eqn:Ei.
  2:{ apply lookup_ge_None in Ei. lia. }
  simpl. destruct b.
  - eexists. split; [reflexivity|]. split; [by rewrite length_setslice|].
    intros j b. rewrite lookup_setslice.
    destruct (p !! j) as [x|] eqn:Ej; simpl; [|discriminate].
    assert (j < length p) as Hj by (apply lookup_lt_is_Some; eauto).
    specialize (Hinv j x Ej).
    destruct (in_slice (i * i) (length p) i j) eqn:S; intros [= <-].
    + apply in_slice_spec in S. destruct S as (S1 & _ & S3).
      split; [discriminate|]. intros [_ H]. exfalso.
      apply (H i); [lia|lia|]. apply (multiple_from_square i j); auto.
    + assert (~ (i * i <= j /\ (i | j))) as N.
      { rewrite <- multiple_from_square by auto. intros [N1 N2].
        assert (in_slice (i * i) (length p) i j = true); [|congruence].
        apply in_slice_spec. lia. }
      rewrite Hinv. unfold unmarked_upto. split; intros [H2 H]; split; auto.
      * intros d Hd Hsq Hdiv. destruct (decide (d = i)) as [->|].
        -- apply N; auto.
        -- apply (H d); auto. lia.
      * intros d Hd. apply H. lia.
  - eexists. split; [reflexivity|]. split; [done|].
    (* i is already unmarked by a smaller divisor, which also divides
       every multiple of i *)
    pose proof (Hinv i false Ei) as Hfalse.
    assert (exists d, 2 <= d <= i - 1 /\ d * d <= i /\ (d | i)) as (d0 & Hd0 & Hsq0 & Hdiv0).
    { destruct (decide (Exists (fun d => 2 <= d /\ d * d <= i /\ (d | i)) (seq 0 i))) as [E|E].
      - apply Exists_exists in E as (d & Hin' & H1 & H2 & H3).
        apply in_seq in Hin'. exists d. repeat split; auto; lia.
      - exfalso. assert (false = true); [|discriminate]. apply Hfalse.
        split; [lia|]. intros d Hd Hsq Hdiv. apply E.
        apply Exists_exists. exists d. split; [apply in_seq; lia|auto].
        repeat split; auto; lia. }
    intros j b Ej. rewrite (Hinv j b Ej). unfold unmarked_upto.
    split; intros [H2 H]; split; auto.
    + intros d Hd Hsq Hdiv. destruct (decide (d = i)) as [->|].
      * apply (H d0); [lia|nia|]. etransitivity; eauto.
      * apply (H d); auto. lia.
    + intros d Hd. apply H. lia.
Qed.

Lemma sieve_loop_inv n : forall k a p,
  length p = n -> 2 <= a -> (forall i, a <= i < a + k -> i < n) ->
  sieve_inv (a - 1) p ->
  exists p', for_each sieve_step (seq a k) p = Ok p' /\ length p' = n /\
             sieve_inv (a + k - 1) p'.
Proof.
  induction k as [|k IH]; intros a p Hlen Ha Hb Hinv.
  - exists p. simpl. replace (a + 0 - 1) with (a - 1) by lia. auto.
  - simpl. destruct (sieve_step_inv n a p) as (p1 & -> & Hlen1 & Hinv1); auto.
    { apply Hb. lia. }
    simpl. destruct (IH (S a) p1) as (p2 & E2 & Hlen2 & Hinv2); auto.
    { intros i Hi'. apply Hb. lia. }
    { by replace (S a - 1) with a by lia. }
    exists p2. rewrite E2. replace (a + S k - 1) with (S a + k - 1) by lia. auto.
Qed.

Lemma unmarked_upto_prime m j :
  j < (m + 1) * (m + 1) -> unmarked_upto m j <-> is_prime j.
Proof.
  intros Hj. unfold unmarked_upto, is_prime. split; intros [H2 H]; split; auto.
  - intros d Hd [q Hq].
    destruct (decide (d <= q)).
    + apply (H d); [nia|nia|]. by exists q.
    + apply (H q); [nia|nia|]. exists d. lia.
  - intros d Hd Hsq. apply H. nia.
Qed.

Lemma length_spec_sieve_step p i : length (spec_sieve_step p i) = length p.
Proof.
  unfold spec_sieve_step. destruct (p !! i) as [[]|]; auto using length_setslice.
Qed.

Lemma sieve_step_pure i p :
  i < length p -> sieve_step i p = Ok (spec_sieve_step p i).
Proof.
  intros Hi. unfold sieve_step, spec_sieve_step, getitem.
  destruct (p !! i) as [[]|] eqn:E; try reflexivity.
  apply lookup_ge_None in E. lia.
Qed.

Lemma for_each_sieve_foldl : forall k a p,
  (forall i, a <= i < a + k -> i < length p) ->
  for_each sieve_step (seq a k) p = Ok (foldl spec_sieve_step p (seq a k)).
Proof.
  induction k as [|k IH]; intros a p Hb; [reflexivity|].
  simpl. rewrite sieve_step_pure by (apply Hb; lia). simpl.
  apply IH. intros i Hi. rewrite length_spec_sieve_step. apply Hb. lia.
Qed.

(** Running the marking loop over [2 .. 2+k-1] yields exactly the primes, as
    soon as the last index processed reaches the square root of every index
    of the array. *)
Lemma sieve_flags n k :
  (forall i, 2 <= i < 2 + k -> i * i <= n) ->
  (forall j, j < n -> j < (2 + k) * (2 + k)) ->
  let p := foldl spec_sieve_step (setslice (ones n) 0 2 1 false) (seq 2 k) in
  for_each sieve_step (seq 2 k) (setslice (ones n) 0 2 1 false) = Ok p /\
  length p = n /\
  forall j b, p !! j = Some b -> (b = true <-> is_prime j).
Proof.
  intros Hsq Hcover p.
  assert (length (setslice (ones n) 0 2 1 false) = n) as Hlen0.
  { rewrite length_setslice. apply length_replicate. }
  assert (forall i, 2 <= i < 2 + k -> i < n) as Hb.
  { intros i Hi. specialize (Hsq i Hi). nia. }
  destruct (sieve_loop_inv n k 2 (setslice (ones n) 0 2 1 false))
    as (p' & E & Hlen & Hinv); auto.
  { apply sieve_inv_init. }
  rewrite for_each_sieve_foldl in E by (rewrite Hlen0; exact Hb).
  injection E as E. fold p in E. subst p'.
  split; [apply for_each_sieve_foldl; by rewrite Hlen0|]. split; [done|].
  intros j b Ej. rewrite (Hinv j b Ej).
  apply unmarked_upto_prime.
  assert (j < n) by (rewrite <- Hlen; apply lookup_lt_is_Some; eauto).
  replace (2 + k - 1 + 1) with (2 + k) by lia. auto.
Qed.

Lemma get_primes_flags n :
  exists p, get_primes n = Ok (astype_float64 p) /\ length p = n /\
            (forall j b, p !! j = Some b -> (b = true <-> is_prime j)).
Proof.
  pose proof (Nat.sqrt_specif n) as Hs.
  destruct (sieve_flags n (Nat.sqrt n - 1)) as (E & Hlen & H).
  - intros i Hi. assert (i <= Nat.sqrt n) by lia. nia.
  - intros j Hj. nia.
  - eexists. split; [|split; [exact Hlen|exact H]].
    unfold get_primes, range, int_sqrt.
    replace (Nat.sqrt n + 1 - 2) with (Nat.sqrt n - 1) by lia.
    rewrite E. reflexivity.
Qed.

Lemma spec_prime_flags_prime n :
  length (spec_prime_flags n) = n /\
  forall j b, spec_prime_flags n !! j = Some b -> (b = true <-> is_prime j).
Proof.
  pose proof (Nat.sqrt_specif (n - 1)) as Hs.
  destruct (sieve_flags n (Nat.sqrt (n - 1) - 1)) as (E & Hlen & H).
  - intros i Hi. assert (i <= Nat.sqrt (n - 1)) by lia. nia.
  - intros j Hj. nia.
  - split; [exact Hlen|exact H].
Qed.

Lemma get_primes_build_prime n : get_primes n = Ok (build_prime n).
Proof.
  destruct (get_primes_flags n) as (p & -> & Hlen & H).
  destruct (spec_prime_flags_prime n) as (Hlen' & H').
  f_equal. unfold astype_float64, build_prime. f_equal.
  apply list_eq. intros j.
  destruct (p !! j) as [b|] eqn:E; destruct (spec_prime_flags n !! j) as [b'|] eqn:E'.
  - f_equal. specialize (H j b E). specialize (H' j b' E').
    destruct b, b'; auto; intuition congruence.
  - apply lookup_lt_Some in E. apply lookup_ge_None in E'. lia.
  - apply lookup_lt_Some in E'. apply lookup_ge_None in E. lia.
  - reflexivity.
Qed.

Lemma is_prime_Zprime j : is_prime j <-> Znumtheory.prime (Z.of_nat j).
Proof.
  rewrite <- prime_alt. unfold is_prime, Z.prime. split; intros [H2 H]; split; try lia.
  - intros d Hd Hdiv. apply (H (Z.to_nat d)); [lia|].
    destruct Hdiv as [q Hq]. exists (Z.to_nat q). nia.
  - intros d Hd [q Hq]. apply (H (Z.of_nat d)); [lia|].
    exists (Z.of_nat q). lia.
Qed.

(** C4: for every length [n], [get_primes n] returns a vector of length [n]
    that holds 1.0 exactly at the prime indices and 0.0 at every other index
    (0 and 1 included); it is the vector of the sieve worded in the
    specification, whose passes stop at [floor(sqrt(n-1))]; and
    [get_primes 100] marks exactly the 25 primes below 100. *)
Theorem get_primes_sieve_correct :
  (forall n, exists v,
      get_primes n = Ok v /\ length v = n /\ v = build_prime n /\
      forall j, j < n ->
        (Znumtheory.prime (Z.of_nat j) -> v !! j = Some one) /\
        (~ Znumtheory.prime (Z.of_nat j) -> v !! j = Some zero)) /\
  (exists v, get_primes 100 = Ok v /\ marked v = primes_below_100 /\
             length (marked v) = 25).
Proof.
  split.
  - intros n. destruct (get_primes_flags n) as (p & E & Hlen & H).
    exists (astype_float64 p). split; [exact E|].
    split; [unfold astype_float64; by rewrite length_fmap|].
    split; [pose proof (get_primes_build_prime n); congruence|].
    intros j Hj. unfold astype_float64. rewrite list_lookup_fmap.
    destruct (p !! j) as [b|] eqn:Ej.
    2:{ apply lookup_ge_None in Ej. lia. }
    specialize (H j b Ej). rewrite <- is_prime_Zprime. simpl.
    destruct b; split; intros Hp; try reflexivity; exfalso.
    + apply Hp, H. reflexivity.
    + apply H in Hp. discriminate.
  - eexists. split; [vm_compute; reflexivity|]. split; vm_compute; reflexivity.
Qed.

End SieveProofs.

(** ** The marking loop of [get_squares] *)

Section SquareProofs.
Import JinxSquare.

Lemma mark_square_inv n i field :
  length field = n -> 1 <= i -> i * i < n -> square_inv (i - 1) field ->
  exists field', mark_square i field = Ok field' /\ length field' = n /\
                 square_inv i field'.
Proof.
  intros Hlen Hi Hsq Hinv. unfold mark_square, setitem.
  destruct (decide (i * i < length field)) as [_|]; [|lia].
  eexists. split; [reflexivity|]. split; [by rewrite length_insert|].
  intros j Hj. rewrite length_insert in Hj.
  destruct (decide (j = i * i)) as [->|Hne].
  - rewrite list_lookup_insert_eq by lia. split; [done|].
    intros H. exfalso. apply H. exists i. lia.
  - rewrite list_lookup_insert_ne by done.
    destruct (Hinv j Hj) as [H1 H0]. split.
    + intros (i' & Hi' & ->). apply H1. exists i'. split; [|done].
      assert (i' <> i) by (intros ->; done). lia.
    + intros H. apply H0. intros (i' & Hi' & ->). apply H. exists i'. lia.
Qed.

Lemma mark_loop_inv n : forall k a field,
  length field = n -> 1 <= a ->
  (forall i, a <= i < a + k -> i * i < n) ->
  square_inv (a - 1) field ->
  exists field', for_each mark_square (seq a k) field = Ok field' /\
                 length field' = n /\ square_inv (a + k - 1) field'.
Proof.
  induction k as [|k IH]; intros a field Hlen Ha Hb Hinv.
  - exists field. simpl. replace (a + 0 - 1) with (a - 1) by lia. auto.
  - simpl. destruct (mark_square_inv n a field) as (f1 & -> & Hlen1 & Hinv1); auto.
    { apply Hb. lia. }
    simpl. destruct (IH (S a) f1) as (f2 & E2 & Hlen2 & Hinv2); auto.
    { intros i Hi'. apply Hb. lia. }
    { by replace (S a - 1) with a by lia. }
    exists f2. rewrite E2. replace (a + S k - 1) with (S a + k - 1) by lia. auto.
Qed.

Lemma square_inv_zeros n : square_inv 0 (zeros n).
Proof.
  intros j Hj. unfold zeros in *. rewrite length_replicate in Hj. split.
  - intros (i & Hi & _). lia.
  - intros _. by apply lookup_replicate_2.
Qed.

(** C5: for every length [n >= 1], [get_squares n] returns a vector of
    length [n] that holds 1.0 exactly at the indices [i*i] with
    [1 <= i <= floor(sqrt(n-1))] and 0.0 at every other index, index 0
    included; [get_squares 17] marks exactly 1, 4, 9 and 16. *)
Theorem get_squares_marks_squares :
  (forall n, 1 <= n -> exists v,
      get_squares n = Ok v /\ length v = n /\ v !! 0 = Some zero /\
      forall j, j < n ->
        (is_marked_square n j -> v !! j = Some one) /\
        (~ is_marked_square n j -> v !! j = Some zero)) /\
  (exists v, get_squares 17 = Ok v /\ marked v = [1; 4; 9; 16]).
Proof.
  split.
  - intros n Hn. unfold get_squares.
    destruct (decide (n = 0)) as [|_]; [lia|]. cbn [mbind result_bind].
    unfold range, int_sqrt.
    replace (Nat.sqrt (n - 1) + 1 - 1) with (Nat.sqrt (n - 1)) by lia.
    pose proof (Nat.sqrt_specif (n - 1)) as Hs.
    destruct (mark_loop_inv n (Nat.sqrt (n - 1)) 1 (zeros n))
      as (v & E & Hlen & Hinv).
    + apply length_replicate.
    + lia.
    + intros i Hi. assert (i <= Nat.sqrt (n - 1)) by lia. nia.
    + apply square_inv_zeros.
    + exists v. split; [exact E|]. split; [exact Hlen|].
      replace (1 + Nat.sqrt (n - 1) - 1) with (Nat.sqrt (n - 1)) in Hinv by lia.
      split.
      * apply (Hinv 0); [lia|]. intros (i & Hi & H0). nia.
      * intros j Hj. apply Hinv. lia.
  - eexists. split; [vm_compute; reflexivity|]. vm_compute. reflexivity.
Qed.

(** For the empty length, [np.sqrt(-1)] is NaN and [int] raises. *)
Lemma get_squares_0 : get_squares 0 = Raise ValueError.
Proof. reflexivity. Qed.

Lemma get_squares_marks_squares_witness :
  exists v, get_squares 17 = Ok v /\ length v = 17 /\ v !! 0 = Some zero /\
    forall j, j < 17 ->
      (is_marked_square 17 j -> v !! j = Some one) /\
      (~ is_marked_square 17 j -> v !! j = Some zero).
Proof. apply (proj1 get_squares_marks_squares 17). lia. Defined.

End SquareProofs.

(** ** Rounding in binary64

    The operations of the binary64 model round to nearest; the lemmas below
    show that a sum and a quotient by 5.0 stay between any two representable
    bounds that enclose the exact result, and that the comparison of finite
    floats is the comparison of their exact values. *)

Section FloatProofs.
Local Open Scope Z_scope.

(** Digit counts *)

Lemma digits2_pos_size p : digits2_pos p = Pos.size p.
Proof. induction p; simpl; congruence. Qed.

Lemma Zdigits2_log2 m : 0 < m -> Zdigits2 m = Z.log2 m + 1.
Proof.
  destruct m as [|p|p]; try lia. intros _. simpl. rewrite digits2_pos_size.
  destruct p; simpl; lia.
Qed.

Lemma Zdigits2_nonneg m : 0 <= Zdigits2 m.
Proof. destruct m; simpl; lia. Qed.

Lemma Zdigits2_bounds m :
  0 < m -> 2 ^ (Zdigits2 m - 1) <= m < 2 ^ Zdigits2 m.
Proof.
  intros Hm. rewrite Zdigits2_log2 by done.
  replace (Z.log2 m + 1 - 1) with (Z.log2 m) by lia.
  replace (Z.log2 m + 1) with (Z.succ (Z.log2 m)) by lia.
  apply Z.log2_spec. done.
Qed.

Lemma Zdigits2_le_mono a b : 0 <= a <= b -> Zdigits2 a <= Zdigits2 b.
Proof.
  intros [Ha Hab]. destruct (Z.eq_dec a 0) as [->|Hne].
  - apply Zdigits2_nonneg.
  - rewrite !Zdigits2_log2 by lia. pose proof (Z.log2_le_mono a b Hab). lia.
Qed.

Lemma Zdigits2_lt_pow m d : 0 <= m < 2 ^ d -> 0 <= d -> Zdigits2 m <= d.
Proof.
  intros [Hm Hlt] Hd. destruct (Z.eq_dec m 0) as [->|Hne]; [simpl; lia|].
  pose proof (Zdigits2_bounds m ltac:(lia)) as [Hlo _].
  destruct (Z.le_gt_cases (Zdigits2 m) d) as [|Hgt]; [done|exfalso].
  assert (2 ^ d <= 2 ^ (Zdigits2 m - 1)) by (apply Z.pow_le_mono_r; lia). lia.
Qed.

Lemma Zdigits2_mul_pow2 m k :
  0 < m -> 0 <= k -> Zdigits2 (m * 2 ^ k) = Zdigits2 m + k.
Proof.
  intros Hm Hk. assert (0 < 2 ^ k) by (apply Z.pow_pos_nonneg; lia).
  rewrite !Zdigits2_log2 by nia. rewrite Z.log2_mul_pow2 by lia. lia.
Qed.

Lemma Zdigits2_div_pow2 m k :
  0 <= k -> 0 < m / 2 ^ k -> Zdigits2 (m / 2 ^ k) = Zdigits2 m - k.
Proof.
  intros Hk Hq. assert (0 < 2 ^ k) by (apply Z.pow_pos_nonneg; lia).
  assert (0 < m).
  { destruct (Z.lt_ge_cases 0 m) as [|Hle]; [done|exfalso].
    assert (m / 2 ^ k <= 0) by (apply Z.div_le_upper_bound; nia). lia. }
  rewrite !Zdigits2_log2 by lia.
  rewrite <- Z.shiftr_div_pow2 by lia.
  rewrite Z.log2_shiftr by lia.
  assert (0 <= Z.log2 m - k); [|lia].
  destruct (Z.le_gt_cases k (Z.log2 m)) as [|Hgt]; [lia|exfalso].
  pose proof (Z.log2_spec m ltac:(lia)) as [_ Hhi].
  assert (2 ^ Z.succ (Z.log2 m) <= 2 ^ k) by (apply Z.pow_le_mono_r; lia).
  assert (m / 2 ^ k = 0) by (apply Z.div_small; lia). lia.
Qed.

(** Shifting with round and sticky bits *)

Lemma shr_1_m x : 0 <= shr_m x -> shr_m (shr_1 x) = shr_m x / 2.
Proof.
  destruct x as [m r s]. cbn [shr_m]. intros Hm.
  destruct m as [|[p|p|]|p]; cbn [shr_1 shr_m]; try lia; try reflexivity.
  - rewrite (Pos2Z.inj_xI p). apply Z.div_unique with 1; lia.
  - rewrite (Pos2Z.inj_xO p). apply Z.div_unique with 0; lia.
Qed.

Lemma shr_1_ceil x : 0 <= shr_m x -> ceil_m (shr_1 x) = (ceil_m x + 1) / 2.
Proof.
  destruct x as [m r s]. unfold ceil_m. cbn [shr_m]. intros Hm.
  destruct m as [|[p|p|]|p]; try lia; destruct r, s;
    cbn [shr_1 shr_m shr_r shr_s orb];
    rewrite ?(Pos2Z.inj_xI p), ?(Pos2Z.inj_xO p);
    first [ apply Z.div_unique with 0; lia | apply Z.div_unique with 1; lia ].
Qed.

Lemma iter_shr_m p : forall x,
  0 <= shr_m x -> shr_m (SpecFloat.iter_pos shr_1 p x) = shr_m x / 2 ^ Zpos p.
Proof.
  induction p as [p IH|p IH|]; intros x Hx; cbn [SpecFloat.iter_pos].
  - assert (0 < 2 ^ Zpos p) by (apply Z.pow_pos_nonneg; lia).
    assert (0 <= shr_m (shr_1 x)) as H1.
    { rewrite shr_1_m by done. apply Z.div_pos; lia. }
    assert (0 <= shr_m (SpecFloat.iter_pos shr_1 p (shr_1 x))) as H2.
    { rewrite IH by done. apply Z.div_pos; lia. }
    rewrite (IH _ H2), (IH _ H1), shr_1_m by done.
    rewrite !Z.div_div by lia. f_equal.
    rewrite (Pos2Z.inj_xI p).
    replace (2 * Zpos p + 1) with (1 + Zpos p + Zpos p) by lia.
    rewrite !Z.pow_add_r by lia. lia.
  - assert (0 < 2 ^ Zpos p) by (apply Z.pow_pos_nonneg; lia).
    assert (0 <= shr_m (SpecFloat.iter_pos shr_1 p x)) as H2.
    { rewrite IH by done. apply Z.div_pos; lia. }
    rewrite (IH _ H2), (IH _ Hx).
    rewrite !Z.div_div by lia. f_equal.
    rewrite (Pos2Z.inj_xO p). replace (2 * Zpos p) with (Zpos p + Zpos p) by lia.
    rewrite !Z.pow_add_r by lia. lia.
  - rewrite shr_1_m by done. reflexivity.
Qed.

Lemma iter_shr_m_nonneg p x : 0 <= shr_m x -> 0 <= shr_m (SpecFloat.iter_pos shr_1 p x).
Proof.
  intros Hx. rewrite iter_shr_m by done. apply Z.div_pos; [done|].
  apply Z.pow_pos_nonneg; lia.
Qed.

Lemma iter_shr_ceil p : forall x K,
  0 <= shr_m x -> ceil_m x <= 2 ^ Zpos p * K ->
  ceil_m (SpecFloat.iter_pos shr_1 p x) <= K.
Proof.
  assert (forall x K, 0 <= shr_m x -> ceil_m x <= 2 * K ->
                      ceil_m (shr_1 x) <= K) as Hstep.
  { intros x K Hx HK. rewrite shr_1_ceil by done.
    assert ((ceil_m x + 1) / 2 < K + 1); [|lia].
    apply Z.div_lt_upper_bound; lia. }
  induction p as [p IH|p IH|]; intros x K Hx HK; cbn [SpecFloat.iter_pos].
  - assert (0 < 2 ^ Zpos p) by (apply Z.pow_pos_nonneg; lia).
    apply IH; [apply iter_shr_m_nonneg; rewrite shr_1_m by done;
               apply Z.div_pos; lia|].
    apply IH; [rewrite shr_1_m by done; apply Z.div_pos; lia|].
    apply Hstep; [done|].
    rewrite (Pos2Z.inj_xI p) in HK.
    replace (2 * Zpos p + 1) with (1 + Zpos p + Zpos p) in HK by lia.
    rewrite !Z.pow_add_r in HK by lia. change (2 ^ 1) with 2 in HK. lia.
  - assert (0 < 2 ^ Zpos p) by (apply Z.pow_pos_nonneg; lia).
    apply IH; [apply iter_shr_m_nonneg; done|].
    apply IH; [done|].
    rewrite (Pos2Z.inj_xO p) in HK.
    replace (2 * Zpos p) with (Zpos p + Zpos p) in HK by lia.
    rewrite !Z.pow_add_r in HK by lia. lia.
  - apply Hstep; [done|]. change (2 ^ 1) with 2 in HK. lia.
Qed.

(** The exponent function of binary64 *)

Lemma fexp64_eq e : fexp64 e = Z.max (e - 53) (-1074).
Proof. reflexivity. Qed.

Lemma digits_exp_le m e T t :
  0 < m -> -1074 <= e -> 0 < T ->
  m * 2 ^ (e + 1074) <= T * 2 ^ (t + 1074) ->
  Zdigits2 m + e <= Zdigits2 T + t.
Proof.
  intros Hm He HT Hle.
  pose proof (Zdigits2_bounds m Hm) as [Hlo _].
  pose proof (Zdigits2_bounds T HT) as [_ Hhi].
  pose proof (Zdigits2_nonneg T) as HdT.
  assert (1 <= Zdigits2 m).
  { rewrite Zdigits2_log2 by done. pose proof (Z.log2_nonneg m). lia. }
  assert (0 < 2 ^ (e + 1074)) by (apply Z.pow_pos_nonneg; lia).
  destruct (Z.lt_ge_cases (t + 1074) 0) as [Hneg|Hpos].
  { rewrite (Z.pow_neg_r 2 (t + 1074)) in Hle by done. nia. }
  assert (0 < 2 ^ (t + 1074)) by (apply Z.pow_pos_nonneg; lia).
  assert (2 ^ (Zdigits2 m - 1 + (e + 1074)) < 2 ^ (Zdigits2 T + (t + 1074))) as Hp.
  { rewrite (Z.pow_add_r 2 (Zdigits2 m - 1)), (Z.pow_add_r 2 (Zdigits2 T))
      by lia. nia. }
  apply Z.pow_lt_mono_r_iff in Hp; lia.
Qed.

(** Shifting right by [n] places *)

Lemma shr_nonpos mrs e n : n <= 0 -> shr mrs e n = (mrs, e).
Proof. destruct n; try reflexivity. lia. Qed.

Lemma shr_spec mrs e n :
  0 <= shr_m mrs -> 0 <= n ->
  snd (shr mrs e n) = e + n /\
  shr_m (fst (shr mrs e n)) = shr_m mrs / 2 ^ n /\
  forall K, ceil_m mrs <= 2 ^ n * K -> ceil_m (fst (shr mrs e n)) <= K.
Proof.
  intros Hm Hn. destruct n as [|p|p]; try lia; cbn [shr fst snd].
  - rewrite Z.pow_0_r, Z.div_1_r. repeat split; lia.
  - split; [reflexivity|]. split; [by apply iter_shr_m|].
    intros K HK. by apply iter_shr_ceil.
Qed.

Lemma ceil_m_of_loc m l :
  ceil_m (shr_record_of_loc m l) = m + loc_extra l.
Proof. destruct l as [|[]]; unfold ceil_m; simpl; lia. Qed.

Lemma shr_m_of_loc m l : shr_m (shr_record_of_loc m l) = m.
Proof. destruct l as [|[]]; reflexivity. Qed.

Lemma round_nearest_even_bounds x :
  shr_m x <= round_nearest_even (shr_m x) (loc_of_shr_record x) <= ceil_m x.
Proof.
  destruct x as [m [] []]; unfold ceil_m; cbn; try destruct (Z.even m); lia.
Qed.

(** Rounding never exceeds a representable bound *)

Lemma fexp64_mono a b : a <= b -> fexp64 a <= fexp64 b.
Proof. rewrite !fexp64_eq. lia. Qed.

Lemma fexp64_ge e : -1074 <= fexp64 e.
Proof. rewrite fexp64_eq. lia. Qed.

Lemma scale_le_cancel a b k : 0 <= k -> a * 2 ^ k <= b * 2 ^ k -> a <= b.
Proof.
  intros Hk H. assert (0 < 2 ^ k) by (apply Z.pow_pos_nonneg; lia). nia.
Qed.

Lemma scale_split T t e :
  e <= t -> -1074 <= e ->
  T * 2 ^ (t + 1074) = T * 2 ^ (t - e) * 2 ^ (e + 1074).
Proof.
  intros Hle He. rewrite <- Z.mul_assoc, <- Z.pow_add_r by lia.
  do 2 f_equal. lia.
Qed.

Lemma round_aux_upper sx mx ex lx T t :
  0 <= mx -> -1074 <= ex -> ex <= fexp64 (Zdigits2 mx + ex) ->
  0 < T -> fexp64 (Zdigits2 T + t) = t -> t <= 971 ->
  (mx + loc_extra lx) * 2 ^ (ex + 1074) <= T * 2 ^ (t + 1074) ->
  match binary_round_aux 53 1024 sx mx ex lx with
  | S754_zero s => s = sx
  | S754_finite s m e =>
      s = sx /\ fexp64 (Zdigits2 (Zpos m) + e) = e /\ e <= 971 /\
      Zpos m * 2 ^ (e + 1074) <= T * 2 ^ (t + 1074)
  | _ => False
  end.
Proof.
  intros Hmx Hex Hpre HT Hcan Ht Hle.
  assert (0 < 2 ^ (ex + 1074)) as Hpex by (apply Z.pow_pos_nonneg; lia).
  assert (0 <= loc_extra lx) as Hextra by (destruct lx; simpl; lia).
  unfold binary_round_aux, shr_fexp.
  remember (fexp64 (Zdigits2 mx + ex)) as e1 eqn:He1.
  assert (-1074 <= e1) as He1lo by (subst e1; apply fexp64_ge).
  assert (0 <= e1 - ex) as Hn by lia.
  pose proof (shr_spec (shr_record_of_loc mx lx) ex (e1 - ex)) as Hshr.
  rewrite shr_m_of_loc, ceil_m_of_loc in Hshr.
  specialize (Hshr Hmx Hn). destruct Hshr as (Hs1 & Hm1 & Hc1).
  destruct (shr (shr_record_of_loc mx lx) ex (e1 - ex)) as [mrs1 e1'].
  cbn [fst snd] in Hs1, Hm1, Hc1. replace e1' with e1 in * by lia. clear Hs1.
  pose proof (round_nearest_even_bounds mrs1) as [Hr_lo Hr_hi].
  remember (round_nearest_even (shr_m mrs1) (loc_of_shr_record mrs1)) as m2 eqn:Hm2.
  assert (0 <= shr_m mrs1) as Hm1pos.
  { rewrite Hm1. apply Z.div_pos; [done|]. apply Z.pow_pos_nonneg; lia. }
  assert (0 <= m2) as Hm2pos by lia.
  (* the case of a zero value *)
  destruct (Z.eq_dec (mx + loc_extra lx) 0) as [Hzero|Hnz].
  { assert (ceil_m mrs1 <= 0) as Hc0 by (apply Hc1; lia).
    assert (m2 = 0) as -> by lia.
    change (Zdigits2 0) with 0. rewrite Z.add_0_l.
    destruct (Z.le_gt_cases (fexp64 e1 - e1) 0) as [Hn2|Hn2].
    - rewrite shr_nonpos by done. reflexivity.
    - pose proof (shr_spec (shr_record_of_loc 0 loc_Exact) e1 (fexp64 e1 - e1)
                    ltac:(simpl; lia) ltac:(lia)) as (_ & Hm3 & _).
      destruct (shr (shr_record_of_loc 0 loc_Exact) e1 (fexp64 e1 - e1))
        as [mrs2 e2]. cbn [fst snd] in Hm3. rewrite Hm3.
      cbn [shr_record_of_loc shr_m]. rewrite Z.div_0_l; [reflexivity|].
      apply Z.pow_nonzero; lia. }
  (* the exponent of the first shift is at most that of the bound *)
  assert (e1 <= t) as He1t.
  { rewrite He1, <- Hcan. apply fexp64_mono.
    destruct (Z.eq_dec mx 0) as [->|Hmxnz].
    - change (Zdigits2 0) with 0.
      assert (Zdigits2 1 + ex <= Zdigits2 T + t); [|simpl in *; lia].
      assert (loc_extra lx = 1) as Hone by (destruct lx; simpl in *; lia).
      rewrite Hone in Hle. apply digits_exp_le; lia.
    - apply digits_exp_le; try lia; nia. }
  (* the rounded mantissa is below the bound at this exponent *)
  assert (m2 * 2 ^ (e1 + 1074) <= T * 2 ^ (t + 1074)) as Hm2le.
  { rewrite (scale_split T t e1) by lia.
    assert (0 < 2 ^ (e1 + 1074)) by (apply Z.pow_pos_nonneg; lia).
    assert (0 < 2 ^ (t - e1)) by (apply Z.pow_pos_nonneg; lia).
    assert (ceil_m mrs1 <= T * 2 ^ (t - e1)); [|nia].
    apply Hc1. apply (scale_le_cancel _ _ (ex + 1074)); [lia|].
    etransitivity; [exact Hle|]. rewrite (scale_split T t e1) by lia.
    replace (e1 + 1074) with ((e1 - ex) + (ex + 1074)) by lia.
    rewrite Z.pow_add_r by lia. nia. }
  remember (fexp64 (Zdigits2 m2 + e1)) as e2 eqn:He2.
  destruct (Z.le_gt_cases (e2 - e1) 0) as [Hn2|Hn2].
  - (* no second shift *)
    rewrite shr_nonpos by done. cbn [fst snd]. rewrite shr_m_of_loc.
    destruct m2 as [|m|m]; [reflexivity| |lia].
    destruct (Z.leb_spec e1 (1024 - 53)) as [_|]; [|lia].
    split; [reflexivity|]. split; [|split; [lia|exact Hm2le]].
    (* the mantissa is canonical *)
    rewrite <- He2. apply Z.le_antisymm; [lia|].
    destruct (Z.eq_dec (shr_m mrs1) 0) as [Hm1z|Hm1nz].
    + assert (mx < 2 ^ (e1 - ex)) as Hsmall.
      { rewrite Hm1z in Hm1. symmetry in Hm1.
        apply Z.div_small_iff in Hm1; [lia|].
        apply Z.pow_nonzero; lia. }
      pose proof (Zdigits2_lt_pow mx (e1 - ex) ltac:(lia) ltac:(lia)).
      rewrite He2. pose proof (fexp64_ge (Zdigits2 (Zpos m) + e1)).
      rewrite fexp64_eq in He1. lia.
    + assert (Zdigits2 (shr_m mrs1) = Zdigits2 mx - (e1 - ex)) as Hd1.
      { rewrite Hm1. apply Zdigits2_div_pow2; lia. }
      pose proof (Zdigits2_le_mono (shr_m mrs1) (Zpos m) ltac:(lia)) as Hdm.
      rewrite He2, He1 at 1.
      apply fexp64_mono. lia.
  - (* the rounding carried into a new digit: a second shift *)
    pose proof (shr_spec (shr_record_of_loc m2 loc_Exact) e1 (e2 - e1)) as Hshr2.
    rewrite shr_m_of_loc in Hshr2. specialize (Hshr2 Hm2pos ltac:(lia)).
    destruct Hshr2 as (Hs2 & Hm3 & _).
    destruct (shr (shr_record_of_loc m2 loc_Exact) e1 (e2 - e1)) as [mrs2 e2'].
    cbn [fst snd] in Hs2, Hm3 |- *. replace e2' with e2 in * by lia.
    assert (0 < 2 ^ (e2 - e1)) as Hp2 by (apply Z.pow_pos_nonneg; lia).
    pose proof (Z.mul_div_le m2 (2 ^ (e2 - e1)) Hp2) as Hfloor.
    rewrite <- Hm3 in Hfloor.
    destruct (shr_m mrs2) as [|m|m] eqn:Em3; [reflexivity| |].
    2:{ assert (0 <= m2 / 2 ^ (e2 - e1)) by (apply Z.div_pos; lia). lia. }
    assert (0 < m2) as Hm2gt by nia.
    assert (e2 <= t) as He2t.
    { rewrite He2, <- Hcan. apply fexp64_mono. apply digits_exp_le; lia. }
    destruct (Z.leb_spec e2 (1024 - 53)) as [_|]; [|lia].
    split; [reflexivity|]. split; [|split; [lia|]].
    + rewrite Hm3, Zdigits2_div_pow2 by lia.
      replace (Zdigits2 m2 - (e2 - e1) + e2) with (Zdigits2 m2 + e1) by lia.
      symmetry. exact He2.
    + etransitivity; [|exact Hm2le].
      replace (e2 + 1074) with ((e2 - e1) + (e1 + 1074)) by lia.
      rewrite Z.pow_add_r by lia.
      assert (0 < 2 ^ (e1 + 1074)) by (apply Z.pow_pos_nonneg; lia). nia.
Qed.

(** Alignment and rounding of an integer mantissa *)

Lemma iter_xO_pow2 m d : Zpos (Pos.iter xO m d) = Zpos m * 2 ^ Zpos d.
Proof.
  induction d as [|d IH] using Pos.peano_ind.
  - cbn [Pos.iter]. rewrite (Pos2Z.inj_xO m). change (2 ^ 1) with 2. lia.
  - rewrite Pos.iter_succ, (Pos2Z.inj_xO (Pos.iter xO m d)), IH.
    rewrite Pos2Z.inj_succ, Z.pow_succ_r by lia. lia.
Qed.

Lemma shl_align_spec mx ex ex' :
  let '(mz, ez) := shl_align mx ex ex' in
  ez <= ex /\ ez <= Z.max ex' ex /\ (ex' <= ex -> ez = ex') /\
  (ex <= ex' -> ez = ex) /\
  Zpos mz = Zpos mx * 2 ^ (ex - ez).
Proof.
  unfold shl_align. destruct (ex' - ex) as [|d|d] eqn:E.
  - rewrite Z.sub_diag, Z.pow_0_r. repeat split; lia.
  - rewrite Z.sub_diag, Z.pow_0_r. repeat split; lia.
  - rewrite iter_xO_pow2. replace (ex - ex') with (Zpos d) by lia.
    repeat split; lia.
Qed.

Lemma binary_round_upper sx mx ex T t :
  -1074 <= ex -> 0 < T -> canonical64 T t ->
  Zpos mx * 2 ^ (ex + 1074) <= T * 2 ^ (t + 1074) ->
  match binary_round 53 1024 sx mx ex with
  | S754_zero s => s = sx
  | S754_finite s m e =>
      s = sx /\ canonical64 (Zpos m) e /\
      Zpos m * 2 ^ (e + 1074) <= T * 2 ^ (t + 1074)
  | _ => False
  end.
Proof.
  intros Hex HT [Hcan Ht] Hle. unfold binary_round.
  pose proof (shl_align_spec mx ex (fexp64 (Zpos (digits2_pos mx) + ex)))
    as Hal.
  destruct (shl_align mx ex (fexp64 (Zpos (digits2_pos mx) + ex)))
    as [mz ez].
  destruct Hal as (Hez & _ & Hcase1 & Hcase2 & Hmz).
  change (Zpos (digits2_pos mx)) with (Zdigits2 (Zpos mx)) in *.
  pose proof (fexp64_ge (Zdigits2 (Zpos mx) + ex)) as Hfe.
  assert (-1074 <= ez) as Hezlo.
  { destruct (Z.le_gt_cases (fexp64 (Zdigits2 (Zpos mx) + ex)) ex);
      [rewrite Hcase1 by done; lia|rewrite Hcase2 by lia; lia]. }
  assert (Zdigits2 (Zpos mz) + ez = Zdigits2 (Zpos mx) + ex) as Hdig.
  { rewrite Hmz, Zdigits2_mul_pow2 by lia. lia. }
  assert (Zpos mz * 2 ^ (ez + 1074) = Zpos mx * 2 ^ (ex + 1074)) as Hval.
  { rewrite Hmz, <- Z.mul_assoc, <- Z.pow_add_r by lia. do 2 f_equal. lia. }
  pose proof (round_aux_upper sx (Zpos mz) ez loc_Exact T t) as Haux.
  cbn [loc_extra] in Haux. rewrite Z.add_0_r, Hdig, Hval in Haux.
  assert (ez <= fexp64 (Zdigits2 (Zpos mx) + ex)) as Hpre.
  { destruct (Z.le_gt_cases (fexp64 (Zdigits2 (Zpos mx) + ex)) ex);
      [rewrite Hcase1 by done; lia|rewrite Hcase2 by lia; lia]. }
  specialize (Haux ltac:(lia) Hezlo Hpre HT Hcan Ht Hle).
  destruct (binary_round_aux 53 1024 sx (Z.pos mz) ez loc_Exact); try done.
  unfold canonical64. tauto.
Qed.

(** Finite binary64 values and their exact magnitudes *)

Lemma good_finite s m e : good (S754_finite s m e) <-> canonical64 (Zpos m) e.
Proof.
  unfold good, valid, canonical64, valid_binary, bounded, canonical_mantissa.
  cbn [is_finite]. rewrite andb_true_iff, Z.eqb_eq, Z.leb_le.
  change (emax - prec) with 971.
  change (Zpos (digits2_pos m)) with (Zdigits2 (Zpos m)).
  change (fexp prec emax) with fexp64. tauto.
Qed.

Lemma good_zero s : good (S754_zero s).
Proof. split; reflexivity. Qed.

Lemma canonical64_exp m e : canonical64 m e -> -1074 <= e.
Proof. intros [H _]. rewrite <- H. apply fexp64_ge. Qed.

Lemma ulps_pos m e : 0 < Zpos m * 2 ^ (e + 1074) \/ e + 1074 < 0.
Proof.
  destruct (Z.lt_ge_cases (e + 1074) 0); [by right|left].
  assert (0 < 2 ^ (e + 1074)) by (apply Z.pow_pos_nonneg; lia). nia.
Qed.

Lemma good_ulps_sign s m e :
  good (S754_finite s m e) ->
  if s then ulps (S754_finite s m e) < 0 else 0 < ulps (S754_finite s m e).
Proof.
  intros H%good_finite. apply canonical64_exp in H.
  destruct (ulps_pos m e) as [Hp|]; [|lia].
  destruct s; cbn [ulps cond_Zopp]; lia.
Qed.

(** A rounded magnitude stays between representable bounds *)

Lemma round_aux_within sx mx ex lx T t :
  0 <= mx -> -1074 <= ex -> ex <= fexp64 (Zdigits2 mx + ex) ->
  0 < T -> canonical64 T t ->
  (mx + loc_extra lx) * 2 ^ (ex + 1074) <= T * 2 ^ (t + 1074) ->
  rounds_within sx (binary_round_aux 53 1024 sx mx ex lx) T t.
Proof.
  intros Hmx Hex Hpre HT [Hcan Ht] Hle.
  pose proof (round_aux_upper sx mx ex lx T t Hmx Hex Hpre HT Hcan Ht Hle) as H.
  destruct (binary_round_aux 53 1024 sx mx ex lx); try done.
  unfold rounds_within, canonical64. tauto.
Qed.

Lemma rounds_within_between sx r T t lo hi :
  rounds_within sx r T t -> ulps lo <= 0 <= ulps hi ->
  (if sx then ulps lo = - (T * 2 ^ (t + 1074))
   else ulps hi = T * 2 ^ (t + 1074)) ->
  good r /\ ulps lo <= ulps r <= ulps hi.
Proof.
  intros Hr Hsign Hwhich.
  destruct r as [s| | |s m e]; [|contradiction|contradiction|].
  - split; [apply good_zero|]. cbn [ulps]. lia.
  - destruct Hr as (-> & Hc & Hb). split; [by apply good_finite|].
    pose proof (canonical64_exp _ _ Hc).
    destruct (ulps_pos m e) as [Hp|]; [|lia].
    destruct sx; cbn [ulps cond_Zopp] in *; lia.
Qed.

(** Division by 5.0 *)

Lemma five_m_eq : Zpos five_m = 5 * 2 ^ 50.
Proof. reflexivity. Qed.

Lemma five_m_digits : Zdigits2 (Zpos five_m) = 53.
Proof. reflexivity. Qed.

Lemma canonical64_digits m e : 0 < m -> canonical64 m e -> Zdigits2 m <= 53.
Proof. intros Hm [H _]. rewrite fexp64_eq in H. lia. Qed.

Lemma div_eucl_spec a b :
  0 < b -> let '(q, r) := Z.div_eucl a b in a = b * q + r /\ 0 <= r < b.
Proof.
  intros Hb. pose proof (Z_div_mod a b ltac:(lia)) as H.
  destruct (Z.div_eucl a b) as [q r]. exact H.
Qed.

Lemma div_five_core mx ex T t :
  canonical64 (Zpos mx) ex -> 0 < T -> canonical64 T t ->
  Zpos mx * 2 ^ (ex + 1074) <= 5 * (T * 2 ^ (t + 1074)) ->
  let '(q, e', l) := SFdiv_core_binary 53 1024 (Zpos mx) ex (Zpos five_m) (-50) in
  0 <= q /\ 0 < q + loc_extra l /\ -1074 <= e' /\
  e' <= fexp64 (Zdigits2 q + e') /\
  (q + loc_extra l) * 2 ^ (e' + 1074) <= T * 2 ^ (t + 1074).
Proof.
  intros Hcx HT Hct Hle.
  pose proof (canonical64_exp _ _ Hcx) as Hex.
  pose proof (canonical64_exp _ _ Hct) as Htlo.
  pose proof (canonical64_digits (Zpos mx) ex ltac:(lia) Hcx) as Hd1.
  assert (1 <= Zdigits2 (Zpos mx)) as Hd1lo by (simpl; lia).
  unfold SFdiv_core_binary. rewrite five_m_digits.
  remember (Zdigits2 (Zpos mx)) as d1 eqn:Hd1eq.
  replace (d1 + ex - (53 + -50)) with (d1 + ex - 3) by lia.
  replace (ex - -50) with (ex + 50) by lia.
  remember (Z.min (fexp64 (d1 + ex - 3)) (ex + 50)) as e' eqn:He'.
  pose proof (fexp64_ge (d1 + ex - 3)) as Hfz.
  assert (e' = fexp64 (d1 + ex - 3)) as He'eq.
  { rewrite fexp64_eq in *. lia. }
  assert (-1074 <= e') as He'lo by lia.
  assert (0 <= ex + 50 - e') as Hs by (rewrite fexp64_eq in *; lia).
  remember (ex + 50 - e') as sh eqn:Hsh.
  assert (match sh with
          | 0 => Zpos mx
          | Zpos _ => Z.shiftl (Zpos mx) sh
          | Zneg _ => 0
          end = Zpos mx * 2 ^ sh) as ->.
  { destruct sh as [|p|p]; [rewrite Z.pow_0_r; lia| |lia].
    apply Z.shiftl_mul_pow2. lia. }
  assert (0 < 2 ^ sh) as Hpsh by (apply Z.pow_pos_nonneg; lia).
  pose proof (div_eucl_spec (Zpos mx * 2 ^ sh) (Zpos five_m) ltac:(lia)) as Hdiv.
  destruct (Z.div_eucl (Zpos mx * 2 ^ sh) (Zpos five_m)) as [q r].
  destruct Hdiv as [Hqr Hr].
  assert (loc_extra (new_location (Zpos five_m) r) = if r =? 0 then 0 else 1)
    as Hextra.
  { unfold new_location. change (Z.even (Zpos five_m)) with true.
    unfold new_location_even. destruct (r =? 0); reflexivity. }
  rewrite Hextra.
  assert (0 <= q) as Hq by nia.
  assert (0 < q + (if r =? 0 then 0 else 1)) as Hnz.
  { destruct (Z.eqb_spec r 0); nia. }
  (* the exponent is below that of the bound *)
  assert (e' <= t) as He't.
  { destruct Hct as [Hct _].
    assert (fexp64 (d1 + ex - 3) <= fexp64 (Zdigits2 T + t)); [|lia].
    apply fexp64_mono.
    assert (d1 + ex <= Zdigits2 T + (t + 3)); [|lia].
    rewrite Hd1eq. apply digits_exp_le; try lia.
    replace (t + 3 + 1074) with (3 + (t + 1074)) by lia.
    rewrite (Z.pow_add_r 2 3 (t + 1074)) by lia. change (2 ^ 3) with 8.
    assert (0 < 2 ^ (t + 1074)) by (apply Z.pow_pos_nonneg; lia). nia. }
  repeat split; try lia.
  - (* the quotient has enough digits *)
    destruct (Z.eq_dec q 0) as [->|Hqnz].
    + change (Zdigits2 0) with 0. rewrite Z.add_0_l.
      assert (Zdigits2 (Zpos mx * 2 ^ sh) <= 53) as Hsmall.
      { apply Zdigits2_lt_pow; [|lia].
        pose proof (Zdigits2_bounds (Zpos five_m) ltac:(lia)) as [_ Hhi].
        rewrite five_m_digits in Hhi. lia. }
      rewrite Zdigits2_mul_pow2, <- Hd1eq in Hsmall by lia.
      rewrite fexp64_eq in *. lia.
    + rewrite He'eq at 1. apply fexp64_mono.
      assert (Zdigits2 (Zpos mx * 2 ^ sh) <= Zdigits2 q + 53) as Hdq.
      { apply Zdigits2_lt_pow; [|pose proof (Zdigits2_nonneg q); lia].
        pose proof (Zdigits2_bounds q ltac:(lia)) as [_ Hqhi].
        pose proof (Zdigits2_bounds (Zpos five_m) ltac:(lia)) as [_ Hhi].
        rewrite five_m_digits in Hhi.
        rewrite Z.pow_add_r by (pose proof (Zdigits2_nonneg q); lia).
        split; [lia|]. nia. }
      rewrite Zdigits2_mul_pow2, <- Hd1eq in Hdq by lia. lia.
  - (* the rounded-up quotient is below the bound *)
    rewrite (scale_split T t e') by lia.
    assert (0 < 2 ^ (e' + 1074)) by (apply Z.pow_pos_nonneg; lia).
    assert (0 < 2 ^ (t - e')) by (apply Z.pow_pos_nonneg; lia).
    assert (Zpos mx * 2 ^ sh <= Zpos five_m * (T * 2 ^ (t - e'))) as Hm'.
    { apply (scale_le_cancel _ _ (e' + 1074)); [lia|].
      rewrite five_m_eq.
      replace (5 * 2 ^ 50 * (T * 2 ^ (t - e')) * 2 ^ (e' + 1074))
        with (2 ^ 50 * (5 * (T * 2 ^ (t - e') * 2 ^ (e' + 1074)))) by ring.
      rewrite <- (scale_split T t e') by lia.
      replace (Zpos mx * 2 ^ sh * 2 ^ (e' + 1074))
        with (2 ^ 50 * (Zpos mx * 2 ^ (ex + 1074))); [nia|].
      rewrite <- !Z.mul_assoc, <- Z.pow_add_r by lia.
      rewrite (Z.mul_comm (2 ^ 50)), <- Z.mul_assoc, <- Z.pow_add_r by lia.
      do 2 f_equal. lia. }
    assert (q + (if r =? 0 then 0 else 1) <= T * 2 ^ (t - e')); [|nia].
    destruct (Z.eqb_spec r 0); nia.
Qed.

(** Comparison of finite floats is comparison of their exact values *)

Lemma mag_lt m1 e1 m2 e2 :
  canonical64 (Zpos m1) e1 -> canonical64 (Zpos m2) e2 -> e1 < e2 ->
  Zpos m1 * 2 ^ (e1 + 1074) < Zpos m2 * 2 ^ (e2 + 1074).
Proof.
  intros H1 H2 Hlt.
  pose proof (canonical64_exp _ _ H1) as He1.
  pose proof (canonical64_digits (Zpos m1) e1 ltac:(lia) H1) as Hd1.
  pose proof (Zdigits2_bounds (Zpos m1) ltac:(lia)) as [_ Hhi1].
  pose proof (Zdigits2_bounds (Zpos m2) ltac:(lia)) as [Hlo2 _].
  destruct H2 as [H2 _]. rewrite fexp64_eq in H2.
  assert (Zdigits2 (Zpos m2) = 53) as Hd2 by lia.
  rewrite Hd2 in Hlo2. change (2 ^ (53 - 1)) with 4503599627370496 in Hlo2.
  assert (2 ^ Zdigits2 (Zpos m1) <= 2 ^ 53) as Hp
    by (apply Z.pow_le_mono_r; lia).
  change (2 ^ 53) with 9007199254740992 in Hp.
  assert (0 < 2 ^ (e1 + 1074)) by (apply Z.pow_pos_nonneg; lia).
  assert (2 * 2 ^ (e1 + 1074) <= 2 ^ (e2 + 1074)).
  { rewrite <- Z.pow_succ_r by lia. apply Z.pow_le_mono_r; lia. }
  nia.
Qed.

Lemma mag_compare m1 e1 m2 e2 :
  canonical64 (Zpos m1) e1 -> canonical64 (Zpos m2) e2 ->
  match e1 ?= e2 with
  | Lt => Lt
  | Gt => Gt
  | Eq => Pos.compare_cont Eq m1 m2
  end = (Zpos m1 * 2 ^ (e1 + 1074) ?= Zpos m2 * 2 ^ (e2 + 1074)).
Proof.
  intros H1 H2. destruct (Z.compare_spec e1 e2) as [->|Hlt|Hgt].
  - pose proof (canonical64_exp _ _ H2).
    assert (0 < 2 ^ (e2 + 1074)) by (apply Z.pow_pos_nonneg; lia).
    rewrite <- Zmult_compare_compat_r by lia. reflexivity.
  - symmetry. apply Z.compare_lt_iff. by apply mag_lt.
  - symmetry. apply Z.compare_gt_iff. by apply mag_lt.
Qed.

Lemma SFcompare_ulps x y :
  good x -> good y -> SFcompare x y = Some (ulps x ?= ulps y).
Proof.
  intros Hx Hy.
  destruct x as [sx| | |sx mx ex]; try (destruct Hx as [_ Hx]; discriminate);
  destruct y as [sy| | |sy my ey]; try (destruct Hy as [_ Hy]; discriminate).
  - reflexivity.
  - pose proof (good_ulps_sign _ _ _ Hy) as Hs. cbn [SFcompare].
    change (ulps (S754_zero sx)) with 0.
    destruct sy; f_equal; symmetry;
      [apply Z.compare_gt_iff|apply Z.compare_lt_iff]; lia.
  - pose proof (good_ulps_sign _ _ _ Hx) as Hs. cbn [SFcompare].
    change (ulps (S754_zero sy)) with 0.
    destruct sx; f_equal; symmetry;
      [apply Z.compare_lt_iff|apply Z.compare_gt_iff]; lia.
  - pose proof (good_ulps_sign _ _ _ Hx) as Hsx.
    pose proof (good_ulps_sign _ _ _ Hy) as Hsy.
    apply good_finite in Hx, Hy.
    cbn [SFcompare]. f_equal.
    destruct sx, sy.
    + cbn [ulps cond_Zopp]. rewrite Z.compare_opp.
      rewrite <- (mag_compare my ey mx ex Hy Hx).
      rewrite (Z.compare_antisym ex ey).
      destruct (ex ?= ey); cbn [CompOpp]; try reflexivity.
      symmetry. apply (Pos.compare_antisym mx my).
    + symmetry. apply Z.compare_lt_iff. lia.
    + symmetry. apply Z.compare_gt_iff. lia.
    + rewrite (mag_compare mx ex my ey Hx Hy). reflexivity.
Qed.

Lemma SFleb_ulps x y : good x -> good y -> SFleb x y = true <-> ulps x <= ulps y.
Proof.
  intros Hx Hy. unfold SFleb. rewrite (SFcompare_ulps x y Hx Hy).
  destruct (Z.compare_spec (ulps x) (ulps y)); split; intros; try done; lia.
Qed.

Lemma SFltb_ulps x y : good x -> good y -> SFltb x y = true <-> ulps x < ulps y.
Proof.
  intros Hx Hy. unfold SFltb. rewrite (SFcompare_ulps x y Hx Hy).
  destruct (Z.compare_spec (ulps x) (ulps y)); split; intros; try done; lia.
Qed.

(** Rounding a non-negative mantissa never produces a NaN *)

Lemma shr_m_nonneg mrs e n :
  0 <= shr_m mrs -> 0 <= shr_m (fst (shr mrs e n)).
Proof.
  intros Hm. destruct n as [|p|p]; cbn [shr fst]; try done.
  by apply iter_shr_m_nonneg.
Qed.

Lemma round_aux_not_nan sx mx ex lx :
  0 <= mx -> binary_round_aux 53 1024 sx mx ex lx <> S754_nan.
Proof.
  intros Hmx. unfold binary_round_aux, shr_fexp.
  pose proof (shr_m_nonneg (shr_record_of_loc mx lx) ex
                (fexp64 (Zdigits2 mx + ex) - ex)) as H1.
  rewrite shr_m_of_loc in H1. specialize (H1 Hmx).
  destruct (shr (shr_record_of_loc mx lx) ex (fexp64 (Zdigits2 mx + ex) - ex))
    as [mrs1 e1]. cbn [fst] in H1.
  pose proof (round_nearest_even_bounds mrs1) as [Hlo _].
  remember (round_nearest_even (shr_m mrs1) (loc_of_shr_record mrs1)) as m2.
  pose proof (shr_m_nonneg (shr_record_of_loc m2 loc_Exact) e1
                (fexp64 (Zdigits2 m2 + e1) - e1)) as H2.
  rewrite shr_m_of_loc in H2. specialize (H2 ltac:(lia)).
  destruct (shr (shr_record_of_loc m2 loc_Exact) e1
              (fexp64 (Zdigits2 m2 + e1) - e1)) as [mrs2 e2].
  cbn [fst] in H2. destruct (shr_m mrs2) as [|m|m]; [done| |lia].
  destruct (e2 <=? 1024 - 53); done.
Qed.

(** Rounding never falls below a representable bound *)

Lemma floor_shift_lower m e T t :
  0 < m -> -1074 <= e -> 0 < T -> canonical64 T t ->
  T * 2 ^ (t + 1074) <= m * 2 ^ (e + 1074) ->
  e <= fexp64 (Zdigits2 m + e) ->
  T * 2 ^ (t + 1074) <=
    m / 2 ^ (fexp64 (Zdigits2 m + e) - e) * 2 ^ (fexp64 (Zdigits2 m + e) + 1074).
Proof.
  intros Hm He HT [Hcan Ht] Hle Hpre.
  remember (fexp64 (Zdigits2 m + e)) as e1 eqn:He1.
  pose proof (digits_exp_le T t m e) as Hdig.
  assert (-1074 <= t) as Htlo by (rewrite <- Hcan; apply fexp64_ge).
  specialize (Hdig HT Htlo Hm Hle).
  assert (0 < 2 ^ (e + 1074)) by (apply Z.pow_pos_nonneg; lia).
  assert (0 < 2 ^ (t + 1074)) by (apply Z.pow_pos_nonneg; lia).
  assert (0 < 2 ^ (e1 - e)) by (apply Z.pow_pos_nonneg; lia).
  assert (-1074 <= e1) by (rewrite He1; apply fexp64_ge).
  assert (0 < 2 ^ (e1 + 1074)) by (apply Z.pow_pos_nonneg; lia).
  assert (1 <= Zdigits2 T).
  { rewrite Zdigits2_log2 by done. pose proof (Z.log2_nonneg T). lia. }
  destruct (Z.eq_dec (Zdigits2 T + t) (Zdigits2 m + e)) as [Heq|Hne].
  - (* same binade: the bound is a multiple of the new unit *)
    assert (t = e1) as -> by (rewrite He1, <- Heq; congruence).
    assert (T <= m / 2 ^ (e1 - e)); [|nia].
    apply Z.div_le_lower_bound; [lia|].
    apply (scale_le_cancel _ _ (e + 1074)); [lia|].
    rewrite (scale_split T e1 e) in Hle by lia. lia.
  - (* a lower binade: the bound is below the leading power of two *)
    pose proof (Zdigits2_bounds T HT) as [_ HThi].
    pose proof (Zdigits2_bounds m Hm) as [Hmlo _].
    assert (e1 - e <= Zdigits2 m - 1) as Hk.
    { rewrite He1, fexp64_eq. lia. }
    assert (2 ^ (Zdigits2 m - 1 - (e1 - e)) <= m / 2 ^ (e1 - e)) as Hq.
    { apply Z.div_le_lower_bound; [lia|].
      rewrite <- Z.pow_add_r by lia.
      replace (e1 - e + (Zdigits2 m - 1 - (e1 - e))) with (Zdigits2 m - 1) by lia.
      exact Hmlo. }
    assert (T * 2 ^ (t + 1074) < 2 ^ (Zdigits2 T + (t + 1074))) as HA.
    { rewrite (Z.pow_add_r 2 (Zdigits2 T) (t + 1074)) by lia.
      apply Z.mul_lt_mono_pos_r; lia. }
    assert (2 ^ (Zdigits2 T + (t + 1074)) <=
            2 ^ (Zdigits2 m - 1 - (e1 - e) + (e1 + 1074))) as HB.
    { apply Z.pow_le_mono_r; lia. }
    rewrite (Z.pow_add_r 2 (Zdigits2 m - 1 - (e1 - e)) (e1 + 1074)) in HB by lia.
    assert (2 ^ (Zdigits2 m - 1 - (e1 - e)) * 2 ^ (e1 + 1074) <=
            m / 2 ^ (e1 - e) * 2 ^ (e1 + 1074))
      by (apply Z.mul_le_mono_nonneg_r; lia).
    lia.
Qed.

Lemma round_aux_lower sx mx ex lx T t :
  0 < mx -> -1074 <= ex -> ex <= fexp64 (Zdigits2 mx + ex) ->
  0 < T -> canonical64 T t ->
  T * 2 ^ (t + 1074) <= mx * 2 ^ (ex + 1074) ->
  match binary_round_aux 53 1024 sx mx ex lx with
  | S754_finite s m e => T * 2 ^ (t + 1074) <= Zpos m * 2 ^ (e + 1074)
  | S754_infinity _ => True
  | _ => False
  end.
Proof.
  intros Hmx Hex Hpre HT Hcan Hle.
  pose proof (floor_shift_lower mx ex T t Hmx Hex HT Hcan Hle Hpre) as Hfl.
  unfold binary_round_aux, shr_fexp.
  remember (fexp64 (Zdigits2 mx + ex)) as e1 eqn:He1.
  assert (-1074 <= e1) as He1lo by (subst e1; apply fexp64_ge).
  pose proof (shr_spec (shr_record_of_loc mx lx) ex (e1 - ex)) as Hshr.
  rewrite shr_m_of_loc in Hshr.
  specialize (Hshr ltac:(lia) ltac:(lia)). destruct Hshr as (Hs1 & Hm1 & _).
  destruct (shr (shr_record_of_loc mx lx) ex (e1 - ex)) as [mrs1 e1'].
  cbn [fst snd] in Hs1, Hm1 |- *. replace e1' with e1 in * by lia. clear Hs1.
  pose proof (round_nearest_even_bounds mrs1) as [Hr_lo _].
  remember (round_nearest_even (shr_m mrs1) (loc_of_shr_record mrs1)) as m2 eqn:Hm2.
  rewrite Hm1 in Hr_lo.
  assert (0 < 2 ^ (e1 + 1074)) by (apply Z.pow_pos_nonneg; lia).
  assert (-1074 <= t) as Htlo by (destruct Hcan as [<- _]; apply fexp64_ge).
  assert (0 < 2 ^ (t + 1074)) by (apply Z.pow_pos_nonneg; lia).
  assert (T * 2 ^ (t + 1074) <= m2 * 2 ^ (e1 + 1074)) as Hm2le by nia.
  assert (0 < m2) as Hm2pos by nia.
  remember (fexp64 (Zdigits2 m2 + e1)) as e2 eqn:He2.
  destruct (Z.le_gt_cases (e2 - e1) 0) as [Hn2|Hn2].
  - rewrite shr_nonpos by done. cbn [fst snd]. rewrite shr_m_of_loc.
    destruct m2 as [|m|m]; [lia| |lia].
    destruct (e1 <=? 1024 - 53); [exact Hm2le|exact I].
  - pose proof (floor_shift_lower m2 e1 T t Hm2pos He1lo HT Hcan Hm2le) as Hfl2.
    rewrite <- He2 in Hfl2. specialize (Hfl2 ltac:(lia)).
    pose proof (shr_spec (shr_record_of_loc m2 loc_Exact) e1 (e2 - e1)) as Hshr2.
    rewrite shr_m_of_loc in Hshr2. specialize (Hshr2 ltac:(lia) ltac:(lia)).
    destruct Hshr2 as (Hs2 & Hm3 & _).
    destruct (shr (shr_record_of_loc m2 loc_Exact) e1 (e2 - e1)) as [mrs2 e2'].
    cbn [fst snd] in Hs2, Hm3 |- *. replace e2' with e2 in * by lia.
    rewrite <- Hm3 in Hfl2.
    assert (-1074 <= e2) by (subst e2; apply fexp64_ge).
    assert (0 < 2 ^ (e2 + 1074)) by (apply Z.pow_pos_nonneg; lia).
    destruct (shr_m mrs2) as [|m|m]; [nia| |nia].
    destruct (e2 <=? 1024 - 53); [exact Hfl2|exact I].
Qed.

Lemma binary_round_lower sx mx ex T t :
  -1074 <= ex -> 0 < T -> canonical64 T t ->
  T * 2 ^ (t + 1074) <= Zpos mx * 2 ^ (ex + 1074) ->
  match binary_round 53 1024 sx mx ex with
  | S754_finite s m e => T * 2 ^ (t + 1074) <= Zpos m * 2 ^ (e + 1074)
  | S754_infinity _ => True
  | _ => False
  end.
Proof.
  intros Hex HT Hcan Hle. unfold binary_round.
  pose proof (shl_align_spec mx ex (fexp64 (Zpos (digits2_pos mx) + ex)))
    as Hal.
  destruct (shl_align mx ex (fexp64 (Zpos (digits2_pos mx) + ex)))
    as [mz ez].
  destruct Hal as (Hez & _ & Hcase1 & Hcase2 & Hmz).
  change (Zpos (digits2_pos mx)) with (Zdigits2 (Zpos mx)) in *.
  pose proof (fexp64_ge (Zdigits2 (Zpos mx) + ex)) as Hfe.
  assert (-1074 <= ez) as Hezlo.
  { destruct (Z.le_gt_cases (fexp64 (Zdigits2 (Zpos mx) + ex)) ex);
      [rewrite Hcase1 by done; lia|rewrite Hcase2 by lia; lia]. }
  assert (Zdigits2 (Zpos mz) + ez = Zdigits2 (Zpos mx) + ex) as Hdig.
  { rewrite Hmz, Zdigits2_mul_pow2 by lia. lia. }
  assert (Zpos mz * 2 ^ (ez + 1074) = Zpos mx * 2 ^ (ex + 1074)) as Hval.
  { rewrite Hmz, <- Z.mul_assoc, <- Z.pow_add_r by lia. do 2 f_equal. lia. }
  apply round_aux_lower; try done; try lia.
  rewrite Hdig.
  destruct (Z.le_gt_cases (fexp64 (Zdigits2 (Zpos mx) + ex)) ex);
    [rewrite Hcase1 by done; lia|rewrite Hcase2 by lia; lia].
Qed.

Lemma good_pos_finite x :
  good x -> 0 < ulps x ->
  exists m e, x = S754_finite false m e /\ canonical64 (Zpos m) e.
Proof.
  intros Hx Hpos. destruct x as [| | |s m e]; cbn [ulps] in Hpos; try lia.
  pose proof (good_ulps_sign s m e Hx) as Hs. cbn [ulps] in Hs.
  destruct s; [lia|]. exists m, e. split; [done|]. exact (proj1 (good_finite _ _ _) Hx).
Qed.

Lemma good_neg_finite x :
  good x -> ulps x < 0 ->
  exists m e, x = S754_finite true m e /\ canonical64 (Zpos m) e.
Proof.
  intros Hx Hneg. destruct x as [| | |s m e]; cbn [ulps] in Hneg; try lia.
  pose proof (good_ulps_sign s m e Hx) as Hs. cbn [ulps] in Hs.
  destruct s; [|lia]. exists m, e. split; [done|]. exact (proj1 (good_finite _ _ _) Hx).
Qed.

(** The outcome of a rounding whose magnitude is known from above (a
    [rounds_within] fact) and, when it matters, from below. *)
Lemma rounds_between sx r T t lo hi :
  rounds_within sx r T t -> 0 < T ->
  (if sx then ulps lo = - (T * 2 ^ (t + 1074))
   else ulps hi = T * 2 ^ (t + 1074)) ->
  (forall L l, 0 < L -> canonical64 L l ->
     (if sx then ulps hi = - (L * 2 ^ (l + 1074))
      else ulps lo = L * 2 ^ (l + 1074)) ->
     match r with
     | S754_finite s m e => L * 2 ^ (l + 1074) <= Zpos m * 2 ^ (e + 1074)
     | S754_infinity _ => True
     | _ => False
     end) ->
  good lo -> good hi ->
  good r /\ ulps lo <= ulps r <= ulps hi.
Proof.
  intros Hr HT Hwhich Hlow Hlo Hhi.
  assert (0 <= T * 2 ^ (t + 1074)) as HTT by (apply Z.mul_nonneg_nonneg; [lia|apply Z.pow_nonneg; lia]).
  destruct sx.
  - (* a negative value: [lo] bounds the magnitude from above *)
    destruct (Z.le_gt_cases 0 (ulps hi)) as [Hhi0|Hhi0].
    + apply (rounds_within_between true r T t); [done| |done].
      lia.
    + destruct (good_neg_finite hi Hhi Hhi0) as (L & l & -> & HL).
      specialize (Hlow (Zpos L) l ltac:(lia) HL eq_refl).
      destruct r as [s| | |s m e]; try contradiction.
      destruct Hr as (-> & Hc & Hb). split; [by apply good_finite|].
      cbn [ulps cond_Zopp] in *. lia.
  - destruct (Z.le_gt_cases (ulps lo) 0) as [Hlo0|Hlo0].
    + apply (rounds_within_between false r T t); [done| |done].
      lia.
    + destruct (good_pos_finite lo Hlo Hlo0) as (L & l & -> & HL).
      specialize (Hlow (Zpos L) l ltac:(lia) HL eq_refl).
      destruct r as [s| | |s m e]; try contradiction.
      destruct Hr as (-> & Hc & Hb). split; [by apply good_finite|].
      cbn [ulps cond_Zopp] in *. lia.
Qed.

Lemma binary_round_within sx mx ex lo hi :
  -1074 <= ex -> good lo -> good hi ->
  ulps lo <= cond_Zopp sx (Zpos mx * 2 ^ (ex + 1074)) <= ulps hi ->
  good (binary_round 53 1024 sx mx ex) /\
  ulps lo <= ulps (binary_round 53 1024 sx mx ex) <= ulps hi.
Proof.
  intros Hex Hlo Hhi Hle.
  assert (0 < Zpos mx * 2 ^ (ex + 1074)) as Hpos.
  { destruct (ulps_pos mx ex); [done|lia]. }
  assert (exists T t, 0 < T /\ canonical64 T t /\
            Zpos mx * 2 ^ (ex + 1074) <= T * 2 ^ (t + 1074) /\
            (if sx then ulps lo = - (T * 2 ^ (t + 1074))
             else ulps hi = T * 2 ^ (t + 1074))) as (T & t & HT & Hcan & Hb & Hw).
  { destruct sx; cbn [cond_Zopp] in Hle.
    - destruct (good_neg_finite lo Hlo ltac:(lia)) as (T & t & -> & Hc).
      exists (Zpos T), t. cbn [ulps cond_Zopp] in *.
      split; [lia|]. split; [done|]. split; lia.
    - destruct (good_pos_finite hi Hhi ltac:(lia)) as (T & t & -> & Hc).
      exists (Zpos T), t. cbn [ulps cond_Zopp] in *.
      split; [lia|]. split; [done|]. split; lia. }
  apply (rounds_between sx _ T t); try done.
  - apply binary_round_upper; done.
  - intros L l HL Hc HwL. apply binary_round_lower; try done.
    destruct sx; cbn [cond_Zopp] in Hle; lia.
Qed.

Lemma add_within x y lo hi :
  good x -> good y -> good lo -> good hi ->
  ulps lo <= ulps x + ulps y <= ulps hi ->
  good (SFadd 53 1024 x y) /\
  ulps lo <= ulps (SFadd 53 1024 x y) <= ulps hi.
Proof.
  intros Hx Hy Hlo Hhi Hle.
  destruct x as [sx| | |sx mx ex]; try (destruct Hx as [_ Hx]; discriminate);
  destruct y as [sy| | |sy my ey]; try (destruct Hy as [_ Hy]; discriminate).
  - cbn [SFadd]. destruct sx, sy; (split; [apply good_zero|cbn [ulps] in *; lia]).
  - cbn [SFadd]. split; [done|]. cbn [ulps] in *. lia.
  - cbn [SFadd]. split; [done|]. cbn [ulps] in *. lia.
  - cbn [SFadd].
    pose proof (canonical64_exp _ _ (proj1 (good_finite _ _ _) Hx)) as Hex.
    pose proof (canonical64_exp _ _ (proj1 (good_finite _ _ _) Hy)) as Hey.
    pose proof (shl_align_spec mx ex (Z.min ex ey)) as Hax.
    pose proof (shl_align_spec my ey (Z.min ex ey)) as Hay.
    destruct (shl_align mx ex (Z.min ex ey)) as [mx' ex'].
    destruct (shl_align my ey (Z.min ex ey)) as [my' ey'].
    cbn [fst]. destruct Hax as (_ & _ & Hx1 & _ & Hmx').
    destruct Hay as (_ & _ & Hy1 & _ & Hmy').
    rewrite Hx1 in Hmx' by lia. rewrite Hy1 in Hmy' by lia.
    remember (Z.min ex ey) as ez eqn:Hez.
    assert (ulps (S754_finite sx mx ex) + ulps (S754_finite sy my ey) =
            (cond_Zopp sx (Zpos mx') + cond_Zopp sy (Zpos my')) *
            2 ^ (ez + 1074)) as Hsum.
    { cbn [ulps]. rewrite Hmx', Hmy'.
      assert (2 ^ (ex + 1074) = 2 ^ (ex - ez) * 2 ^ (ez + 1074)) as ->.
      { rewrite <- Z.pow_add_r by lia. f_equal. lia. }
      assert (2 ^ (ey + 1074) = 2 ^ (ey - ez) * 2 ^ (ez + 1074)) as ->.
      { rewrite <- Z.pow_add_r by lia. f_equal. lia. }
      destruct sx, sy; cbn [cond_Zopp]; ring. }
    rewrite Hsum in Hle.
    destruct (cond_Zopp sx (Zpos mx') + cond_Zopp sy (Zpos my')) as [|M|M];
      cbn [binary_normalize].
    + split; [apply good_zero|]. cbn [ulps]. lia.
    + apply (binary_round_within false M ez lo hi);
        [lia|exact Hlo|exact Hhi|].
      cbn [cond_Zopp]. lia.
    + apply (binary_round_within true M ez lo hi);
        [lia|exact Hlo|exact Hhi|].
      cbn [cond_Zopp]. rewrite <- Z.mul_opp_l.
      change (- Zpos M) with (Zneg M). lia.
Qed.

Lemma div_five_core_lower mx ex T t :
  canonical64 (Zpos mx) ex -> 0 < T -> canonical64 T t ->
  5 * (T * 2 ^ (t + 1074)) <= Zpos mx * 2 ^ (ex + 1074) ->
  let '(q, e', l) := SFdiv_core_binary 53 1024 (Zpos mx) ex (Zpos five_m) (-50) in
  0 < q /\ T * 2 ^ (t + 1074) <= q * 2 ^ (e' + 1074).
Proof.
  intros Hcx HT Hct Hle.
  pose proof (canonical64_exp _ _ Hcx) as Hex.
  pose proof (canonical64_exp _ _ Hct) as Htlo.
  pose proof (canonical64_digits (Zpos mx) ex ltac:(lia) Hcx) as Hd1.
  pose proof (canonical64_digits T t HT Hct) as HdT.
  assert (1 <= Zdigits2 (Zpos mx)) as Hd1lo by (simpl; lia).
  pose proof (Zdigits2_bounds (Zpos mx) ltac:(lia)) as [Hmxlo _].
  pose proof (Zdigits2_bounds T HT) as [_ HThi].
  unfold SFdiv_core_binary. rewrite five_m_digits.
  remember (Zdigits2 (Zpos mx)) as d1 eqn:Hd1eq.
  replace (d1 + ex - (53 + -50)) with (d1 + ex - 3) by lia.
  replace (ex - -50) with (ex + 50) by lia.
  remember (Z.min (fexp64 (d1 + ex - 3)) (ex + 50)) as e' eqn:He'.
  pose proof (fexp64_ge (d1 + ex - 3)) as Hfz.
  assert (e' = fexp64 (d1 + ex - 3)) as He'eq.
  { rewrite fexp64_eq in *. lia. }
  assert (-1074 <= e') as He'lo by lia.
  assert (0 <= ex + 50 - e') as Hs by (rewrite fexp64_eq in *; lia).
  remember (ex + 50 - e') as sh eqn:Hsh.
  assert (match sh with
          | 0 => Zpos mx
          | Zpos _ => Z.shiftl (Zpos mx) sh
          | Zneg _ => 0
          end = Zpos mx * 2 ^ sh) as ->.
  { destruct sh as [|p|p]; [rewrite Z.pow_0_r; lia| |lia].
    apply Z.shiftl_mul_pow2. lia. }
  assert (0 < 2 ^ sh) as Hpsh by (apply Z.pow_pos_nonneg; lia).
  pose proof (div_eucl_spec (Zpos mx * 2 ^ sh) (Zpos five_m) ltac:(lia)) as Hdiv.
  assert (fst (Z.div_eucl (Zpos mx * 2 ^ sh) (Zpos five_m)) =
          Zpos mx * 2 ^ sh / Zpos five_m) as Hq by reflexivity.
  destruct (Z.div_eucl (Zpos mx * 2 ^ sh) (Zpos five_m)) as [q r].
  cbn [fst] in Hq. clear Hdiv.
  assert (0 < 2 ^ (e' + 1074)) by (apply Z.pow_pos_nonneg; lia).
  assert (0 < 2 ^ (t + 1074)) by (apply Z.pow_pos_nonneg; lia).
  assert (T * 2 ^ (t + 1074) <= q * 2 ^ (e' + 1074)) as Hgoal; [|split; [nia|exact Hgoal]].
  destruct (Z.le_gt_cases e' t) as [Het|Het].
  - assert (0 < 2 ^ (t - e')) by (apply Z.pow_pos_nonneg; lia).
    rewrite (scale_split T t e') by lia.
    assert (T * 2 ^ (t - e') <= q); [|nia].
    rewrite Hq. apply Z.div_le_lower_bound; [lia|].
    apply (scale_le_cancel _ _ (e' + 1074)); [lia|].
    rewrite five_m_eq.
    replace (5 * 2 ^ 50 * (T * 2 ^ (t - e')) * 2 ^ (e' + 1074))
      with (2 ^ 50 * (5 * (T * 2 ^ (t - e') * 2 ^ (e' + 1074)))) by ring.
    rewrite <- (scale_split T t e') by lia.
    replace (Zpos mx * 2 ^ sh * 2 ^ (e' + 1074))
      with (2 ^ 50 * (Zpos mx * 2 ^ (ex + 1074))); [nia|].
    rewrite <- !Z.mul_assoc, <- Z.pow_add_r by lia.
    rewrite (Z.mul_comm (2 ^ 50)), <- Z.mul_assoc, <- Z.pow_add_r by lia.
    do 2 f_equal. lia.
  - assert (e' = d1 + ex - 56) as He'val by (rewrite fexp64_eq in *; lia).
    assert (2 ^ 52 <= q) as Hqlo.
    { rewrite Hq. apply Z.div_le_lower_bound; [lia|].
      assert (2 ^ 105 <= Zpos mx * 2 ^ sh) as H105.
      { replace 105 with (d1 - 1 + sh) by lia.
        rewrite (Z.pow_add_r 2 (d1 - 1) sh) by lia.
        apply Z.mul_le_mono_nonneg_r; lia. }
      etransitivity; [|exact H105]. rewrite five_m_eq. clear. lia. }
    assert (2 ^ Zdigits2 T <= 2 ^ 53) as HT53 by (apply Z.pow_le_mono_r; lia).
    assert (2 ^ (t + 1074) * 2 <= 2 ^ (e' + 1074)) as Hstep.
    { rewrite Z.mul_comm, <- Z.pow_succ_r by lia. apply Z.pow_le_mono_r; lia. }
    change (2 ^ 53) with 9007199254740992 in HT53.
    change (2 ^ 52) with 4503599627370496 in Hqlo. nia.
Qed.

Lemma div_five_within x lo hi :
  good x -> good lo -> good hi ->
  5 * ulps lo <= ulps x <= 5 * ulps hi ->
  good (SFdiv 53 1024 x five) /\
  ulps lo <= ulps (SFdiv 53 1024 x five) <= ulps hi.
Proof.
  intros Hx Hlo Hhi Hle.
  destruct x as [sx| | |sx mx ex]; try (destruct Hx as [_ Hx]; discriminate).
  - unfold five; cbn [SFdiv]. split; [apply good_zero|]. cbn [ulps] in *. lia.
  - apply good_finite in Hx. pose proof (canonical64_exp _ _ Hx) as Hex.
    assert (0 < Zpos mx * 2 ^ (ex + 1074)) as Hpos.
    { destruct (ulps_pos mx ex); [done|lia]. }
    cbn [ulps] in Hle.
    assert (exists T t, 0 < T /\ canonical64 T t /\
              Zpos mx * 2 ^ (ex + 1074) <= 5 * (T * 2 ^ (t + 1074)) /\
              (if sx then ulps lo = - (T * 2 ^ (t + 1074))
               else ulps hi = T * 2 ^ (t + 1074)))
      as (T & t & HT & Hcan & Hbound & Hwhich).
    { destruct sx; cbn [cond_Zopp] in Hle.
      - destruct (good_neg_finite lo Hlo ltac:(lia)) as (T & t & -> & Hc).
        exists (Zpos T), t. cbn [ulps cond_Zopp] in *.
        split; [lia|]. split; [done|]. split; lia.
      - destruct (good_pos_finite hi Hhi ltac:(lia)) as (T & t & -> & Hc).
        exists (Zpos T), t. cbn [ulps cond_Zopp] in *.
        split; [lia|]. split; [done|]. split; lia. }
    pose proof (div_five_core mx ex T t Hx HT Hcan Hbound) as Hcore.
    pose proof (fun L l => div_five_core_lower mx ex L l Hx) as Hlower.
    unfold five. cbn [SFdiv].
    destruct (SFdiv_core_binary 53 1024 (Zpos mx) ex (Zpos five_m) (-50))
      as [[q e'] l].
    destruct Hcore as (Hq & Hnz & He' & Hpre & Hb).
    rewrite xorb_false_r.
    apply (rounds_between sx _ T t); try done.
    + apply round_aux_within; done.
    + intros L l0 HL Hc HwL.
      destruct (Hlower L l0 HL Hc) as [Hqpos HLq].
      { destruct sx; cbn [cond_Zopp] in Hle; lia. }
      apply round_aux_lower; done.
Qed.

End FloatProofs.

(** ** The decimal arithmetic of the score *)

Section DecimalProofs.
Import Decimal Diagdevice.
Local Open Scope Z_scope.

Lemma ndigits_fuel_pos fuel n : 1 <= ndigits_fuel fuel n.
Proof.
  revert n. induction fuel as [|f IH]; intros n; simpl; [lia|].
  destruct (n <? 10); [lia|]. specialize (IH (n / 10)). lia.
Qed.

Lemma ndigits_pos n : 1 <= ndigits n.
Proof. apply ndigits_fuel_pos. Qed.

Lemma ndigits_fuel_spec fuel : forall n,
  0 < n -> Z.log2 n <= Z.of_nat fuel ->
  10 ^ (ndigits_fuel fuel n - 1) <= n < 10 ^ ndigits_fuel fuel n.
Proof.
  induction fuel as [|f IH]; intros n Hn Hlog.
  - simpl. assert (n < 2).
    { destruct (Z.lt_ge_cases n 2) as [|H2]; [done|].
      pose proof (Z.log2_le_mono 2 n H2) as Hm. change (Z.log2 2) with 1 in Hm. lia. }
    lia.
  - cbn [ndigits_fuel]. destruct (Z.ltb_spec n 10) as [Hlt|Hge].
    + simpl. lia.
    + assert (0 < n / 10) by (apply Z.div_str_pos; lia).
      assert (Z.log2 (n / 10) <= Z.of_nat f) as Hlog'.
      { assert (n / 10 <= n / 2) by (apply Z.div_le_compat_l; lia).
        pose proof (Z.log2_le_mono _ _ H0) as Hm.
        change (n / 2) with (Z.div n (2 ^ 1)) in Hm.
        rewrite <- Z.shiftr_div_pow2 in Hm by lia.
        rewrite Z.log2_shiftr in Hm by lia. lia. }
      specialize (IH (n / 10) H Hlog').
      pose proof (ndigits_fuel_pos f (n / 10)) as Hd.
      set (d := ndigits_fuel f (n / 10)) in *.
      replace (1 + d - 1) with d by lia.
      replace (1 + d) with (Z.succ d) by lia.
      rewrite Z.pow_succ_r by lia.
      replace d with (Z.succ (d - 1)) at 1 by lia.
      rewrite Z.pow_succ_r by lia.
      pose proof (Z.mul_div_le n 10 ltac:(lia)).
      pose proof (Z.mul_succ_div_gt n 10 ltac:(lia)).
      lia.
Qed.

Lemma ndigits_spec n : 0 < n -> 10 ^ (ndigits n - 1) <= n < 10 ^ ndigits n.
Proof.
  intros Hn. apply ndigits_fuel_spec; [done|].
  pose proof (Z.log2_nonneg n). lia.
Qed.

Lemma ndigits_unique n d :
  10 ^ (d - 1) <= n < 10 ^ d -> 1 <= d -> ndigits n = d.
Proof.
  intros [Hlo Hhi] Hd.
  assert (0 < n). { pose proof (Z.pow_pos_nonneg 10 (d - 1)). lia. }
  pose proof (ndigits_spec n H) as [Hlo' Hhi']. pose proof (ndigits_pos n).
  destruct (Z.lt_trichotomy (ndigits n) d) as [Hlt|[Heq|Hgt]]; [exfalso|done|exfalso].
  - assert (10 ^ ndigits n <= 10 ^ (d - 1)) by (apply Z.pow_le_mono_r; lia). lia.
  - assert (10 ^ d <= 10 ^ (ndigits n - 1)) by (apply Z.pow_le_mono_r; lia). lia.
Qed.

Lemma ndigits_pow10 m : 0 <= m -> ndigits (10 ^ m) = m + 1.
Proof.
  intros Hm. apply ndigits_unique; [|lia].
  replace (m + 1 - 1) with m by lia. split; [lia|].
  apply Z.pow_lt_mono_r; lia.
Qed.

Lemma ndigits_scaled_le n e D :
  0 < n -> 0 <= e -> n * 10 ^ e < 10 ^ D -> ndigits n + e <= D.
Proof.
  intros Hn He Hlt. pose proof (ndigits_spec n Hn) as [Hlo _].
  pose proof (ndigits_pos n).
  assert (10 ^ (ndigits n - 1 + e) < 10 ^ D) as Hp.
  { rewrite Z.pow_add_r by lia.
    pose proof (Z.pow_pos_nonneg 10 e). nia. }
  assert (0 <= D) as HD.
  { destruct (Z.lt_ge_cases D 0) as [Hneg|]; [|done].
    rewrite (Z.pow_neg_r 10 D Hneg) in Hlt.
    pose proof (Z.pow_pos_nonneg 10 e). nia. }
  apply Z.pow_lt_mono_r_iff in Hp; lia.
Qed.

(** *** Rounding to the context *)

Lemma fix_zero ctx s e :
  fix_ ctx (mkdec s 0 e) = Ok (mkdec s 0 (Z.min (Z.max e (Etiny ctx)) (Emax ctx))).
Proof. reflexivity. Qed.

Lemma fix_ok d :
  0 < coeff d -> 0 <= exp d -> ndigits (coeff d) + exp d <= 999999 ->
  exists d', fix_ the_context d = Ok d' /\ 0 <= exp d' /\ sign d' = sign d.
Proof.
  intros Hc He Hadj. unfold fix_.
  destruct (Z.eqb_spec (coeff d) 0) as [|_]; [lia|].
  change (Etop the_context) with 999900. change (Etiny the_context) with (-1000098).
  change (Decimal.prec the_context) with 100.
  pose proof (ndigits_pos (coeff d)) as Hnd.
  remember (ndigits (coeff d) + exp d - 100) as exp_min eqn:Hmin.
  destruct (Z.ltb_spec 999900 exp_min) as [|_]; [lia|].
  destruct (Z.ltb_spec exp_min (-1000098)) as [|_]; [lia|].
  destruct (Z.ltb_spec (exp d) exp_min) as [Hround|_].
  - destruct (Z.ltb_spec (ndigits (coeff d) + exp d - exp_min) 0) as [|_]; [lia|].
    match goal with |- context [pick_rounding_function ?r ?c ?k] =>
      generalize (pick_rounding_function r c k) end.
    intros changed.
    destruct (0 <? changed).
    + match goal with |- context [100 <? ?x] => destruct (100 <? x) end.
      * destruct (Z.ltb_spec 999900 (exp_min + 1)) as [|_]; [lia|].
        eexists. split; [reflexivity|]. simpl. split; [lia|reflexivity].
      * destruct (Z.ltb_spec 999900 exp_min) as [|_]; [lia|].
        eexists. split; [reflexivity|]. simpl. split; [lia|reflexivity].
    + destruct (Z.ltb_spec 999900 exp_min) as [|_]; [lia|].
      eexists. split; [reflexivity|]. simpl. split; [lia|reflexivity].
  - exists d. auto.
Qed.

Lemma fix_overflow d :
  0 < coeff d -> 1000000 < ndigits (coeff d) + exp d ->
  fix_ the_context d = Raise Overflow.
Proof.
  intros Hc Hadj. unfold fix_.
  destruct (Z.eqb_spec (coeff d) 0) as [|_]; [lia|].
  change (Etop the_context) with 999900.
  change (Decimal.prec the_context) with 100.
  destruct (Z.ltb_spec 999900 (ndigits (coeff d) + exp d - 100)) as [_|]; [done|lia].
Qed.

(** *** The square root of a perfect square *)

Lemma ndigits_square_le k : 0 < k -> ndigits (k * k) <= 2 * ndigits k.
Proof.
  intros Hk. pose proof (ndigits_spec k Hk) as [_ Hhi].
  pose proof (ndigits_pos k).
  assert (k * k * 10 ^ 0 < 10 ^ (2 * ndigits k)) as Hlt.
  { replace (2 * ndigits k) with (ndigits k + ndigits k) by lia.
    rewrite Z.pow_add_r by lia. nia. }
  apply ndigits_scaled_le in Hlt; lia.
Qed.

Lemma sqrt_of_square k :
  0 < k ->
  exists n e,
    Decimal.sqrt the_context (of_int (k * k)) =
      fix_ the_context (mkdec false n e) /\
    0 < n /\ 0 <= e /\ n * 10 ^ e <= 2 * k.
Proof.
  intros Hk. unfold Decimal.sqrt, of_int. cbn [coeff exp sign].
  rewrite Z.abs_eq by nia.
  destruct (Z.eqb_spec (k * k) 0) as [|_]; [nia|].
  destruct (Z.ltb_spec (k * k) 0) as [|_]; [nia|].
  change (Z.odd 0) with false. change (Z.shiftr 0 1) with 0.
  change (Decimal.prec the_context + 1) with 101.
  cbv beta iota zeta.
  change (mkctx (Decimal.prec the_context) ROUND_HALF_EVEN (Emin the_context)
            (Emax the_context)) with the_context.
  remember (Z.shiftr (ndigits (k * k) + 1) 1) as l eqn:Hl.
  destruct (Z.leb_spec 0 (101 - l)) as [Hs|Hs].
  - (* the coefficient is scaled up: the root is exact *)
    assert (0 < 10 ^ (101 - l)) as HP by (apply Z.pow_pos_nonneg; lia).
    assert (k * k * 100 ^ (101 - l) =
            (k * 10 ^ (101 - l)) * (k * 10 ^ (101 - l))) as ->.
    { change 100 with (10 * 10). rewrite Z.pow_mul_l. ring. }
    rewrite Z.sqrt_square by nia. rewrite Z.eqb_refl. cbn [andb].
    rewrite Z.div_mul by lia.
    exists k, 0. replace (0 - (101 - l) + (101 - l)) with 0 by lia.
    rewrite Z.pow_0_r. repeat split; try lia.
  - (* the coefficient is cut down by 100^s *)
    remember (- (101 - l)) as s eqn:Hs'.
    assert (0 < s) as Hspos by lia.
    assert (0 < 10 ^ s) as HP by (apply Z.pow_pos_nonneg; lia).
    assert (100 ^ s = 10 ^ s * 10 ^ s) as H100.
    { change 100 with (10 * 10). apply Z.pow_mul_l. }
    assert (10 ^ s <= k) as HPk.
    { pose proof (ndigits_square_le k Hk) as Hsq.
      pose proof (ndigits_spec k Hk) as [Hlo _]. pose proof (ndigits_pos k).
      assert (l < ndigits k + 1).
      { rewrite Hl, Z.shiftr_div_pow2 by lia. change (2 ^ 1) with 2.
        apply Z.div_lt_upper_bound; lia. }
      transitivity (10 ^ (ndigits k - 1)); [|done].
      apply Z.pow_le_mono_r; lia. }
    rewrite H100. remember (10 ^ s) as P eqn:HeqP.
    pose proof (Z.div_mod (k * k) (P * P) ltac:(nia)) as Hdm.
    pose proof (Z.mod_pos_bound (k * k) (P * P) ltac:(nia)) as Hmod.
    remember (k * k / (P * P)) as c eqn:Hc.
    remember ((k * k) mod (P * P)) as r eqn:Hr.
    assert (0 <= c) as Hc0 by nia.
    pose proof (Z.sqrt_spec c Hc0) as Hsqrt. cbv zeta in Hsqrt.
    pose proof (Z.sqrt_nonneg c) as Hn0.
    remember (Z.sqrt c) as n eqn:Hn.
    assert (n * P <= k) as HnP by nia.
    destruct (Z.eqb_spec r 0) as [Hr0|Hr0]; cbn [andb].
    + destruct (Z.eqb_spec (n * n) c) as [Hex|Hex].
      * assert (n * P = k) as HnPk by nia.
        exists k, 0. rewrite HnPk.
        replace (0 - (101 - l) + (101 - l)) with 0 by lia.
        rewrite Z.pow_0_r. repeat split; try lia.
      * exists (if n mod 5 =? 0 then n + 1 else n), s.
        replace (0 - (101 - l)) with s by lia. rewrite <- HeqP.
        split; [reflexivity|].
        destruct (Z.eqb_spec (n mod 5) 0) as [H5|H5].
        -- repeat split; try lia; nia.
        -- assert (n <> 0) by (intros ->; apply H5; reflexivity).
           repeat split; try lia; nia.
    + exists (if n mod 5 =? 0 then n + 1 else n), s.
      replace (0 - (101 - l)) with s by lia. rewrite <- HeqP.
      split; [reflexivity|].
      destruct (Z.eqb_spec (n mod 5) 0) as [H5|H5].
      * repeat split; try lia; nia.
      * assert (n <> 0) by (intros ->; apply H5; reflexivity).
        repeat split; try lia; nia.
Qed.

(** *** The score of an integral root *)

Section ScoreProofs.
Variable libm_cos : float -> float.

Lemma sub_self root :
  0 <= exp root -> sign root = false ->
  exists e, Decimal.sub the_context root root = Ok (mkdec false 0 e).
Proof.
  intros He Hs. unfold Decimal.sub, Decimal.add, copy_negate.
  cbn [coeff exp sign]. rewrite Z.min_id.
  destruct (Z.eqb_spec (coeff root) 0) as [Hz|Hnz]; cbn [andb].
  - rewrite Hs. cbn [andb negb]. rewrite fix_zero. eauto.
  - unfold normalize. cbn [coeff exp sign].
    rewrite Z.ltb_irrefl. cbn [coeff exp sign].
    pose proof (ndigits_pos (coeff root)) as Hnd.
    match goal with |- context [if ?a <? ?b then mkdec _ 1 _ else _] =>
      destruct (Z.ltb_spec a b) as [Hlt|_]; [lia|] end.
    cbn [coeff exp sign]. rewrite Z.sub_diag, Z.pow_0_r, Z.mul_1_r.
    rewrite Hs. cbn [negb Bool.eqb]. rewrite Z.eqb_refl.
    rewrite fix_zero. eauto.
Qed.

Lemma resonance_zero e rs :
  libm_cos zero = one ->
  forall gamma, sign gamma = false ->
  resonance libm_cos (mkdec false 0 e) gamma rs = Ok (rs ++ [one]).
Proof.
  intros Hcos gamma Hsg. unfold resonance, Decimal.mul. cbn [coeff exp sign].
  rewrite Z.eqb_refl, orb_true_r, fix_zero. rewrite Hsg.
  cbn [mbind result_bind xorb]. unfold to_float. cbn [coeff sign].
  change (0 =? 0) with true. cbv iota. fold zero.
  unfold math_cos. cbn [is_inf zero]. change (is_inf zero) with false.
  cbv iota. cbn [mbind result_bind]. rewrite Hcos. reflexivity.
Qed.

Lemma score_of_integral_root n root :
  libm_cos zero = one ->
  Decimal.sqrt the_context (of_int n) = Ok root ->
  0 <= exp root -> sign root = false ->
  score_arithmetic libm_cos n = Ok one.
Proof.
  intros Hcos Hroot He Hs. unfold score_arithmetic. rewrite Hroot. cbn [mbind result_bind].
  unfold to_integral_value. destruct (Z.leb_spec 0 (exp root)) as [_|]; [|lia].
  destruct (sub_self root He Hs) as [e1 ->]. cbn [mbind result_bind].
  unfold Decimal.abs, pos. cbn [sign coeff]. rewrite Z.eqb_refl.
  unfold copy_abs. cbn [sign coeff exp]. rewrite fix_zero. cbn [mbind result_bind].
  set (e2 := Z.min _ _). unfold GAMMAS. cbn [for_each].
  repeat (rewrite resonance_zero by (exact Hcos || reflexivity);
          cbn [mbind result_bind]).
  vm_compute. reflexivity.
Qed.

End ScoreProofs.

Lemma sqrt_power_of_ten_overflow m :
  1000000 <= m ->
  Decimal.sqrt the_context (of_int (10 ^ m * 10 ^ m)) = Raise Overflow.
Proof.
  intros Hm.
  assert (10 ^ m * 10 ^ m = 10 ^ (2 * m)) as ->.
  { rewrite <- Z.pow_add_r by lia. f_equal. lia. }
  assert (0 < 10 ^ (2 * m)) as Hpos by (apply Z.pow_pos_nonneg; lia).
  unfold Decimal.sqrt, of_int. cbn [coeff exp sign].
  rewrite Z.abs_eq by lia.
  destruct (Z.eqb_spec (10 ^ (2 * m)) 0) as [|_]; [lia|].
  destruct (Z.ltb_spec (10 ^ (2 * m)) 0) as [|_]; [lia|].
  change (Z.odd 0) with false. change (Z.shiftr 0 1) with 0.
  change (Decimal.prec the_context + 1) with 101.
  cbv beta iota zeta.
  change (mkctx (Decimal.prec the_context) ROUND_HALF_EVEN (Emin the_context)
            (Emax the_context)) with the_context.
  rewrite ndigits_pow10 by lia.
  assert (Z.shiftr (2 * m + 1 + 1) 1 = m + 1) as ->.
  { rewrite Z.shiftr_div_pow2 by lia. change (2 ^ 1) with 2.
    replace (2 * m + 1 + 1) with ((m + 1) * 2) by lia. apply Z.div_mul. lia. }
  destruct (Z.leb_spec 0 (101 - (m + 1))) as [|_]; [lia|].
  replace (- (101 - (m + 1))) with (m - 100) by lia.
  assert (100 ^ (m - 100) = 10 ^ (m - 100) * 10 ^ (m - 100)) as H100.
  { change 100 with (10 * 10). apply Z.pow_mul_l. }
  assert (0 < 10 ^ (m - 100)) as HP by (apply Z.pow_pos_nonneg; lia).
  assert (10 ^ (2 * m) =
          10 ^ 100 * 10 ^ 100 * (10 ^ (m - 100) * 10 ^ (m - 100))) as Hsplit.
  { rewrite <- !Z.pow_add_r by lia. f_equal. lia. }
  rewrite H100, Hsplit.
  remember (10 ^ (m - 100)) as P eqn:HeqP.
  rewrite Z.div_mul by nia. rewrite Z.mod_mul by nia.
  rewrite Z.sqrt_square by (apply Z.pow_nonneg; lia).
  rewrite !Z.eqb_refl. cbn [andb].
  apply fix_overflow; cbn [coeff exp].
  - apply Z.mul_pos_pos; [apply Z.pow_pos_nonneg|]; lia.
  - assert (10 ^ 100 * P = 10 ^ m) as ->.
    { rewrite HeqP, <- Z.pow_add_r by lia. f_equal. lia. }
    rewrite ndigits_pow10 by lia. lia.
Qed.

Lemma perfect_square_score_below (libm_cos : float -> float) (D k : Z) :
  libm_cos zero = one -> 0 <= D <= 999998 -> 0 <= k < 10 ^ D ->
  compute_spectral_coherence libm_cos (k * k) = one.
Proof.
  intros Hcos HD [Hk0 Hk].
  unfold compute_spectral_coherence.
  destruct (Z.eq_dec k 0) as [->|Hnz].
  - rewrite (score_of_integral_root libm_cos (0 * 0) (mkdec false 0 0));
      auto; reflexivity.
  - destruct (sqrt_of_square k ltac:(lia)) as (n & e & Hsqrt & Hn & He & Hle).
    destruct (fix_ok (mkdec false n e)) as (root & Hfix & Hexp & Hsign);
      cbn [coeff exp sign]; auto.
    { assert (ndigits n + e <= D + 1); [|lia].
      apply ndigits_scaled_le; auto.
      replace (D + 1) with (Z.succ D) by lia. rewrite Z.pow_succ_r by lia. lia. }
    rewrite (score_of_integral_root libm_cos (k * k) root); auto.
    congruence.
Qed.

(** C1, amended: for every perfect square [n = k * k] with
    [0 <= k < 10^999998] (0 and 1 included) the score is exactly 1.0: the
    decimal root is an integer, the phase offset is 0 and every cosine term
    is [cos 0.0 = 1.0]. *)
Theorem perfect_square_score (libm_cos : float -> float) (k : Z) :
  libm_cos zero = one -> 0 <= k < 10 ^ 999998 ->
  compute_spectral_coherence libm_cos (k * k) = one.
Proof.
  intros Hcos Hk.
  apply (perfect_square_score_below libm_cos 999998); [exact Hcos| |exact Hk].
  clear. lia.
Qed.

(** C1 fails for large squares: the root of [(10^1000000)^2] exceeds the
    exponent range of the decimal context, [sqrt] raises [Overflow] and the
    score is 0.0. *)
Lemma perfect_square_overflow :
  0 <= 10 ^ 1000000 /\
  (forall libm_cos : float -> float,
     compute_spectral_coherence libm_cos (10 ^ 1000000 * 10 ^ 1000000) = zero) /\
  zero <> one.
Proof.
  split; [apply Z.pow_nonneg; discriminate|]. split; [|discriminate].
  intros libm_cos. unfold compute_spectral_coherence, score_arithmetic.
  rewrite (sqrt_power_of_ten_overflow 1000000); [reflexivity|].
  intros H; discriminate H.
Qed.

(** C8: whenever the arithmetic of the [try] block raises, the function
    returns 0.0; a negative [n] raises [InvalidOperation] in [sqrt]. *)
Theorem exception_gives_zero_score (libm_cos : float -> float) (n : Z) :
  (forall e, score_arithmetic libm_cos n = Raise e ->
             compute_spectral_coherence libm_cos n = zero) /\
  (n < 0 -> score_arithmetic libm_cos n = Raise InvalidOperation /\
            compute_spectral_coherence libm_cos n = zero).
Proof.
  split.
  - intros e H. unfold compute_spectral_coherence. rewrite H. reflexivity.
  - intros Hn.
    assert (score_arithmetic libm_cos n = Raise InvalidOperation) as H.
    { unfold score_arithmetic, Decimal.sqrt, of_int. cbn [coeff exp sign].
      destruct (Z.eqb_spec (Z.abs n) 0) as [|_]; [lia|].
      destruct (Z.ltb_spec n 0) as [_|]; [reflexivity|lia]. }
    split; [exact H|]. unfold compute_spectral_coherence. rewrite H. reflexivity.
Qed.

End DecimalProofs.

(** Witnesses of the two statements above, at [k = 10^35 + 8] and [n = -1],
    with a constant stand-in for the cosine. *)
Lemma perfect_square_score_witness :
  Diagdevice.compute_spectral_coherence (fun _ => one)
    ((10 ^ 35 + 8) * (10 ^ 35 + 8))%Z = one.
Proof.
  apply (perfect_square_score (fun _ => one) (10 ^ 35 + 8)%Z); [reflexivity|].
  split; [vm_compute; discriminate|].
  apply Z.lt_le_trans with (10 ^ 36)%Z; [vm_compute; reflexivity|].
  apply Z.pow_le_mono_r; [reflexivity|]. intros H; discriminate H.
Defined.

Lemma exception_gives_zero_score_witness :
  Diagdevice.score_arithmetic (fun _ => one) (-1) = Raise InvalidOperation /\
  Diagdevice.compute_spectral_coherence (fun _ => one) (-1) = zero.
Proof.
  apply (proj2 (exception_gives_zero_score (fun _ => one) (-1)%Z)).
  reflexivity.
Defined.

(** ** The normalisation of an all-zero vector *)

Section NormalisationProofs.

Lemma sum_zeros n : Np.sum (replicate n zero) = zero.
Proof. induction n as [|n IH]; [reflexivity|exact IH]. Qed.

Lemma sum_nans n : Np.sum (replicate (S n) nan) = nan.
Proof.
  unfold Np.sum. cbn [replicate foldl]. change (add zero nan) with nan.
  induction n as [|n IH]; [reflexivity|exact IH].
Qed.

Lemma linalg_norm_zeros n : linalg_norm (zeros n) = zero.
Proof.
  unfold linalg_norm, square, zeros. rewrite fmap_replicate.
  change (mul zero zero) with zero. rewrite sum_zeros. reflexivity.
Qed.

Lemma divide_nans n s : divide (replicate n nan) s = replicate n nan.
Proof. unfold divide. rewrite fmap_replicate. reflexivity. Qed.

Lemma normalize_zeros n :
  MillionaireScan.normalize (zeros n) = replicate n nan /\
  JinxSquare.normalize (zeros n) = replicate n nan.
Proof.
  assert (divide (zeros n) zero = replicate n nan) as Hdiv.
  { unfold divide, zeros. rewrite fmap_replicate. reflexivity. }
  unfold MillionaireScan.normalize, JinxSquare.normalize.
  rewrite linalg_norm_zeros. cbv zeta. rewrite Hdiv, !divide_nans.
  split; reflexivity.
Qed.

(** C7, amended: on an all-zero vector the normalisation raises nothing.
    The norm is 0.0, both divisions yield NaN, and the all-NaN state vector
    is handed to the circuit library; the pipeline raises only what that
    library raises. *)
Theorem zero_vector_gives_nan_state
    (run_qft_circuit : nat -> list float -> result (list complex))
    (hypot : float -> float -> float) (n : nat) :
  linalg_norm (zeros n) = zero /\
  MillionaireScan.normalize (zeros n) = replicate n nan /\
  JinxSquare.normalize (zeros n) = replicate n nan /\
  MillionaireScan.spectrum run_qft_circuit hypot (zeros n) =
    (sv ← run_qft_circuit MillionaireScan.n_qubits (replicate n nan);
     Ok (square (absolute_complex hypot sv))) /\
  JinxSquare.spectrum run_qft_circuit hypot (zeros n) =
    (sv ← run_qft_circuit JinxSquare.n_qubits (replicate n nan);
     Ok (square (absolute_complex hypot sv))).
Proof.
  destruct (normalize_zeros n) as [Hm Hj].
  split; [apply linalg_norm_zeros|]. split; [exact Hm|]. split; [exact Hj|].
  unfold MillionaireScan.spectrum, JinxSquare.spectrum.
  rewrite Hm, Hj. split; reflexivity.
Qed.

(** C7 fails: the normalisation of [[0.0; 0.0]] returns [[nan; nan]]
    without raising, and a circuit library that answers [QiskitError] on
    such a state makes the pipeline raise that error, not a division by
    zero. *)
Lemma zero_vector_no_division_error :
  MillionaireScan.normalize [zero; zero] = [nan; nan] /\
  JinxSquare.normalize [zero; zero] = [nan; nan] /\
  (forall hypot,
     MillionaireScan.spectrum (fun _ _ => Raise QiskitError) hypot [zero; zero]
       = Raise QiskitError) /\
  @Raise (list float) QiskitError <> Raise ZeroDivisionError.
Proof.
  split; [reflexivity|]. split; [reflexivity|]. split; [reflexivity|].
  discriminate.
Qed.

(** C9: the two scripts run the same pipeline: on every indicator vector,
    with the same circuit library and [hypot], the normalised state and the
    power spectrum of [jinx_square.py] are those of [millionaire_scan.py],
    and both use 20 qubits. *)
Theorem pipelines_agree
    (run_qft_circuit : nat -> list float -> result (list complex))
    (hypot : float -> float -> float) (data : list float) :
  JinxSquare.n_qubits = MillionaireScan.n_qubits /\
  JinxSquare.normalize data = MillionaireScan.normalize data /\
  JinxSquare.spectrum run_qft_circuit hypot data =
    MillionaireScan.spectrum run_qft_circuit hypot data.
Proof.
  split; [reflexivity|]. split.
  - unfold JinxSquare.normalize, MillionaireScan.normalize. reflexivity.
  - unfold JinxSquare.spectrum, MillionaireScan.spectrum,
      JinxSquare.normalize, MillionaireScan.normalize. reflexivity.
Qed.

(** C10: [get_primes n] returns for every [n] (no index is out of bounds),
    and for [n <= 2] it returns the all-zero vector of length [n], whose
    norm is 0.0 and whose normalisation is therefore all NaN. *)
Theorem get_primes_total_zero_when_small :
  (forall n, exists v, MillionaireScan.get_primes n = Ok v /\ length v = n) /\
  (forall n, n <= 2 ->
     MillionaireScan.get_primes n = Ok (zeros n) /\
     linalg_norm (zeros n) = zero /\
     MillionaireScan.normalize (zeros n) = replicate n nan).
Proof.
  split.
  - intros n. destruct (get_primes_flags n) as (p & E & Hlen & _).
    exists (astype_float64 p). split; [exact E|].
    unfold astype_float64. by rewrite length_fmap.
  - intros n Hn. split; [|split].
    + destruct n as [|[|[|n]]]; [reflexivity..|lia].
    + apply linalg_norm_zeros.
    + apply normalize_zeros.
Qed.

Lemma get_primes_total_zero_when_small_witness :
  MillionaireScan.get_primes 2 = Ok (zeros 2) /\
  linalg_norm (zeros 2) = zero /\
  MillionaireScan.normalize (zeros 2) = replicate 2 nan.
Proof. apply (proj2 get_primes_total_zero_when_small 2). lia. Defined.

End NormalisationProofs.

(** ** The range of the score and the two samples of the analysis *)

Section ScoreProperties.
Import Diagdevice.
Local Open Scope Z_scope.

Section ScoreRange.
Variable libm_cos : float -> float.

Lemma leb_finite_between lo hi x :
  is_finite lo = true -> is_finite hi = true ->
  leb lo x = true -> leb x hi = true -> is_finite x = true.
Proof.
  unfold leb, SFleb. intros Hlo Hhi H1 H2.
  destruct x as [| [] | |]; try reflexivity.
  - destruct lo as [| | |[]]; try discriminate.
  - destruct hi as [| | |[]]; try discriminate.
  - destruct lo; discriminate.
Qed.

Lemma within_leb lo hi c :
  good lo -> good hi -> within lo hi c ->
  is_finite c = true /\ leb lo c = true /\ leb c hi = true.
Proof.
  intros Hlo Hhi [Hg [H1 H2]]. split; [apply Hg|]. split.
  - by apply SFleb_ulps.
  - by apply SFleb_ulps.
Qed.

Lemma leb_within lo hi c :
  good lo -> good hi -> valid c = true ->
  leb lo c = true -> leb c hi = true -> within lo hi c.
Proof.
  intros Hlo Hhi Hv H1 H2.
  assert (good c) as Hg.
  { split; [exact Hv|].
    apply (leb_finite_between lo hi); [apply Hlo|apply Hhi|done|done]. }
  split; [exact Hg|]. split; by apply SFleb_ulps.
Qed.

(** Partial sums of terms between [L] and [H] stay between the representable
    multiples [lo k] of [L] and [hi k] of [H]. *)
Lemma sum_within (L H : Z) (lo hi : Z -> float) (n : Z) cs :
  (forall k, 0 <= k <= n ->
     good (lo k) /\ good (hi k) /\ ulps (lo k) = k * L /\ ulps (hi k) = k * H) ->
  Forall (fun c => good c /\ L <= ulps c <= H) cs ->
  forall acc k,
    0 <= k -> k + Z.of_nat (length cs) <= n ->
    within (lo k) (hi k) acc ->
    within (lo (k + Z.of_nat (length cs))) (hi (k + Z.of_nat (length cs)))
           (foldl add acc cs).
Proof.
  intros Hbounds Hcs. induction Hcs as [|c cs [Hc Hcb] Hcs IH];
    intros acc k Hk Hlen Hacc.
  - cbn [foldl length]. by rewrite Z.add_0_r.
  - cbn [foldl]. rewrite length_cons, Nat2Z.inj_succ in *.
    replace (k + Z.succ (Z.of_nat (length cs)))
      with ((k + 1) + Z.of_nat (length cs)) by lia.
    apply IH; [lia|lia|].
    destruct Hacc as (Ha & Hab).
    destruct (Hbounds k ltac:(lia)) as (_ & _ & Hlk & Hhk).
    destruct (Hbounds (k + 1) ltac:(lia)) as (Hgl & Hgh & Hl1 & Hh1).
    apply add_within; try done. lia.
Qed.

Lemma mean_within (L H : Z) (lo hi : Z -> float) cs :
  (forall k, 0 <= k <= 5 ->
     good (lo k) /\ good (hi k) /\ ulps (lo k) = k * L /\ ulps (hi k) = k * H) ->
  Forall (fun c => good c /\ L <= ulps c <= H) cs ->
  length cs = 5%nat ->
  within (lo 1) (hi 1) (div (py_sum cs) five).
Proof.
  intros Hbounds Hcs Hlen. unfold py_sum.
  destruct (Hbounds 0 ltac:(lia)) as (_ & _ & Hl0 & Hh0).
  destruct (Hbounds 1 ltac:(lia)) as (Hgl1 & Hgh1 & Hl1 & Hh1).
  destruct (Hbounds 5 ltac:(lia)) as (_ & _ & Hl5 & Hh5).
  destruct (sum_within L H lo hi 5 cs Hbounds Hcs zero 0) as [Hs Hsb];
    [lia|lia| |].
  { split; [apply good_zero|]. cbn [ulps zero]. lia. }
  rewrite Hlen in Hsb. change (0 + Z.of_nat 5) with 5 in Hsb.
  apply div_five_within; try done. lia.
Qed.

Lemma unit_multiples k :
  0 <= k <= 5 ->
  good (opp (scaled k 0)) /\ good (scaled k 0) /\
  ulps (opp (scaled k 0)) = k * ulps (opp one) /\
  ulps (scaled k 0) = k * ulps one.
Proof.
  intros Hk.
  assert (k = 0 \/ k = 1 \/ k = 2 \/ k = 3 \/ k = 4 \/ k = 5) as Hcases by lia.
  destruct Hcases as [->|[->|[->|[->|[->| ->]]]]];
    (split; [split; reflexivity|]; split; [split; reflexivity|];
     split; vm_compute; reflexivity).
Qed.

Lemma below_one_multiples k :
  0 <= k <= 5 ->
  good (opp (scaled k 0)) /\ good (scaled (k * 16383) (-14)) /\
  ulps (opp (scaled k 0)) = k * ulps (opp one) /\
  ulps (scaled (k * 16383) (-14)) = k * ulps below_one.
Proof.
  intros Hk.
  assert (k = 0 \/ k = 1 \/ k = 2 \/ k = 3 \/ k = 4 \/ k = 5) as Hcases by lia.
  destruct Hcases as [->|[->|[->|[->|[->| ->]]]]];
    (split; [split; reflexivity|]; split; [split; reflexivity|];
     split; vm_compute; reflexivity).
Qed.

Lemma negative_multiples k :
  0 <= k <= 5 ->
  good (opp (scaled k 0)) /\ good (opp (scaled k (-5))) /\
  ulps (opp (scaled k 0)) = k * ulps (opp one) /\
  ulps (opp (scaled k (-5))) = k * ulps (opp (two_pow (-5))).
Proof.
  intros Hk.
  assert (k = 0 \/ k = 1 \/ k = 2 \/ k = 3 \/ k = 4 \/ k = 5) as Hcases by lia.
  destruct Hcases as [->|[->|[->|[->|[->| ->]]]]];
    (split; [split; reflexivity|]; split; [split; reflexivity|];
     split; vm_compute; reflexivity).
Qed.

(** The loop over [GAMMAS] *)

Lemma binary_normalize_not_nan z e s :
  binary_normalize 53 1024 z e s <> S754_nan.
Proof.
  destruct z as [|m|m]; cbn [binary_normalize]; [done| |];
    unfold binary_round;
    destruct (shl_align m e _) as [mz ez]; apply round_aux_not_nan; lia.
Qed.

Lemma to_float_not_nan d : Decimal.to_float d <> S754_nan.
Proof.
  unfold Decimal.to_float. destruct (Decimal.coeff d =? 0); [done|].
  destruct (0 <=? Decimal.exp d); [apply binary_normalize_not_nan|].
  cbn [SFdiv]. unfold SFdiv_core_binary.
  match goal with |- context [Z.div_eucl ?a ?b] =>
    pose proof (div_eucl_spec a b ltac:(lia)) as Hd;
    assert (0 <= a) as Ha;
    [|destruct (Z.div_eucl a b) as [q r]] end.
  { match goal with |- 0 <= match ?s with _ => _ end =>
      destruct s; try lia; apply Z.shiftl_nonneg; lia end. }
  apply round_aux_not_nan. destruct Hd as [Hd Hr].
  match type of Hd with _ = ?b * q + r =>
    assert (0 < b) by lia; nia end.
Qed.

Lemma resonance_inv phase g rs0 rs1 :
  resonance libm_cos phase g rs0 = Ok rs1 ->
  exists x, is_cos_argument phase g x /\ is_finite x = true /\
            rs1 = rs0 ++ [libm_cos x].
Proof.
  unfold resonance. intros Hstep.
  destruct (Decimal.mul the_context g phase) as [product|] eqn:Hmul;
    [|discriminate Hstep].
  change (match math_cos libm_cos (Decimal.to_float product) with
          | Ok coherence => Ok (rs0 ++ [coherence])
          | Raise e => Raise e
          end = Ok rs1) in Hstep.
  unfold math_cos in Hstep.
  destruct (is_inf (Decimal.to_float product)) eqn:Hinf;
    [discriminate Hstep|].
  exists (Decimal.to_float product). split; [by exists product|]. split.
  - pose proof (to_float_not_nan product) as Hnan.
    destruct (Decimal.to_float product); done.
  - congruence.
Qed.

Lemma resonance_loop phase : forall gs rs0 rs,
  for_each (resonance libm_cos phase) gs rs0 = Ok rs ->
  exists xs, Forall2 (is_cos_argument phase) gs xs /\
             Forall (fun x => is_finite x = true) xs /\
             rs = rs0 ++ (libm_cos <$> xs).
Proof.
  induction gs as [|g gs IH]; intros rs0 rs Hrun.
  - exists []. cbn [for_each] in Hrun.
    assert (rs0 = rs) as <- by congruence.
    split; [constructor|]. split; [constructor|]. by rewrite app_nil_r.
  - cbn [for_each] in Hrun.
    destruct (resonance libm_cos phase g rs0) as [rs1|] eqn:Hstep;
      [|discriminate Hrun].
    change (for_each (resonance libm_cos phase) gs rs1 = Ok rs) in Hrun.
    destruct (resonance_inv _ _ _ _ Hstep) as (x & Hx & Hfx & ->).
    destruct (IH _ _ Hrun) as (xs & Hargs & Hfin & ->).
    exists (x :: xs). split; [by constructor|]. split; [by constructor|].
    rewrite <- app_assoc. reflexivity.
Qed.

Lemma score_arithmetic_inv n score :
  score_arithmetic libm_cos n = Ok score ->
  exists phase_offset xs,
    Forall2 (is_cos_argument phase_offset) GAMMAS xs /\
    Forall (fun x => is_finite x = true) xs /\
    score = div (py_sum (libm_cos <$> xs)) five.
Proof.
  unfold score_arithmetic. intros Hrun.
  destruct (Decimal.sqrt the_context (Decimal.of_int n)) as [root|];
    [|discriminate Hrun].
  cbn [mbind result_bind] in Hrun.
  destruct (Decimal.sub the_context root _) as [difference|];
    [|discriminate Hrun].
  cbn [mbind result_bind] in Hrun.
  destruct (Decimal.abs the_context difference) as [phase_offset|];
    [|discriminate Hrun].
  cbn [mbind result_bind] in Hrun.
  destruct (for_each (resonance libm_cos phase_offset) GAMMAS [])
    as [resonances|] eqn:Hloop; [|discriminate Hrun].
  cbn [mbind result_bind] in Hrun.
  destruct (resonance_loop phase_offset _ _ _ Hloop)
    as (xs & Hargs & Hfin & ->).
  exists phase_offset, xs. split; [exact Hargs|]. split; [exact Hfin|].
  rewrite app_nil_l in Hrun.
  assert (length (libm_cos <$> xs) = 5%nat) as Hlen.
  { rewrite length_fmap, <- (Forall2_length Hargs). reflexivity. }
  rewrite Hlen in Hrun. change (float_of_int (Z.of_nat 5)) with five in Hrun.
  congruence.
Qed.

Lemma resonance_step phase g product rs :
  Decimal.mul the_context g phase = Ok product ->
  is_inf (Decimal.to_float product) = false ->
  resonance libm_cos phase g rs = Ok (rs ++ [libm_cos (Decimal.to_float product)]).
Proof.
  intros Hmul Hx. unfold resonance. rewrite Hmul. cbn [mbind result_bind].
  unfold math_cos. rewrite Hx. reflexivity.
Qed.

Lemma resonance_loop_run phase : forall gs xs rs0,
  Forall2 (is_cos_argument phase) gs xs ->
  Forall (fun x => is_inf x = false) xs ->
  for_each (resonance libm_cos phase) gs rs0 = Ok (rs0 ++ (libm_cos <$> xs)).
Proof.
  induction gs as [|g gs IH]; intros xs rs0 Hargs Hfin.
  - inversion Hargs; subst. cbn [for_each fmap list_fmap]. by rewrite app_nil_r.
  - inversion Hargs as [|? x ? xs' (product & Hmul & ->) Hargs']; subst.
    inversion Hfin as [|? ? Hx Hfin']; subst.
    cbn [for_each]. rewrite (resonance_step phase g product rs0 Hmul Hx).
    cbn [mbind result_bind]. rewrite (IH xs' _ Hargs' Hfin').
    rewrite <- app_assoc. reflexivity.
Qed.

Lemma score_arithmetic_run n root difference phase xs :
  Decimal.sqrt the_context (Decimal.of_int n) = Ok root ->
  Decimal.sub the_context root
    (Decimal.to_integral_value root Decimal.ROUND_HALF_UP) = Ok difference ->
  Decimal.abs the_context difference = Ok phase ->
  Forall2 (is_cos_argument phase) GAMMAS xs ->
  Forall (fun x => is_inf x = false) xs ->
  score_arithmetic libm_cos n = Ok (div (py_sum (libm_cos <$> xs)) five).
Proof.
  intros Hroot Hsub Habs Hargs Hfin. unfold score_arithmetic.
  rewrite Hroot. cbn [mbind result_bind]. rewrite Hsub.
  cbn [mbind result_bind]. rewrite Habs. cbn [mbind result_bind].
  rewrite (resonance_loop_run phase GAMMAS xs [] Hargs Hfin).
  cbn [mbind result_bind]. rewrite app_nil_l.
  assert (length (libm_cos <$> xs) = 5%nat) as ->.
  { rewrite length_fmap, <- (Forall2_length Hargs). reflexivity. }
  reflexivity.
Qed.

Lemma cos_value_within x :
  cos_in_unit_range libm_cos -> is_finite x = true ->
  within (opp one) one (libm_cos x).
Proof.
  intros Hcos Hx. destruct (Hcos x Hx) as (Hv & Hlo & Hhi).
  apply leb_within; try done; split; reflexivity.
Qed.

(** Whatever the input, the score is a finite float between -1.0 and 1.0,
    never a NaN or an infinity, provided the cosine of the C library stays
    in that range: it is the 0.0 of the [except] branch or the mean of five
    cosines, and neither the five additions nor the division by 5.0 round
    to a value outside the range. *)
Theorem score_in_unit_interval n :
  cos_in_unit_range libm_cos ->
  is_finite (compute_spectral_coherence libm_cos n) = true /\
  leb (opp one) (compute_spectral_coherence libm_cos n) = true /\
  leb (compute_spectral_coherence libm_cos n) one = true.
Proof.
  intros Hcos. unfold compute_spectral_coherence.
  destruct (score_arithmetic libm_cos n) as [score|] eqn:Hrun;
    [|repeat split].
  destruct (score_arithmetic_inv n score Hrun) as (ph & xs & Hargs & Hfin & ->).
  apply (within_leb (opp one) one); [split; reflexivity..|].
  apply (mean_within (ulps (opp one)) (ulps one)
           (fun k => opp (scaled k 0)) (fun k => scaled k 0)).
  - apply unit_multiples.
  - apply Forall_fmap. eapply Forall_impl; [|exact Hfin].
    intros x Hx. by apply cos_value_within.
  - rewrite length_fmap, <- (Forall2_length Hargs). reflexivity.
Qed.
End ScoreRange.

Ltac run_lhs :=
  match goal with
  | |- ?l = _ =>
      let v := eval vm_compute in l in
      transitivity v; [vm_compute; reflexivity|reflexivity]
  end.

Ltac run_cos_arguments :=
  repeat first
    [ apply Forall2_nil
    | eapply Forall2_cons;
      [eexists; split; [run_lhs|reflexivity]|] ].

Ltac run_score_arithmetic :=
  eapply score_arithmetic_run;
    [run_lhs|run_lhs|run_lhs|unfold GAMMAS; run_cos_arguments
    |repeat constructor].

Section Samples.
Variable libm_cos : float -> float.

Lemma regular_sample_arithmetic :
  exists xs,
    score_arithmetic libm_cos n_regular =
      Ok (div (py_sum (libm_cos <$> xs)) five) /\
    Forall (fun x => leb (abs x) (two_pow (-100)) = true) xs /\
    length xs = 5%nat.
Proof.
  eexists. split; [run_score_arithmetic|]. split; [repeat constructor|reflexivity].
Qed.

Lemma irregular_sample_arithmetic :
  exists xs,
    score_arithmetic libm_cos n_irregular =
      Ok (div (py_sum (libm_cos <$> xs)) five) /\
    Forall (fun x => is_finite x = true /\ leb (two_pow (-6)) (abs x) = true /\
                     leb (abs x) one = true) xs /\
    length xs = 5%nat.
Proof.
  eexists. split; [run_score_arithmetic|]. split; [repeat constructor|reflexivity].
Qed.

Lemma seventeen_arithmetic :
  exists xs,
    score_arithmetic libm_cos 17 =
      Ok (div (py_sum (libm_cos <$> xs)) five) /\
    Forall (fun x => is_finite x = true /\ leb (scaled 13 (-3)) x = true /\
                     leb x (scaled 17 (-2)) = true) xs /\
    length xs = 5%nat.
Proof.
  eexists. split; [run_score_arithmetic|]. split; [repeat constructor|reflexivity].
Qed.

Lemma regular_sample_score :
  cos_one_near_zero libm_cos ->
  compute_spectral_coherence libm_cos n_regular = one.
Proof.
  intros Hcos. unfold compute_spectral_coherence.
  destruct regular_sample_arithmetic as (xs & -> & Hxs & Hlen).
  assert (libm_cos <$> xs = replicate (length xs) one) as ->.
  { clear Hlen. induction Hxs as [|x xs Hx Hxs IH]; [reflexivity|].
    cbn [fmap list_fmap length replicate]. f_equal; [by apply Hcos|exact IH]. }
  rewrite Hlen. vm_compute. reflexivity.
Qed.

Lemma irregular_sample_score :
  cos_in_unit_range libm_cos -> cos_below_one_away libm_cos ->
  within (opp one) below_one (compute_spectral_coherence libm_cos n_irregular).
Proof.
  intros Hrange Haway. unfold compute_spectral_coherence.
  destruct irregular_sample_arithmetic as (xs & -> & Hxs & Hlen).
  apply (mean_within (ulps (opp one)) (ulps below_one)
           (fun k => opp (scaled k 0)) (fun k => scaled (k * 16383) (-14))).
  - apply below_one_multiples.
  - apply Forall_fmap. eapply Forall_impl; [|exact Hxs].
    intros x (Hfx & Hlo & Hhi). cbn [compose].
    destruct (cos_value_within libm_cos x Hrange Hfx) as (Hg & Hl & _).
    split; [exact Hg|]. split; [exact Hl|].
    apply SFleb_ulps; [exact Hg|split; reflexivity|]. by apply Haway.
  - by rewrite length_fmap.
Qed.

(** The score is not confined to [0, 1]: at [n = 17] the five cosine
    arguments lie between 13/8 and 17/4, where the cosine is negative, and
    the score is at most [-2^-5]. *)
Theorem score_negative_at_17 :
  cos_in_unit_range libm_cos -> cos_negative_mid libm_cos ->
  leb (compute_spectral_coherence libm_cos 17) (opp (two_pow (-5))) = true /\
  ltb (compute_spectral_coherence libm_cos 17) zero = true.
Proof.
  intros Hrange Hmid.
  assert (within (opp one) (opp (two_pow (-5)))
            (compute_spectral_coherence libm_cos 17)) as (Hg & Hlo & Hhi).
  { unfold compute_spectral_coherence.
    destruct seventeen_arithmetic as (xs & -> & Hxs & Hlen).
    apply (mean_within (ulps (opp one)) (ulps (opp (two_pow (-5))))
             (fun k => opp (scaled k 0)) (fun k => opp (scaled k (-5)))).
    - apply negative_multiples.
    - apply Forall_fmap. eapply Forall_impl; [|exact Hxs].
      intros x (Hfx & Hl & Hh). cbn [compose].
      destruct (cos_value_within libm_cos x Hrange Hfx) as (Hgc & Hlc & _).
      split; [exact Hgc|]. split; [exact Hlc|].
      apply SFleb_ulps; [exact Hgc|split; reflexivity|]. by apply Hmid.
    - by rewrite length_fmap. }
  split.
  - apply SFleb_ulps; [exact Hg|split; reflexivity|exact Hhi].
  - apply SFltb_ulps; [exact Hg|apply good_zero|].
    assert (ulps (opp (two_pow (-5))) < ulps zero) by (vm_compute; reflexivity).
    lia.
Qed.

(** The second sample of [analyze_composite_moduli], of which only the
    neighbour [(10^35 + 8)^2] is a square, scores exactly 1.0: its cosine
    arguments are below [2^-100] in magnitude, where the cosine rounds to
    1.0.  The test [score2 > 0.95] succeeds. *)
Theorem regular_sample_maximal :
  cos_one_near_zero libm_cos ->
  score2 (analyze_composite_moduli libm_cos) = one /\
  maximal_resonance (analyze_composite_moduli libm_cos) = true.
Proof.
  intros Hcos. pose proof (regular_sample_score Hcos) as Hone.
  unfold analyze_composite_moduli. cbn [score2 maximal_resonance].
  change ((10 ^ 35 + 7) * (10 ^ 35 + 9)) with n_regular.
  rewrite Hone. split; reflexivity.
Qed.

(** The first sample of [analyze_composite_moduli] scores at most
    [1 - 2^-14], strictly below the second sample: its cosine arguments lie
    between [2^-6] and 1. *)
Theorem irregular_below_regular :
  cos_in_unit_range libm_cos -> cos_one_near_zero libm_cos ->
  cos_below_one_away libm_cos ->
  leb (score1 (analyze_composite_moduli libm_cos)) below_one = true /\
  ltb (score1 (analyze_composite_moduli libm_cos))
      (score2 (analyze_composite_moduli libm_cos)) = true.
Proof.
  intros Hrange Hzero Haway.
  pose proof (regular_sample_score Hzero) as Hone.
  destruct (irregular_sample_score Hrange Haway) as (Hg & Hlo & Hhi).
  unfold analyze_composite_moduli. cbn [score1 score2].
  change ((10 ^ 35 + 7) * (10 ^ 35 + 9)) with n_regular.
  change ((10 ^ 20 + 39) * (10 ^ 50 + 151)) with n_irregular.
  rewrite Hone. split.
  - apply SFleb_ulps; [exact Hg|split; reflexivity|exact Hhi].
  - apply SFltb_ulps; [exact Hg|split; reflexivity|].
    assert (ulps below_one < ulps one) by (vm_compute; reflexivity).
    lia.
Qed.
End Samples.

Lemma coarse_cos_range : cos_in_unit_range coarse_cos.
Proof.
  intros x _. unfold coarse_cos.
  destruct (leb (abs x) (two_pow (-100))); repeat split.
Qed.

Lemma coarse_cos_near_zero : cos_one_near_zero coarse_cos.
Proof. intros x Hx. unfold coarse_cos. rewrite Hx. reflexivity. Qed.

Lemma coarse_cos_away : cos_below_one_away coarse_cos.
Proof.
  intros x Hlo Hhi. unfold coarse_cos.
  assert (leb (abs x) (two_pow (-100)) = false) as ->; [|reflexivity].
  destruct x as [s|s| |s m e]; try discriminate.
  unfold leb, SFleb, abs, two_pow in *. cbn [SFabs SFcompare] in *.
  destruct (Z.compare_spec (-6 - 52) e) as [He|He|He]; try discriminate;
    destruct (Z.compare_spec e (-100 - 52)); try reflexivity; lia.
Qed.

Lemma score_in_unit_interval_witness :
  is_finite (compute_spectral_coherence coarse_cos 2) = true /\
  leb (opp one) (compute_spectral_coherence coarse_cos 2) = true /\
  leb (compute_spectral_coherence coarse_cos 2) one = true.
Proof. apply (score_in_unit_interval coarse_cos 2). exact coarse_cos_range. Defined.

Lemma regular_sample_maximal_witness :
  score2 (analyze_composite_moduli coarse_cos) = one /\
  maximal_resonance (analyze_composite_moduli coarse_cos) = true.
Proof. apply (regular_sample_maximal coarse_cos). exact coarse_cos_near_zero. Defined.

Lemma irregular_below_regular_witness :
  leb (score1 (analyze_composite_moduli coarse_cos)) below_one = true /\
  ltb (score1 (analyze_composite_moduli coarse_cos))
      (score2 (analyze_composite_moduli coarse_cos)) = true.
Proof.
  apply (irregular_below_regular coarse_cos);
    [exact coarse_cos_range|exact coarse_cos_near_zero|exact coarse_cos_away].
Defined.

Lemma score_negative_at_17_witness :
  leb (compute_spectral_coherence (fun _ => opp (two_pow (-5))) 17)
      (opp (two_pow (-5))) = true /\
  ltb (compute_spectral_coherence (fun _ => opp (two_pow (-5))) 17) zero = true.
Proof.
  apply (score_negative_at_17 (fun _ => opp (two_pow (-5)))).
  - intros x _. repeat split.
  - intros x _ _. reflexivity.
Defined.

End ScoreProperties.

(** ** The two indicators side by side *)

Section IndicatorProofs.
Import MillionaireScan JinxSquare.

(** The sieve of a shorter array is the prefix of the sieve of a longer
    one. *)
Theorem get_primes_prefix n m :
  n <= m ->
  exists v w, get_primes n = Ok v /\ get_primes m = Ok w /\ v = take n w.
Proof.
  intros Hnm.
  destruct (get_primes_flags n) as (p & Ev & Hlp & Hp).
  destruct (get_primes_flags m) as (q & Ew & Hlq & Hq).
  exists (astype_float64 p), (astype_float64 q).
  split; [exact Ev|]. split; [exact Ew|].
  unfold astype_float64. rewrite <- fmap_take. f_equal.
  apply list_eq. intros j. destruct (decide (j < n)) as [Hj|Hj].
  - rewrite lookup_take_lt by done.
    destruct (lookup_lt_is_Some_2 p j ltac:(lia)) as [b Eb].
    destruct (lookup_lt_is_Some_2 q j ltac:(lia)) as [c Ec].
    rewrite Eb, Ec. f_equal.
    specialize (Hp j b Eb). specialize (Hq j c Ec).
    destruct b, c; try reflexivity; intuition congruence.
  - rewrite lookup_take_ge by lia. apply lookup_ge_None. lia.
Qed.

Lemma prime_not_square j i : is_prime j -> 1 <= i -> j <> i * i.
Proof.
  intros [H2 Hp] Hi ->. destruct (decide (i = 1)) as [->|Hne]; [lia|].
  apply (Hp i); [nia|]. by exists i.
Qed.

Lemma get_squares_field n w :
  get_squares n = Ok w ->
  1 <= n /\ length w = n /\ square_inv (Nat.sqrt (n - 1)) w.
Proof.
  unfold get_squares. intros Ew.
  destruct (decide (n = 0)) as [|Hn]; [discriminate Ew|].
  cbn [mbind result_bind] in Ew. unfold range, int_sqrt in Ew.
  replace (Nat.sqrt (n - 1) + 1 - 1) with (Nat.sqrt (n - 1)) in Ew by lia.
  pose proof (Nat.sqrt_specif (n - 1)) as Hs.
  destruct (mark_loop_inv n (Nat.sqrt (n - 1)) 1 (zeros n))
    as (w' & E' & Hlenw & Hinv).
  { apply length_replicate. }
  { lia. }
  { intros i Hi. assert (i <= Nat.sqrt (n - 1)) by lia. nia. }
  { apply square_inv_zeros. }
  rewrite E' in Ew. injection Ew as <-.
  replace (1 + Nat.sqrt (n - 1) - 1) with (Nat.sqrt (n - 1)) in Hinv by lia.
  split; [lia|]. split; [exact Hlenw|exact Hinv].
Qed.

(** No index is marked by both builders: a prime is not a perfect square. *)
Theorem primes_and_squares_disjoint n v w j :
  get_primes n = Ok v -> get_squares n = Ok w ->
  (v !! j = Some one -> w !! j = Some zero) /\
  (w !! j = Some one -> v !! j = Some zero).
Proof.
  intros Ev Ew.
  destruct (get_primes_flags n) as (p & E & Hlen & Hp).
  rewrite E in Ev. injection Ev as <-.
  destruct (get_squares_field n w Ew) as (_ & Hlenw & Hinv).
  assert (forall b, p !! j = Some b -> b = true -> w !! j = Some zero) as Hkey.
  { intros b Eb ->. assert (is_prime j) as Hprime by (by apply (Hp j true)).
    apply lookup_lt_Some in Eb.
    destruct (Hinv j ltac:(lia)) as [_ H0]. apply H0.
    intros (i & Hi & ->).
    exact (prime_not_square (i * i) i Hprime ltac:(lia) eq_refl). }
  unfold astype_float64. rewrite list_lookup_fmap. split.
  - intros Hv. destruct (p !! j) as [[]|] eqn:Eb; try discriminate.
    by apply (Hkey true).
  - intros Hw. apply lookup_lt_Some in Hw as Hj.
    destruct (lookup_lt_is_Some_2 p j ltac:(lia)) as [b Eb]. rewrite Eb.
    destruct b; [|reflexivity].
    rewrite (Hkey true Eb eq_refl) in Hw. discriminate.
Qed.

Lemma squares_upto_sqrt m j :
  squares_upto m j <-> 1 <= Nat.sqrt j <= m /\ j = Nat.sqrt j * Nat.sqrt j.
Proof.
  split.
  - intros (i & Hi & ->). rewrite Nat.sqrt_square. lia.
  - intros [Hs Hj]. exists (Nat.sqrt j). done.
Qed.

Lemma marked_elem_of (v : list float) j : j ∈ marked v <-> v !! j = Some one.
Proof.
  unfold marked. rewrite list_elem_of_filter, elem_of_seq. split.
  - tauto.
  - intros H. split; [done|]. apply lookup_lt_Some in H. lia.
Qed.

Lemma seq_sorted a k : StronglySorted lt (seq a k).
Proof.
  revert a. induction k as [|k IH]; intros a; cbn [seq]; constructor.
  - apply IH.
  - apply Forall_lookup. intros i x Hx%lookup_seq. lia.
Qed.

Lemma filter_sorted (P : nat -> Prop) `{!forall j, Decision (P j)} l :
  StronglySorted lt l -> StronglySorted lt (filter P l).
Proof.
  induction 1 as [|x l Hl IH Hx]; [constructor|].
  rewrite filter_cons. destruct (decide (P x)); [|exact IH].
  constructor; [exact IH|]. apply Forall_lookup.
  intros i y [_ Hy]%list_elem_of_lookup_2%list_elem_of_filter.
  apply list_elem_of_lookup_1 in Hy as [j Hj].
  exact (proj1 (Forall_lookup _ _) Hx j y Hj).
Qed.

Lemma fmap_sorted (f : nat -> nat) l :
  (forall x y, x < y -> f x < f y) ->
  StronglySorted lt l -> StronglySorted lt (f <$> l).
Proof.
  intros Hf. induction 1 as [|x l Hl IH Hx]; [constructor|].
  cbn [fmap list_fmap]. constructor; [exact IH|].
  apply Forall_fmap. eapply Forall_impl; [|exact Hx].
  intros y Hy. by apply Hf.
Qed.

Lemma sorted_lt_ext (l1 l2 : list nat) :
  StronglySorted lt l1 -> StronglySorted lt l2 ->
  (forall x, x ∈ l1 <-> x ∈ l2) -> l1 = l2.
Proof.
  intros H1. revert l2.
  induction H1 as [|x l1 Hl1 IH Hx]; intros l2 H2 Hext.
  - destruct l2 as [|y l2]; [reflexivity|].
    exfalso. apply (not_elem_of_nil y), Hext. left.
  - destruct H2 as [|y l2 Hl2 Hy].
    { exfalso. apply (not_elem_of_nil x), Hext. left. }
    assert (forall z, z ∈ l1 -> x < z) as Hx'.
    { intros z [j Hj]%list_elem_of_lookup_1.
      exact (proj1 (Forall_lookup _ _) Hx j z Hj). }
    assert (forall z, z ∈ l2 -> y < z) as Hy'.
    { intros z [j Hj]%list_elem_of_lookup_1.
      exact (proj1 (Forall_lookup _ _) Hy j z Hj). }
    clear Hx Hy. rename Hx' into Hx, Hy' into Hy.
    assert (x = y) as <-.
    { assert (x ∈ y :: l2) as Hxin by (apply Hext; left).
      assert (y ∈ x :: l1) as Hyin by (apply Hext; left).
      apply elem_of_cons in Hxin as [->|Hxin]; [reflexivity|].
      apply elem_of_cons in Hyin as [->|Hyin]; [reflexivity|].
      specialize (Hx y Hyin). specialize (Hy x Hxin). lia. }
    f_equal. apply IH; [exact Hl2|].
    intros z. split; intros Hz.
    + assert (z ∈ x :: l2) as Hz' by (apply Hext; by right).
      apply elem_of_cons in Hz' as [->|Hz']; [|exact Hz'].
      specialize (Hx x Hz). lia.
    + assert (z ∈ x :: l1) as Hz' by (apply Hext; by right).
      apply elem_of_cons in Hz' as [->|Hz']; [|exact Hz'].
      specialize (Hy x Hz). lia.
Qed.

Lemma marked_sorted (v : list float) : StronglySorted lt (marked v).
Proof. unfold marked. apply filter_sorted, seq_sorted. Qed.

Lemma squares_marked_list n w :
  get_squares n = Ok w ->
  marked w = (fun i => i * i) <$> seq 1 (Nat.sqrt (n - 1)).
Proof.
  intros Ew. destruct (get_squares_field n w Ew) as (Hn & Hlen & Hinv).
  apply sorted_lt_ext.
  - apply marked_sorted.
  - apply fmap_sorted; [intros x y Hxy; nia|apply seq_sorted].
  - intros j. rewrite marked_elem_of, list_elem_of_fmap.
      pose proof (Nat.sqrt_specif (n - 1)) as Hs. split.
      * intros Hj. apply lookup_lt_Some in Hj as Hjn.
        destruct (Hinv j Hjn) as [_ H0].
        destruct (decide (1 <= Nat.sqrt j <= Nat.sqrt (n - 1) /\
                          j = Nat.sqrt j * Nat.sqrt j))
          as [Hsq%squares_upto_sqrt|Hsq].
        -- destruct Hsq as (i & Hi & ->). exists i. split; [done|].
           apply elem_of_seq. lia.
        -- rewrite H0 in Hj; [discriminate|].
           by rewrite squares_upto_sqrt.
      * intros (i & -> & Hi%elem_of_seq).
        assert (i * i < length w).
        { rewrite Hlen. assert (i <= Nat.sqrt (n - 1)) by lia. nia. }
        apply Hinv; [done|]. exists i. lia.
Qed.

(** The marked indices of [get_squares n], in increasing order, are the
    squares of 1, 2, ..., [floor(sqrt(n-1))]: the field holds exactly
    [floor(sqrt(n-1))] ones. *)
Theorem get_squares_marked n w :
  get_squares n = Ok w ->
  marked w = (fun i => i * i) <$> seq 1 (Nat.sqrt (n - 1)) /\
  length (marked w) = Nat.sqrt (n - 1).
Proof.
  intros Ew. pose proof (squares_marked_list n w Ew) as Heq.
  split; [exact Heq|]. rewrite Heq, length_fmap, length_seq. reflexivity.
Qed.

Lemma get_squares_indicator n w :
  get_squares n = Ok w -> Forall (fun x => x = one \/ x = zero) w.
Proof.
  intros Ew. destruct (get_squares_field n w Ew) as (Hn & Hlen & Hinv).
  apply Forall_lookup. intros j x Hx. apply lookup_lt_Some in Hx as Hj.
  destruct (Hinv j Hj) as [H1 H0].
  destruct (decide (1 <= Nat.sqrt j <= Nat.sqrt (n - 1) /\
                    j = Nat.sqrt j * Nat.sqrt j))
    as [Hsq%squares_upto_sqrt|Hsq].
  - left. rewrite (H1 Hsq) in Hx. congruence.
  - right. rewrite H0 in Hx; [congruence|]. by rewrite squares_upto_sqrt.
Qed.


End IndicatorProofs.

Lemma get_primes_prefix_witness :
  exists v w, MillionaireScan.get_primes 10 = Ok v /\
              MillionaireScan.get_primes 20 = Ok w /\ v = take 10 w.
Proof. apply (get_primes_prefix 10 20). lia. Defined.

Lemma primes_and_squares_disjoint_witness :
  ([zero; zero; one; one; zero; one; zero; one; zero; zero] !! 4 = Some one ->
   [zero; one; zero; zero; one; zero; zero; zero; zero; one] !! 4 = Some zero) /\
  ([zero; one; zero; zero; one; zero; zero; zero; zero; one] !! 4 = Some one ->
   [zero; zero; one; one; zero; one; zero; one; zero; zero] !! 4 = Some zero).
Proof. apply (primes_and_squares_disjoint 10); reflexivity. Defined.

Lemma get_squares_marked_witness :
  exists w, JinxSquare.get_squares 17 = Ok w /\
    marked w = (fun i => i * i) <$> seq 1 (Nat.sqrt (17 - 1)) /\
    length (marked w) = Nat.sqrt (17 - 1).
Proof.
  eexists. split; [reflexivity|]. apply (get_squares_marked 17). reflexivity.
Defined.

(** ** The norm of an indicator vector *)

Section ExactSums.
Import Diagdevice.
Local Open Scope Z_scope.

Lemma good_ulps_inj x y :
  good x -> good y -> ulps x = ulps y -> ulps x <> 0 -> x = y.
Proof.
  intros Hx Hy Heq Hnz.
  destruct x as [sx| | |sx mx ex]; try (destruct Hx as [_ Hx]; discriminate);
    [cbn [ulps] in Hnz; lia|].
  destruct y as [sy| | |sy my ey]; try (destruct Hy as [_ Hy]; discriminate);
    [cbn [ulps] in *; lia|].
  pose proof (good_ulps_sign _ _ _ Hx) as Hsx.
  pose proof (good_ulps_sign _ _ _ Hy) as Hsy.
  apply good_finite in Hx, Hy.
  assert (sx = sy) as <- by (destruct sx, sy; try reflexivity; lia).
  assert (Zpos mx * 2 ^ (ex + 1074) = Zpos my * 2 ^ (ey + 1074)) as Hmag.
  { cbn [ulps] in Heq. destruct sx; cbn [cond_Zopp] in Heq; lia. }
  assert (ex = ey) as <-.
  { destruct (Z.lt_trichotomy ex ey) as [Hlt|[Heq'|Hgt]]; [|done|].
    - pose proof (mag_lt mx ex my ey Hx Hy Hlt). lia.
    - pose proof (mag_lt my ey mx ex Hy Hx Hgt). lia. }
  pose proof (canonical64_exp _ _ Hx).
  assert (0 < 2 ^ (ex + 1074)) by (apply Z.pow_pos_nonneg; lia).
  f_equal. nia.
Qed.

(** The float of a k-bit integer, k at most 53, written out. *)
Lemma small_int_float k :
  0 < k <= 2 ^ 53 ->
  exists m e, canonical64 (Zpos m) e /\ Zpos m * 2 ^ (e + 1074) = k * 2 ^ 1074.
Proof.
  intros [Hk Hle].
  destruct (Z.eq_dec k (2 ^ 53)) as [->|Hne].
  { exists 4503599627370496%positive, 1. split; [split; [reflexivity|lia]|].
    vm_compute. reflexivity. }
  pose proof (Zdigits2_bounds k Hk) as [Hlo Hhi].
  assert (1 <= Zdigits2 k).
  { rewrite Zdigits2_log2 by done. pose proof (Z.log2_nonneg k). lia. }
  assert (Zdigits2 k <= 53) by (apply Zdigits2_lt_pow; lia).
  remember (Zdigits2 k) as d eqn:Hd.
  assert (0 < 2 ^ (53 - d)) by (apply Z.pow_pos_nonneg; lia).
  assert (0 < k * 2 ^ (53 - d)) as Hpos by nia.
  exists (Z.to_pos (k * 2 ^ (53 - d))), (d - 53).
  rewrite Z2Pos.id by done. split.
  - split; [|lia]. rewrite Zdigits2_mul_pow2 by lia. rewrite <- Hd.
    rewrite fexp64_eq. lia.
  - rewrite <- Z.mul_assoc, <- Z.pow_add_r by lia. do 2 f_equal. lia.
Qed.

Lemma ulps_one : ulps one = 2 ^ 1074.
Proof. vm_compute. reflexivity. Qed.

Lemma float_of_int_exact k :
  0 <= k <= 2 ^ 53 ->
  good (float_of_int k) /\ ulps (float_of_int k) = k * ulps one.
Proof.
  intros [Hk Hle]. rewrite ulps_one.
  destruct k as [|p|p]; [split; [apply good_zero|reflexivity]| |lia].
  destruct (small_int_float (Zpos p) ltac:(lia)) as (m & e & Hc & Hv).
  unfold float_of_int. cbn [binary_normalize].
  pose proof (binary_round_within false p 0 (S754_finite false m e)
                (S754_finite false m e)) as H.
  cbn [ulps cond_Zopp] in H. rewrite Hv in H.
  destruct H as [Hg Hb]; [lia|by apply good_finite..| |].
  { change (0 + 1074) with 1074. lia. }
  split; [exact Hg|]. unfold prec, emax. lia.
Qed.

Lemma add_one_exact k :
  0 <= k < 2 ^ 53 -> add (float_of_int k) one = float_of_int (k + 1).
Proof.
  intros Hk.
  destruct (float_of_int_exact k ltac:(lia)) as [Hg Hu].
  destruct (float_of_int_exact (k + 1) ltac:(lia)) as [Hg1 Hu1].
  assert (0 < ulps one) by (rewrite ulps_one; apply Z.pow_pos_nonneg; lia).
  destruct (add_within (float_of_int k) one (float_of_int (k + 1))
              (float_of_int (k + 1))) as [Hga Hb];
    [exact Hg|split; reflexivity|exact Hg1|exact Hg1|lia|].
  apply good_ulps_inj; try done; unfold add, prec, emax; nia.
Qed.

Lemma add_zero_exact k :
  0 <= k <= 2 ^ 53 -> add (float_of_int k) zero = float_of_int k.
Proof.
  intros Hk. destruct (float_of_int_exact k Hk) as [Hg Hu].
  destruct k as [|p|p]; [reflexivity| |lia].
  assert (0 < ulps one) by (rewrite ulps_one; apply Z.pow_pos_nonneg; lia).
  destruct (float_of_int (Zpos p)) as [s| | |s m e];
    [cbn [ulps] in Hu; lia|destruct Hg as [_ Hg]; discriminate Hg..
    |reflexivity].
Qed.

Lemma filter_ext_elem {A} (P Q : A -> Prop)
    `{!forall x, Decision (P x), !forall x, Decision (Q x)} (l : list A) :
  (forall x, x ∈ l -> (P x <-> Q x)) -> filter P l = filter Q l.
Proof.
  induction l as [|a l IH]; intros Hext; [reflexivity|].
  rewrite !filter_cons.
  pose proof (Hext a ltac:(left)) as Ha.
  rewrite IH by (intros x Hx; apply Hext; by right).
  destruct (decide (P a)), (decide (Q a)); tauto || reflexivity.
Qed.

(** The number of entries 1.0 of a vector. *)
Lemma marked_count (v : list float) :
  length (marked v) = length (filter (fun x => x = one) v).
Proof.
  unfold marked.
  assert (forall a, length (filter (fun j : nat => v !! (j - a)%nat = Some one)
                               (seq a (length v))) =
                    length (filter (fun x => x = one) v)) as Hgen.
  { induction v as [|x v IH]; intros a; [reflexivity|].
    cbn [length seq]. rewrite !filter_cons. rewrite Nat.sub_diag. cbn [lookup list_lookup].
    assert (length (filter (fun j : nat => (x :: v) !! (j - a)%nat = Some one)
                      (seq (S a) (length v))) =
            length (filter (fun x => x = one) v)) as Htail.
    { rewrite <- (IH (S a)). f_equal. apply filter_ext_elem.
      intros j Hj%elem_of_seq.
      replace (j - a)%nat with (S (j - S a)) by lia. reflexivity. }
    destruct (decide (Some x = Some one)) as [Hx|Hx];
      destruct (decide (x = one)) as [Hx'|Hx']; cbn [length];
      try congruence. }
  rewrite <- (Hgen 0%nat). f_equal. apply list_filter_iff. intros j.
  by rewrite Nat.sub_0_r.
Qed.

Lemma indicator_sum v : forall k,
  Forall (fun x => x = one \/ x = zero) v ->
  0 <= k -> k + Z.of_nat (length v) <= 2 ^ 53 ->
  foldl add (float_of_int k) (square v) =
  float_of_int (k + Z.of_nat (length (filter (fun x => x = one) v))).
Proof.
  induction v as [|x v IH]; intros k Hv Hk Hlen.
  - cbn. by rewrite Z.add_0_r.
  - inversion Hv as [|? ? Hx Hv']; subst. rewrite length_cons, Nat2Z.inj_succ in Hlen.
    unfold square in *. cbn [fmap list_fmap foldl]. rewrite filter_cons.
    destruct Hx as [-> | ->].
    + change (mul one one) with one. rewrite add_one_exact by lia.
      rewrite IH by (done || lia).
      destruct (decide (one = one)); [|done].
      rewrite length_cons, Nat2Z.inj_succ. f_equal. lia.
    + change (mul zero zero) with zero. rewrite add_zero_exact by lia.
      rewrite IH by (done || lia).
      destruct (decide (zero = one)); [discriminate|]. reflexivity.
Qed.

Lemma indicator_norm v :
  Forall (fun x => x = one \/ x = zero) v ->
  Z.of_nat (length v) <= 2 ^ 53 ->
  linalg_norm v = sqrt (float_of_int (Z.of_nat (length (marked v)))).
Proof.
  intros Hv Hlen. unfold linalg_norm, Np.sum.
  change zero with (float_of_int 0).
  rewrite indicator_sum by (done || lia).
  rewrite marked_count. reflexivity.
Qed.


(** [np.linalg.norm] of the square indicator is the correctly rounded root
    of [floor(sqrt(n-1))], the number of marked squares. *)
Theorem square_norm_exact n w :
  Z.of_nat n <= 2 ^ 53 -> JinxSquare.get_squares n = Ok w ->
  linalg_norm w = sqrt (float_of_int (Z.of_nat (Nat.sqrt (n - 1)))).
Proof.
  intros Hn Ew.
  destruct (get_squares_field n w Ew) as (_ & Hlen & _).
  rewrite (indicator_norm w).
  - rewrite (squares_marked_list n w Ew), length_fmap, length_seq. reflexivity.
  - by apply (get_squares_indicator n).
  - by rewrite Hlen.
Qed.
End ExactSums.



Lemma square_norm_exact_witness :
  exists w, JinxSquare.get_squares 17 = Ok w /\
    linalg_norm w =
    sqrt (Diagdevice.float_of_int (Z.of_nat (Nat.sqrt (17 - 1)))).
Proof.
  eexists. split; [reflexivity|].
  apply (square_norm_exact 17); [vm_compute; discriminate|reflexivity].
Defined.

(** ** Inputs of more than 200 digits *)

Section LargeInputs.
Import Decimal Diagdevice.
Local Open Scope Z_scope.

Lemma sqrt_le_root a n : 0 <= a -> a * a <= n -> a <= Z.sqrt n.
Proof.
  intros Ha Hle. rewrite <- (Z.sqrt_square a Ha). by apply Z.sqrt_le_mono.
Qed.

Lemma sqrt_of_large n :
  10 ^ 200 <= n ->
  exists m e,
    Decimal.sqrt the_context (of_int n) = fix_ the_context (mkdec false m e) /\
    0 < m /\ 0 <= e /\ m * 10 ^ e <= 2 * Z.sqrt n.
Proof.
  intros Hn.
  assert (0 < n) as Hpos by (pose proof (Z.pow_pos_nonneg 10 200); lia).
  pose proof (ndigits_spec n Hpos) as [Hnlo Hnhi].
  assert (201 <= ndigits n) as HL.
  { destruct (Z.lt_ge_cases (ndigits n) 201) as [Hlt|]; [exfalso|done].
    assert (10 ^ ndigits n <= 10 ^ 200) by (apply Z.pow_le_mono_r; lia). lia. }
  pose proof (Z.sqrt_spec n ltac:(lia)) as HR. cbv zeta in HR.
  pose proof (Z.sqrt_nonneg n) as HR0.
  remember (Z.sqrt n) as R eqn:HeqR.
  unfold Decimal.sqrt, of_int. cbn [coeff exp sign].
  rewrite Z.abs_eq by lia.
  destruct (Z.eqb_spec n 0) as [|_]; [lia|].
  destruct (Z.ltb_spec n 0) as [|_]; [lia|].
  change (Z.odd 0) with false. change (Z.shiftr 0 1) with 0.
  change (Decimal.prec the_context + 1) with 101.
  cbv beta iota zeta.
  change (mkctx (Decimal.prec the_context) ROUND_HALF_EVEN (Emin the_context)
            (Emax the_context)) with the_context.
  remember (Z.shiftr (ndigits n + 1) 1) as l eqn:Hl.
  assert (101 <= l /\ 2 * l <= ndigits n + 1) as [Hl101 Hl2].
  { rewrite Hl, Z.shiftr_div_pow2 by lia. change (2 ^ 1) with 2.
    pose proof (Z.mul_div_le (ndigits n + 1) 2 ltac:(lia)).
    assert (101 <= (ndigits n + 1) / 2) by (apply Z.div_le_lower_bound; lia).
    lia. }
  remember (l - 101) as s eqn:Hs.
  assert (0 < 10 ^ s) as HP by (apply Z.pow_pos_nonneg; lia).
  assert (100 ^ s = 10 ^ s * 10 ^ s) as H100.
  { change 100 with (10 * 10). apply Z.pow_mul_l. }
  (* the scaled coefficient and its root *)
  assert (10 ^ s * 10 ^ s <= n) as HPn.
  { rewrite <- Z.pow_add_r by lia.
    transitivity (10 ^ (ndigits n - 1)); [|exact Hnlo].
    apply Z.pow_le_mono_r; lia. }
  remember (10 ^ s) as P eqn:HeqP.
  pose proof (Z.div_mod n (P * P) ltac:(nia)) as Hdm.
  pose proof (Z.mod_pos_bound n (P * P) ltac:(nia)) as Hmod.
  assert (1 <= n / (P * P)) as Hc1 by (apply Z.div_le_lower_bound; nia).
  remember (n / (P * P)) as c eqn:Hc.
  remember (n mod (P * P)) as r eqn:Hr.
  pose proof (Z.sqrt_spec c ltac:(lia)) as Hsqrt. cbv zeta in Hsqrt.
  assert (1 <= Z.sqrt c) as Hq1.
  { apply sqrt_le_root; lia. }
  remember (Z.sqrt c) as q eqn:Hq.
  assert (q * P <= R) as HqP.
  { rewrite HeqR. apply sqrt_le_root; nia. }
  destruct (Z.leb_spec 0 (101 - l)) as [Hs0|Hs0].
  - (* exactly 101 digits are asked for: no scaling *)
    assert (s = 0) as Hsz by lia. rewrite Hsz in HeqP. cbn in HeqP. subst P.
    replace (101 - l) with 0 by lia.
    rewrite Z.pow_0_r, Z.mul_1_r. cbn [andb].
    assert (c = n) as Hcn by lia. rewrite Hcn in Hq. rewrite <- Hq.
    destruct (Z.eqb_spec (q * q) n) as [Hex|Hex].
    + exists q, 0. change (10 ^ 0) with 1. rewrite Z.div_1_r.
      repeat split; try lia.
    + exists (if q mod 5 =? 0 then q + 1 else q), 0.
      split; [reflexivity|]. change (10 ^ 0) with 1.
      destruct (q mod 5 =? 0); repeat split; lia.
  - (* the coefficient is cut down by 100^s *)
    replace (- (101 - l)) with s by lia.
    rewrite H100, <- Hc, <- Hr, <- Hq.
    destruct ((r =? 0) && (q * q =? c)) eqn:Hexact.
    + apply andb_true_iff in Hexact as [Hr0%Z.eqb_eq Hqc%Z.eqb_eq].
      rewrite <- HeqP.
      exists (q * P), 0. replace (0 - (101 - l) + (101 - l)) with 0 by lia.
      rewrite Z.pow_0_r, Z.mul_1_r.
      split; [reflexivity|]. split; [apply Z.mul_pos_pos; lia|].
      split; lia.
    + exists (if q mod 5 =? 0 then q + 1 else q), s.
      replace (0 - (101 - l)) with s by lia.
      split; [reflexivity|]. rewrite <- HeqP.
      assert (P <= q * P) as HPq.
      { rewrite <- (Z.mul_1_l P) at 1. apply Z.mul_le_mono_nonneg_r; lia. }
      destruct (q mod 5 =? 0); repeat split; lia.
Qed.

Lemma large_input_arithmetic (libm_cos : float -> float) (D n : Z) :
  libm_cos zero = one -> 0 <= D <= 999998 ->
  10 ^ 200 <= n < 10 ^ D * 10 ^ D ->
  score_arithmetic libm_cos n = Ok one.
Proof.
  intros Hcos HD [Hlo Hhi].
  destruct (sqrt_of_large n Hlo) as (m & e & Hsqrt & Hm & He & Hle).
  assert (0 < 10 ^ D) as HPD by (apply Z.pow_pos_nonneg; lia).
  assert (Z.sqrt n < 10 ^ D) as HR.
  { apply Z.sqrt_lt_square; [|lia|]; lia. }
  destruct (fix_ok (mkdec false m e)) as (root & Hfix & Hexp & Hsign);
    cbn [coeff exp sign]; auto.
  { assert (ndigits m + e <= D + 1); [|lia].
    apply ndigits_scaled_le; auto.
    replace (D + 1) with (Z.succ D) by lia. rewrite Z.pow_succ_r by lia. lia. }
  apply (score_of_integral_root libm_cos n root); auto.
  congruence.
Qed.

Lemma large_input_score_below (libm_cos : float -> float) (D n : Z) :
  libm_cos zero = one -> 0 <= D <= 999998 ->
  10 ^ 200 <= n < 10 ^ D * 10 ^ D ->
  compute_spectral_coherence libm_cos n = one.
Proof.
  intros Hcos HD Hn. unfold compute_spectral_coherence.
  by rewrite (large_input_arithmetic libm_cos D n Hcos HD Hn).
Qed.
End LargeInputs.

Section LargeTheorem.
Import Decimal Diagdevice.
Local Open Scope Z_scope.

(** Every input between [10^200] and [10^1999996] scores exactly 1.0,
    square or not: its root has more than 100 integer digits, so the
    100-digit [Decimal] root has a non-negative exponent, is its own nearest
    integer, and the phase offset is 0. *)
Theorem large_input_scores_one (libm_cos : float -> float) (n : Z) :
  libm_cos zero = one -> 10 ^ 200 <= n < 10 ^ 1999996 ->
  compute_spectral_coherence libm_cos n = one.
Proof.
  intros Hcos [Hlo Hhi].
  apply (large_input_score_below libm_cos 999998);
    [exact Hcos|clear; lia|split; [exact Hlo|]].
  rewrite <- Z.pow_add_r by (clear; lia). exact Hhi.
Qed.
End LargeTheorem.

Lemma large_input_scores_one_witness :
  Diagdevice.compute_spectral_coherence (fun _ => one) (10 ^ 200 + 1)%Z = one.
Proof.
  apply (large_input_scores_one (fun _ => one) (10 ^ 200 + 1)%Z); [reflexivity|].
  split; [vm_compute; discriminate|].
  apply Z.lt_le_trans with (10 ^ 201)%Z; [vm_compute; reflexivity|].
  apply Z.pow_le_mono_r; [reflexivity|]. intros H; discriminate H.
Defined.

(** ** When the [try] block raises *)

Section Totality.
Import Decimal Diagdevice.
Local Open Scope Z_scope.

Lemma ndigits_0 : ndigits 0 = 1.
Proof. reflexivity. Qed.

Lemma ndigits_lt_pow a d : 0 <= a < 10 ^ d -> 1 <= d -> ndigits a <= d.
Proof.
  intros [Ha Hlt] Hd. destruct (Z.eq_dec a 0) as [->|Hne]; [rewrite ndigits_0; lia|].
  pose proof (ndigits_spec a ltac:(lia)) as [Hlo _].
  pose proof (ndigits_pos a).
  destruct (Z.le_gt_cases (ndigits a) d) as [|Hgt]; [done|exfalso].
  assert (10 ^ d <= 10 ^ (ndigits a - 1)) by (apply Z.pow_le_mono_r; lia). lia.
Qed.

Lemma lt_pow_ndigits a : 0 <= a -> a < 10 ^ ndigits a.
Proof.
  intros Ha. destruct (Z.eq_dec a 0) as [->|Hne]; [reflexivity|].
  apply ndigits_spec. lia.
Qed.

Lemma ndigits_le a b : 0 <= a <= b -> ndigits a <= ndigits b.
Proof.
  intros [Ha Hab]. apply ndigits_lt_pow; [|apply ndigits_pos].
  pose proof (lt_pow_ndigits b ltac:(lia)). lia.
Qed.

Lemma ndigits_div_pow c k :
  0 <= c -> 0 <= k -> ndigits (c / 10 ^ k) <= Z.max (ndigits c - k) 1.
Proof.
  intros Hc Hk. assert (0 < 10 ^ k) as HP by (apply Z.pow_pos_nonneg; lia).
  pose proof (lt_pow_ndigits c Hc) as Hlt. pose proof (ndigits_pos c).
  assert (0 <= c / 10 ^ k) by (apply Z.div_pos; lia).
  apply ndigits_lt_pow; [|lia]. split; [done|].
  destruct (Z.le_gt_cases (ndigits c - k) 1) as [Hsmall|Hbig].
  - rewrite Z.max_r by lia. apply Z.div_lt_upper_bound; [lia|].
    assert (10 ^ ndigits c <= 10 ^ (k + 1)) by (apply Z.pow_le_mono_r; lia).
    rewrite Z.pow_add_r in * by lia. lia.
  - rewrite Z.max_l by lia. apply Z.div_lt_upper_bound; [lia|].
    rewrite <- Z.pow_add_r by lia. replace (k + (ndigits c - k)) with (ndigits c) by lia.
    exact Hlt.
Qed.

Lemma ndigits_succ_le c d : 0 <= c -> ndigits c <= d -> ndigits (c + 1) <= d + 1.
Proof.
  intros Hc Hd. pose proof (lt_pow_ndigits c Hc) as Hlt. pose proof (ndigits_pos c).
  apply ndigits_lt_pow; [|lia]. split; [lia|].
  assert (10 ^ ndigits c <= 10 ^ d) by (apply Z.pow_le_mono_r; lia).
  rewrite Z.pow_add_r by lia. assert (0 < 10 ^ d) by (apply Z.pow_pos_nonneg; lia). lia.
Qed.

Lemma ndigits_mul a b :
  0 <= a -> 0 <= b -> ndigits (a * b) <= ndigits a + ndigits b.
Proof.
  intros Ha Hb. pose proof (lt_pow_ndigits a Ha). pose proof (lt_pow_ndigits b Hb).
  pose proof (ndigits_pos a). pose proof (ndigits_pos b).
  apply ndigits_lt_pow; [|lia]. split; [nia|].
  rewrite Z.pow_add_r by lia. nia.
Qed.

Lemma ndigits_add a b d :
  0 <= a -> 0 <= b -> ndigits a <= d -> ndigits b <= d -> ndigits (a + b) <= d + 1.
Proof.
  intros Ha Hb Hda Hdb.
  pose proof (lt_pow_ndigits a Ha). pose proof (lt_pow_ndigits b Hb).
  pose proof (ndigits_pos a).
  assert (10 ^ ndigits a <= 10 ^ d) by (apply Z.pow_le_mono_r; lia).
  assert (10 ^ ndigits b <= 10 ^ d) by (apply Z.pow_le_mono_r; lia).
  apply ndigits_lt_pow; [|lia]. split; [lia|].
  rewrite Z.pow_add_r by lia. lia.
Qed.

Lemma ndigits_mul_pow a k :
  0 <= a -> 0 <= k -> ndigits (a * 10 ^ k) <= ndigits a + k.
Proof.
  intros Ha Hk. pose proof (lt_pow_ndigits a Ha). pose proof (ndigits_pos a).
  assert (0 < 10 ^ k) by (apply Z.pow_pos_nonneg; lia).
  apply ndigits_lt_pow; [|lia]. split; [nia|].
  rewrite Z.pow_add_r by lia. nia.
Qed.

Lemma fix_total B d :
  dec_bounded B d -> -1000000 <= B <= 999998 ->
  exists d', fix_ the_context d = Ok d' /\ dec_bounded (B + 2) d' /\
             ndigits (coeff d') <= 100.
Proof.
  intros [Hc Hadj] HB. unfold fix_.
  destruct (Z.eqb_spec (coeff d) 0) as [Hz|Hnz].
  - eexists. split; [reflexivity|]. unfold dec_bounded. cbn [coeff exp]. rewrite ndigits_0.
    rewrite Hz, ndigits_0 in Hadj.
    change (Etiny the_context) with (-1000098).
    change (Emax the_context) with 999999.
    split; [split; lia|lia].
  - change (Etop the_context) with 999900.
    change (Etiny the_context) with (-1000098).
    change (Decimal.prec the_context) with 100.
    pose proof (ndigits_pos (coeff d)) as Hnd.
    remember (ndigits (coeff d)) as nd eqn:Hndeq.
    remember (nd + exp d - 100) as exp_min eqn:Hmin.
    destruct (Z.ltb_spec 999900 exp_min) as [|_]; [lia|].
    remember (if exp_min <? -1000098 then -1000098 else exp_min) as em eqn:Hem.
    assert (exp_min <= em /\ -1000098 <= em /\ em <= Z.max exp_min (-1000098))
      as (Hem1 & Hem2 & Hem3).
    { rewrite Hem. destruct (Z.ltb_spec exp_min (-1000098)); lia. }
    destruct (Z.ltb_spec (exp d) em) as [Hround|Hkeep].
    + (* rounding *)
      remember (nd + exp d - em) as digits eqn:Hdig.
      assert (exists c dg, (if digits <? 0 then (1, 0) else (coeff d, digits))
                           = (c, dg) /\ 0 <= c /\ 0 <= dg <= 100 /\
                           0 <= ndigits c - dg /\ dg + em <= B + 1 /\
                           ndigits c <= dg + (ndigits c - dg))
        as (c & dg & -> & Hc0 & Hdg & Hk & Hdgem & _).
      { destruct (Z.ltb_spec digits 0) as [Hneg|Hpos].
        - exists 1, 0. change (ndigits 1) with 1. repeat split; lia.
        - exists (coeff d), digits. rewrite <- Hndeq. repeat split; lia. }
      match goal with |- context [pick_rounding_function ?r ?c ?k] =>
        generalize (pick_rounding_function r c k) end.
      intros changed.
      remember (ndigits c - dg) as k eqn:Hkeq.
      pose proof (ndigits_div_pow c k Hc0 Hk) as Hq.
      replace (ndigits c - k) with dg in Hq by lia.
      assert (0 <= c / 10 ^ k) as Hq0.
      { apply Z.div_pos; [lia|apply Z.pow_pos_nonneg; lia]. }
      remember (c / 10 ^ k) as q eqn:Hqeq.
      pose proof (ndigits_succ_le q (Z.max dg 1) Hq0 Hq) as Hq1.
      destruct (0 <? changed).
      * destruct (Z.ltb_spec 100 (ndigits (q + 1))) as [Hcarry|Hfit].
        -- destruct (Z.ltb_spec 999900 (em + 1)) as [|_]; [lia|].
           eexists. split; [reflexivity|]. unfold dec_bounded. cbn [coeff exp].
           pose proof (ndigits_div_pow (q + 1) 1 ltac:(lia) ltac:(lia)) as Hq2.
           change (10 ^ 1) with 10 in Hq2.
           assert (0 <= (q + 1) / 10) by (apply Z.div_pos; lia).
           split; [split; lia|lia].
        -- destruct (Z.ltb_spec 999900 em) as [|_]; [lia|].
           eexists. split; [reflexivity|]. unfold dec_bounded. cbn [coeff exp].
           split; [split; lia|lia].
      * destruct (Z.ltb_spec 999900 em) as [|_]; [lia|].
        eexists. split; [reflexivity|]. unfold dec_bounded. cbn [coeff exp].
        split; [split; lia|lia].
    + exists d. split; [reflexivity|]. unfold dec_bounded. rewrite <- Hndeq.
      split; [split; lia|lia].
Qed.

Lemma dec_bounded_mono B B' d : dec_bounded B d -> B <= B' -> dec_bounded B' d.
Proof. intros [H1 H2] H. split; lia. Qed.

Lemma rescale_bounded B d r :
  dec_bounded B d -> 1 <= B -> exp d < 0 -> dec_bounded (B + 1) (rescale d 0 r).
Proof.
  intros [Hc Hadj] HB He. unfold rescale, dec_bounded.
  destruct (Z.eqb_spec (coeff d) 0) as [Hz|Hnz].
  { cbn [coeff exp]. rewrite ndigits_0. lia. }
  destruct (Z.leb_spec 0 (exp d)) as [|_]; [lia|].
  pose proof (ndigits_pos (coeff d)) as Hnd.
  remember (ndigits (coeff d) + exp d - 0) as digits eqn:Hdig.
  assert (exists c dg, (if digits <? 0 then (1, 0) else (coeff d, digits))
                       = (c, dg) /\ 0 <= c /\ 0 <= dg <= B /\
                       0 <= ndigits c - dg)
    as (c & dg & -> & Hc0 & Hdg & Hk).
  { destruct (Z.ltb_spec digits 0) as [Hneg|Hpos].
    - exists 1, 0. change (ndigits 1) with 1. repeat split; lia.
    - exists (coeff d), digits. repeat split; lia. }
  match goal with |- context [pick_rounding_function ?r ?c ?k] =>
    generalize (pick_rounding_function r c k) end.
  intros changed.
  remember (ndigits c - dg) as k eqn:Hkeq.
  pose proof (ndigits_div_pow c k Hc0 Hk) as Hq.
  replace (ndigits c - k) with dg in Hq by lia.
  assert (0 <= c / 10 ^ k) as Hq0.
  { apply Z.div_pos; [lia|apply Z.pow_pos_nonneg; lia]. }
  remember (c / 10 ^ k) as q eqn:Hqeq.
  pose proof (ndigits_succ_le q (Z.max dg 1) Hq0 Hq) as Hq1.
  cbn [coeff exp]. destruct (changed =? 1); split; lia.
Qed.

Lemma to_integral_bounded B d r :
  dec_bounded B d -> 1 <= B -> dec_bounded (B + 1) (to_integral_value d r).
Proof.
  intros Hd HB. unfold to_integral_value.
  destruct (Z.leb_spec 0 (exp d)).
  - by apply (dec_bounded_mono B); [|lia].
  - by apply rescale_bounded.
Qed.

Lemma normalize_bounded B a b :
  dec_bounded B a -> dec_bounded B b ->
  let '(op1, op2) := normalize a b 100 in
  exp op1 = exp op2 /\ dec_bounded B op1 /\ dec_bounded B op2.
Proof.
  intros Ha Hb. unfold normalize.
  assert (forall tmp other, dec_bounded B tmp -> dec_bounded B other ->
            exp other <= exp tmp ->
            let e := exp tmp + Z.min (-1) (ndigits (coeff tmp) - 100 - 2) in
            let other' :=
              if ndigits (coeff other) + exp other - 1 <? e
              then mkdec (sign other) 1 e else other in
            let tmp' := mkdec (sign tmp)
                          (coeff tmp * 10 ^ (exp tmp - exp other')) (exp other') in
            exp tmp' = exp other' /\ dec_bounded B tmp' /\ dec_bounded B other') as Hgen.
  { intros tmp other [Ht0 Ht] [Ho0 Ho] Hle e other' tmp'.
    pose proof (ndigits_pos (coeff tmp)).
    assert (exp other' <= exp tmp /\ dec_bounded B other') as [Hle' Hbo].
    { subst other'. destruct (_ <? e).
      - cbn [exp]. split; [lia|]. split; cbn [coeff exp]; [lia|].
        change (ndigits 1) with 1. lia.
      - split; [lia|]. split; lia. }
    split; [reflexivity|]. split; [|exact Hbo].
    subst tmp'. split; cbn [coeff exp].
    - apply Z.mul_nonneg_nonneg; [lia|]. apply Z.pow_nonneg. lia.
    - pose proof (ndigits_mul_pow (coeff tmp) (exp tmp - exp other') Ht0
                    ltac:(lia)). lia. }
  destruct (Z.ltb_spec (exp a) (exp b)) as [Hlt|Hge].
  - specialize (Hgen b a Hb Ha ltac:(lia)). cbv zeta in Hgen.
    destruct Hgen as (He & Ht & Ho). cbn [exp] in He.
    split; [symmetry; exact He|]. split; [exact Ho|exact Ht].
  - specialize (Hgen a b Ha Hb ltac:(lia)). cbv zeta in Hgen.
    destruct Hgen as (He & Ht & Ho). cbn [exp] in He.
    split; [exact He|]. split; [exact Ht|exact Ho].
Qed.

Lemma add_total B a b :
  dec_bounded B a -> dec_bounded B b -> -999000 <= B <= 999000 ->
  exists c, Decimal.add the_context a b = Ok c /\ dec_bounded (B + 3) c /\
            ndigits (coeff c) <= 100.
Proof.
  intros Ha Hb HB. unfold Decimal.add.
  change (Decimal.prec the_context) with 100.
  change (rnd the_context) with ROUND_HALF_EVEN.
  assert (forall d, dec_bounded (B + 1) d ->
            exists c, fix_ the_context d = Ok c /\ dec_bounded (B + 3) c /\
                      ndigits (coeff c) <= 100) as Hfix.
  { intros d Hd. destruct (fix_total (B + 1) d Hd ltac:(lia)) as (c & E & Hc & Hn).
    exists c. split; [exact E|]. split; [|exact Hn].
    by apply (dec_bounded_mono (B + 1 + 2)); [|lia]. }
  assert (forall d E, dec_bounded B d -> coeff d <> 0 -> E <= exp d ->
            dec_bounded (B + 1) (rescale d E ROUND_HALF_EVEN)) as Hresc.
  { intros d E [Hd0 Hd] Hnz HE. unfold rescale.
    destruct (Z.eqb_spec (coeff d) 0) as [|_]; [done|].
    destruct (Z.leb_spec E (exp d)) as [_|]; [|lia].
    split; cbn [coeff exp].
    - apply Z.mul_nonneg_nonneg; [lia|]. apply Z.pow_nonneg. lia.
    - pose proof (ndigits_mul_pow (coeff d) (exp d - E) Hd0 ltac:(lia)). lia. }
  destruct Ha as [Ha0 Hadj], Hb as [Hb0 Hbdj].
  destruct (Z.eqb_spec (coeff a) 0) as [Haz|Hanz];
    destruct (Z.eqb_spec (coeff b) 0) as [Hbz|Hbnz]; cbn [andb].
  - apply Hfix. split; cbn [coeff exp]; [lia|].
    rewrite Haz, ndigits_0 in Hadj. rewrite ndigits_0. lia.
  - apply Hfix, Hresc; [by split|done|lia].
  - apply Hfix, Hresc; [by split|done|lia].
  - pose proof (normalize_bounded B a b ltac:(by split) ltac:(by split)) as Hn.
    destruct (normalize a b 100) as [op1 op2].
    destruct Hn as (He & [H10 H1] & [H20 H2]).
    pose proof (ndigits_pos (coeff op1)). pose proof (ndigits_pos (coeff op2)).
    destruct (negb (Bool.eqb (sign op1) (sign op2))).
    + destruct (Z.eqb_spec (coeff op1) (coeff op2)) as [Heq|Hne].
      * apply Hfix. split; cbn [coeff exp]; [lia|]. rewrite ndigits_0.
        pose proof (ndigits_pos (coeff a)). pose proof (ndigits_pos (coeff b)).
        lia.
      * destruct (Z.ltb_spec (coeff op1) (coeff op2)) as [Hlt|Hge].
        -- apply Hfix. split; cbn [coeff exp]; [lia|].
           pose proof (ndigits_le (coeff op2 - coeff op1) (coeff op2)
                         ltac:(lia)). lia.
        -- apply Hfix. split; cbn [coeff exp]; [lia|].
           pose proof (ndigits_le (coeff op1 - coeff op2) (coeff op1)
                         ltac:(lia)). lia.
    + apply Hfix. split; cbn [coeff exp]; [lia|].
      pose proof (ndigits_add (coeff op1) (coeff op2)
                    (Z.max (ndigits (coeff op1)) (ndigits (coeff op2)))
                    H10 H20 ltac:(lia) ltac:(lia)). lia.
Qed.

Lemma sub_total B a b :
  dec_bounded B a -> dec_bounded B b -> -999000 <= B <= 999000 ->
  exists c, Decimal.sub the_context a b = Ok c /\ dec_bounded (B + 3) c /\
            ndigits (coeff c) <= 100.
Proof.
  intros Ha Hb HB. unfold Decimal.sub. by apply add_total.
Qed.

Lemma abs_total B d :
  dec_bounded B d -> -999000 <= B <= 999000 ->
  exists c, Decimal.abs the_context d = Ok c /\ dec_bounded (B + 2) c /\
            ndigits (coeff c) <= 100.
Proof.
  intros Hd HB. unfold Decimal.abs, neg, pos.
  destruct (sign d); destruct (coeff d =? 0);
    apply fix_total; try lia; exact Hd.
Qed.

Lemma mul_total Ba Bb a b :
  dec_bounded Ba a -> dec_bounded Bb b -> -999000 <= Ba + Bb <= 999000 ->
  exists c, Decimal.mul the_context a b = Ok c /\ dec_bounded (Ba + Bb + 2) c /\
            ndigits (coeff c) <= 100.
Proof.
  intros [Ha0 Ha] [Hb0 Hb] HB. unfold Decimal.mul.
  pose proof (ndigits_pos (coeff a)). pose proof (ndigits_pos (coeff b)).
  destruct ((coeff a =? 0) || (coeff b =? 0)).
  - apply fix_total; [|lia]. split; cbn [coeff exp]; [lia|].
    rewrite ndigits_0. lia.
  - apply fix_total; [|lia]. split; cbn [coeff exp]; [nia|].
    pose proof (ndigits_mul (coeff a) (coeff b) Ha0 Hb0). lia.
Qed.

Lemma sqrt_total n :
  0 <= n < 10 ^ 200 ->
  exists root, Decimal.sqrt the_context (of_int n) = Ok root /\
               dec_bounded 104 root.
Proof.
  intros [Hn0 Hn].
  assert (forall d, dec_bounded 102 d ->
            exists root, fix_ the_context d = Ok root /\ dec_bounded 104 root)
    as Hfix.
  { intros d Hd. destruct (fix_total 102 d Hd ltac:(lia)) as (c & E & Hc & _).
    by exists c. }
  unfold Decimal.sqrt, of_int. cbn [coeff exp sign].
  rewrite Z.abs_eq by lia.
  destruct (Z.eqb_spec n 0) as [Hz|Hnz].
  { apply Hfix. split; cbn [coeff exp]; [lia|]. rewrite ndigits_0.
    change (0 / 2) with 0. lia. }
  destruct (Z.ltb_spec n 0) as [|_]; [lia|].
  change (Z.odd 0) with false. change (Z.shiftr 0 1) with 0.
  change (Decimal.prec the_context + 1) with 101.
  cbv beta iota zeta.
  change (mkctx (Decimal.prec the_context) ROUND_HALF_EVEN (Emin the_context)
            (Emax the_context)) with the_context.
  pose proof (ndigits_pos n) as Hnd1.
  pose proof (lt_pow_ndigits n Hn0) as Hnhi.
  assert (ndigits n <= 200) as Hnd by (apply ndigits_lt_pow; lia).
  remember (Z.shiftr (ndigits n + 1) 1) as l eqn:Hl.
  assert (l <= 100 /\ ndigits n <= 2 * l) as [Hl100 Hl2].
  { rewrite Hl, Z.shiftr_div_pow2 by lia. change (2 ^ 1) with 2.
    pose proof (Z.mul_succ_div_gt (ndigits n + 1) 2 ltac:(lia)).
    assert ((ndigits n + 1) / 2 < 101) by (apply Z.div_lt_upper_bound; lia).
    lia. }
  remember (101 - l) as s eqn:Hs.
  destruct (Z.leb_spec 0 s) as [_|]; [|lia].
  assert (0 < 10 ^ s) as HP by (apply Z.pow_pos_nonneg; lia).
  assert (100 ^ s = 10 ^ s * 10 ^ s) as H100.
  { change 100 with (10 * 10). apply Z.pow_mul_l. }
  rewrite H100. remember (10 ^ s) as P eqn:HeqP.
  (* the root of the scaled coefficient has at most 101 digits *)
  assert (n * (P * P) < 10 ^ 101 * 10 ^ 101) as Hc.
  { assert (10 ^ ndigits n * (P * P) <= 10 ^ 101 * 10 ^ 101) as Hle.
    { rewrite HeqP, <- !Z.pow_add_r by lia. apply Z.pow_le_mono_r; lia. }
    assert (n * (P * P) < 10 ^ ndigits n * (P * P)); [|lia].
    apply Z.mul_lt_mono_pos_r; nia. }
  pose proof (Z.sqrt_nonneg (n * (P * P))) as Hq0.
  assert (Z.sqrt (n * (P * P)) < 10 ^ 101) as Hq.
  { apply Z.sqrt_lt_square; [nia|lia|exact Hc]. }
  remember (Z.sqrt (n * (P * P))) as q eqn:Hqeq.
  assert (ndigits q <= 101) as Hdq by (apply ndigits_lt_pow; lia).
  assert (ndigits (q + 1) <= 102) as Hdq1.
  { apply ndigits_lt_pow; [|lia]. split; [lia|].
    change 102 with (101 + 1). rewrite Z.pow_add_r by lia.
    assert (0 < 10 ^ 101) by (apply Z.pow_pos_nonneg; lia). lia. }
  cbn [andb]. destruct (q * q =? n * (P * P)).
  - apply Hfix. split; cbn [coeff exp].
    + apply Z.div_pos; lia.
    + assert (ndigits (q / P) <= ndigits q); [|lia].
      apply ndigits_le. split; [apply Z.div_pos; lia|].
      apply Z.div_le_upper_bound; [lia|]. nia.
  - apply Hfix. destruct (q mod 5 =? 0); split; cbn [coeff exp]; lia.
Qed.

(** Division of two integers, as [float(d)] performs it for a negative
    exponent *)

Lemma new_location_extra m r :
  loc_extra (new_location m r) = if r =? 0 then 0 else 1.
Proof.
  unfold new_location, new_location_even, new_location_odd.
  destruct (Z.even m); destruct (r =? 0); reflexivity.
Qed.

Lemma div_core_upper m1 m2 T t :
  0 < T -> canonical64 T t -> 0 <= t ->
  Zpos m1 <= Zpos m2 * (T * 2 ^ t) ->
  let '(q, e', l) := SFdiv_core_binary 53 1024 (Zpos m1) 0 (Zpos m2) 0 in
  0 <= q /\ -1074 <= e' /\ e' <= fexp64 (Zdigits2 q + e') /\
  (q + loc_extra l) * 2 ^ (e' + 1074) <= T * 2 ^ (t + 1074).
Proof.
  intros HT Hct Ht Hle.
  assert (1 <= Zdigits2 (Zpos m1)) as Hd1lo by (simpl; lia).
  assert (1 <= Zdigits2 (Zpos m2)) as Hd2lo by (simpl; lia).
  unfold SFdiv_core_binary.
  remember (Zdigits2 (Zpos m1)) as d1 eqn:Hd1eq.
  remember (Zdigits2 (Zpos m2)) as d2 eqn:Hd2eq.
  replace (d1 + 0 - (d2 + 0)) with (d1 - d2) by lia.
  replace (0 - 0) with 0 by lia.
  remember (Z.min (fexp64 (d1 - d2)) 0) as e' eqn:He'.
  pose proof (fexp64_ge (d1 - d2)) as Hfz.
  assert (-1074 <= e' <= 0) as He'r by lia.
  replace (0 - e') with (- e') by lia.
  remember (- e') as sh eqn:Hsh.
  assert (match sh with
          | 0 => Zpos m1
          | Zpos _ => Z.shiftl (Zpos m1) sh
          | Zneg _ => 0
          end = Zpos m1 * 2 ^ sh) as ->.
  { destruct sh as [|p|p]; [rewrite Z.pow_0_r; lia| |lia].
    apply Z.shiftl_mul_pow2. lia. }
  assert (0 < 2 ^ sh) as Hpsh by (apply Z.pow_pos_nonneg; lia).
  pose proof (div_eucl_spec (Zpos m1 * 2 ^ sh) (Zpos m2) ltac:(lia)) as Hdiv.
  destruct (Z.div_eucl (Zpos m1 * 2 ^ sh) (Zpos m2)) as [q r].
  destruct Hdiv as [Hqr Hr]. rewrite new_location_extra.
  assert (0 <= q) as Hq by nia.
  split; [exact Hq|]. split; [lia|]. split.
  - (* the quotient has enough digits *)
    pose proof (Zdigits2_bounds (Zpos m2) ltac:(lia)) as [_ Hm2hi].
    rewrite <- Hd2eq in Hm2hi.
    assert (Zdigits2 (Zpos m1 * 2 ^ sh) = d1 + sh) as Hdm'.
    { rewrite Zdigits2_mul_pow2 by lia. lia. }
    destruct (Z.eq_dec q 0) as [->|Hqnz].
    + change (Zdigits2 0) with 0. rewrite Z.add_0_l.
      assert (Zdigits2 (Zpos m1 * 2 ^ sh) <= d2) as Hsmall.
      { apply Zdigits2_lt_pow; lia. }
      rewrite fexp64_eq in *. lia.
    + assert (Zdigits2 (Zpos m1 * 2 ^ sh) <= Zdigits2 q + d2) as Hdq.
      { pose proof (Zdigits2_nonneg q).
        apply Zdigits2_lt_pow; [|lia].
        pose proof (Zdigits2_bounds q ltac:(lia)) as [_ Hqhi].
        rewrite Z.pow_add_r by lia. split; [lia|]. nia. }
      transitivity (fexp64 (d1 - d2)); [lia|].
      apply fexp64_mono. lia.
  - (* the rounded-up quotient is below the bound *)
    rewrite (scale_split T t e') by lia.
    assert (0 < 2 ^ (e' + 1074)) by (apply Z.pow_pos_nonneg; lia).
    assert (0 < 2 ^ (t - e')) by (apply Z.pow_pos_nonneg; lia).
    assert (0 <= 2 ^ t) by (apply Z.pow_nonneg; lia).
    assert (Zpos m1 * 2 ^ sh <= Zpos m2 * (T * 2 ^ (t - e'))) as Hm'.
    { replace (t - e') with (t + sh) by lia. rewrite Z.pow_add_r by lia.
      replace (Zpos m2 * (T * (2 ^ t * 2 ^ sh)))
        with (Zpos m2 * (T * 2 ^ t) * 2 ^ sh) by ring.
      apply Z.mul_le_mono_nonneg_r; lia. }
    assert (q + (if r =? 0 then 0 else 1) <= T * 2 ^ (t - e')) as Hceil.
    { destruct (Z.eqb_spec r 0); nia. }
    apply Z.mul_le_mono_nonneg_r; lia.
Qed.

Lemma to_float_finite d :
  0 <= coeff d -> ndigits (coeff d) <= 100 -> dec_bounded 200 d ->
  is_inf (to_float d) = false.
Proof.
  intros Hc Hnd [_ Hadj]. unfold to_float.
  destruct (Z.eqb_spec (coeff d) 0) as [|Hnz]; [reflexivity|].
  pose proof (lt_pow_ndigits (coeff d) Hc) as Hlt.
  pose proof (ndigits_pos (coeff d)) as Hnd1.
  destruct (Z.leb_spec 0 (exp d)) as [He|He].
  - (* an integer below 10^200 *)
    assert (0 < 10 ^ exp d) as HP by (apply Z.pow_pos_nonneg; lia).
    assert (0 < coeff d * 10 ^ exp d < 10 ^ 200) as [Hv0 Hv].
    { split; [nia|].
      assert (coeff d * 10 ^ exp d < 10 ^ ndigits (coeff d) * 10 ^ exp d)
        by (apply Z.mul_lt_mono_pos_r; lia).
      assert (10 ^ (ndigits (coeff d) + exp d) <= 10 ^ 200)
        by (apply Z.pow_le_mono_r; lia).
      rewrite Z.pow_add_r in * by lia. lia. }
    remember (coeff d * 10 ^ exp d) as V eqn:HV.
    assert (forall sx p, Zpos p = V ->
              is_inf (binary_round 53 1024 sx p 0) = false) as Hround.
    { intros sx p Hp.
      assert (canonical64 4503599627370496 700) as Hcan
        by (split; [reflexivity|lia]).
      assert (Zpos p * 2 ^ (0 + 1074) <=
              4503599627370496 * 2 ^ (700 + 1074)) as Hle.
      { rewrite Hp. change (0 + 1074) with 1074.
        assert (10 ^ 200 <= 4503599627370496 * 2 ^ 700)
          by (vm_compute; discriminate).
        rewrite (Z.pow_add_r 2 700 1074) by lia.
        assert (0 < 2 ^ 1074) by (apply Z.pow_pos_nonneg; lia).
        rewrite Z.mul_assoc. apply Z.mul_le_mono_nonneg_r; lia. }
      pose proof (binary_round_upper sx p 0 4503599627370496 700
                    ltac:(lia) ltac:(lia) Hcan Hle) as Hup.
      destruct (binary_round 53 1024 sx p 0); try reflexivity; contradiction. }
    destruct V as [|p|p]; try lia.
    destruct (sign d); cbn [binary_normalize Z.opp id]; by apply Hround.
  - (* a quotient below 10^100 *)
    assert (0 < 10 ^ (- exp d)) as HP by (apply Z.pow_pos_nonneg; lia).
    cbn [SFdiv]. unfold Float64.prec, Float64.emax.
    pose proof (div_core_upper (Z.to_pos (coeff d)) (Z.to_pos (10 ^ (- exp d)))
                  4503599627370496 300 ltac:(lia)) as Hcore.
    rewrite !Z2Pos.id in Hcore by lia.
    destruct (SFdiv_core_binary 53 1024 (coeff d) 0 (10 ^ (- exp d)) 0)
      as [[q e'] l] eqn:Ecore.
    rewrite !Z2Pos.id by lia. rewrite Ecore.
    destruct Hcore as (Hq & He' & Hpre & Hb).
    + split; [reflexivity|lia].
    + lia.
    + assert (10 ^ ndigits (coeff d) <= 10 ^ 100) by (apply Z.pow_le_mono_r; lia).
      assert (10 ^ 100 <= 4503599627370496 * 2 ^ 300) by (vm_compute; discriminate).
      nia.
    + pose proof (round_aux_within (xorb (sign d) false) q e' l
                    4503599627370496 300 Hq He' Hpre ltac:(lia)
                    ltac:(split; [reflexivity|lia]) Hb) as Hw.
      destruct (binary_round_aux 53 1024 _ q e' l); try reflexivity; contradiction.
Qed.

(** Whether the [try] block raises does not depend on the cosine. *)
Lemma resonance_loop_independent (cos1 cos2 : float -> float) phase :
  forall gs rs1 rs2 r1,
    for_each (resonance cos1 phase) gs rs1 = Ok r1 ->
    exists r2, for_each (resonance cos2 phase) gs rs2 = Ok r2 /\
               length r2 = (length rs2 + length gs)%nat.
Proof.
  induction gs as [|g gs IH]; intros rs1 rs2 r1 Hrun.
  - exists rs2. split; [reflexivity|]. cbn [length]. lia.
  - cbn [for_each] in Hrun |- *.
    destruct (resonance cos1 phase g rs1) as [rs1'|] eqn:Hstep;
      [|discriminate Hrun].
    change (for_each (resonance cos1 phase) gs rs1' = Ok r1) in Hrun.
    destruct (resonance_inv cos1 _ _ _ _ Hstep) as (x & (p & Hp & ->) & Hfx & _).
    rewrite (resonance_step cos2 phase g p rs2 Hp).
    2:{ destruct (to_float p); done. }
    cbn [mbind result_bind].
    destruct (IH rs1' (rs2 ++ [cos2 (to_float p)]) r1 Hrun) as (r2 & -> & Hlen).
    exists r2. split; [reflexivity|].
    rewrite length_app in Hlen. cbn [length] in *. lia.
Qed.

Lemma score_arithmetic_independent (cos1 cos2 : float -> float) n s1 :
  score_arithmetic cos1 n = Ok s1 ->
  exists s2, score_arithmetic cos2 n = Ok s2.
Proof.
  unfold score_arithmetic. intros Hrun.
  destruct (Decimal.sqrt the_context (of_int n)) as [root|];
    [|discriminate Hrun].
  cbn [mbind result_bind] in Hrun |- *.
  destruct (Decimal.sub the_context root _) as [difference|];
    [|discriminate Hrun].
  cbn [mbind result_bind] in Hrun |- *.
  destruct (Decimal.abs the_context difference) as [phase_offset|];
    [|discriminate Hrun].
  cbn [mbind result_bind] in Hrun |- *.
  destruct (for_each (resonance cos1 phase_offset) GAMMAS [])
    as [r1|] eqn:Hloop; [|discriminate Hrun].
  destruct (resonance_loop_independent cos1 cos2 phase_offset GAMMAS [] [] r1
              Hloop) as (r2 & -> & _).
  cbn [mbind result_bind]. eauto.
Qed.

Lemma gammas_bounded : Forall (dec_bounded 2) GAMMAS.
Proof. repeat constructor; vm_compute; discriminate. Qed.

Lemma resonance_loop_total (libm_cos : float -> float) phase :
  dec_bounded 110 phase ->
  forall gs rs, Forall (dec_bounded 2) gs ->
    exists rs', for_each (resonance libm_cos phase) gs rs = Ok rs'.
Proof.
  intros Hph. induction gs as [|g gs IH]; intros rs Hgs.
  - by exists rs.
  - inversion Hgs as [|? ? Hg Hgs']; subst. cbn [for_each].
    destruct (mul_total 2 110 g phase Hg Hph ltac:(lia))
      as (p & Hp & Hb & Hnd).
    rewrite (resonance_step libm_cos phase g p rs Hp).
    + cbn [mbind result_bind]. by apply IH.
    + apply to_float_finite; [apply Hb|exact Hnd|].
      by apply (dec_bounded_mono (2 + 110 + 2)); [|lia].
Qed.

Lemma small_input_arithmetic (libm_cos : float -> float) n :
  0 <= n < 10 ^ 200 -> exists score, score_arithmetic libm_cos n = Ok score.
Proof.
  intros Hn. unfold score_arithmetic.
  destruct (sqrt_total n Hn) as (root & -> & Hroot).
  cbn [mbind result_bind].
  pose proof (to_integral_bounded 104 root ROUND_HALF_UP Hroot ltac:(lia))
    as Hnear.
  destruct (sub_total 105 root (to_integral_value root ROUND_HALF_UP))
    as (difference & -> & Hdiff & _);
    [by apply (dec_bounded_mono 104); [|lia]|exact Hnear|lia|].
  cbn [mbind result_bind].
  destruct (abs_total 108 difference Hdiff ltac:(lia))
    as (phase & -> & Hphase & _).
  cbn [mbind result_bind].
  destruct (resonance_loop_total libm_cos phase Hphase GAMMAS [] gammas_bounded)
    as (rs' & ->).
  cbn [mbind result_bind]. eauto.
Qed.

Lemma try_block_total_below (libm_cos : float -> float) (D n : Z) :
  0 <= D <= 999998 -> 0 <= n < 10 ^ D * 10 ^ D ->
  exists score, score_arithmetic libm_cos n = Ok score.
Proof.
  intros HD [Hlo Hhi].
  destruct (Z.lt_ge_cases n (10 ^ 200)) as [Hsmall|Hlarge].
  - by apply small_input_arithmetic.
  - apply (score_arithmetic_independent (fun _ => one) libm_cos n one).
    by apply (large_input_arithmetic (fun _ => one) D).
Qed.

(** For [0 <= n < 10^1999996] the [try] block raises nothing: the score is
    the value it computes, never the 0.0 of the [except] branch. *)
Theorem try_block_never_raises (libm_cos : float -> float) (n : Z) :
  0 <= n < 10 ^ 1999996 ->
  exists score, score_arithmetic libm_cos n = Ok score /\
                compute_spectral_coherence libm_cos n = score.
Proof.
  intros [Hlo Hhi].
  destruct (try_block_total_below libm_cos 999998 n) as [score Hs].
  - clear. lia.
  - split; [exact Hlo|]. rewrite <- Z.pow_add_r by (clear; lia). exact Hhi.
  - exists score. split; [exact Hs|].
    unfold compute_spectral_coherence. rewrite Hs. reflexivity.
Qed.
End Totality.

Lemma try_block_never_raises_witness :
  exists score,
    Diagdevice.score_arithmetic (fun _ => one) 17 = Ok score /\
    Diagdevice.compute_spectral_coherence (fun _ => one) 17 = score.
Proof.
  apply (try_block_never_raises (fun _ => one) 17%Z).
  split; [vm_compute; discriminate|].
  apply Z.lt_le_trans with (10 ^ 2)%Z; [vm_compute; reflexivity|].
  apply Z.pow_le_mono_r; [reflexivity|]. intros H; discriminate H.
Defined.

(** ** A NaN in the indicator vector *)

Section NanProofs.

Lemma add_nan_l x : add nan x = nan.
Proof. reflexivity. Qed.

Lemma add_nan_r x : add x nan = nan.
Proof. destruct x; reflexivity. Qed.

Lemma div_nan_r x : div x nan = nan.
Proof. destruct x; reflexivity. Qed.

Lemma foldl_add_nan v : foldl add nan v = nan.
Proof. induction v as [|x v IH]; [reflexivity|]. cbn [foldl]. exact IH. Qed.

Lemma sum_with_nan v : nan ∈ v -> Np.sum v = nan.
Proof.
  unfold Np.sum. generalize zero.
  induction v as [|x v IH]; intros acc Hin.
  - by apply elem_of_nil in Hin.
  - cbn [foldl]. apply elem_of_cons in Hin as [<-|Hin].
    + rewrite add_nan_r. apply foldl_add_nan.
    + by apply IH.
Qed.

Lemma linalg_norm_with_nan v : nan ∈ v -> linalg_norm v = nan.
Proof.
  intros Hin. unfold linalg_norm. rewrite sum_with_nan; [reflexivity|].
  unfold square. apply list_elem_of_fmap. exists nan. split; [reflexivity|done].
Qed.

Lemma divide_by_nan v : divide v nan = replicate (length v) nan.
Proof.
  unfold divide. induction v as [|x v IH]; [reflexivity|].
  cbn [fmap list_fmap length replicate]. rewrite div_nan_r. f_equal. exact IH.
Qed.

(** One NaN entry poisons the whole state: the norm is NaN, so every
    entry of the normalised vector is NaN, in both scripts. *)
Theorem nan_entry_poisons_state data :
  nan ∈ data ->
  linalg_norm data = nan /\
  MillionaireScan.normalize data = replicate (length data) nan /\
  JinxSquare.normalize data = replicate (length data) nan.
Proof.
  intros Hin. pose proof (linalg_norm_with_nan data Hin) as Hnorm.
  split; [exact Hnorm|].
  unfold MillionaireScan.normalize, JinxSquare.normalize.
  rewrite Hnorm. cbv zeta. rewrite divide_by_nan, !divide_nans.
  split; reflexivity.
Qed.
End NanProofs.

Lemma nan_entry_poisons_state_witness :
  linalg_norm [one; nan; zero] = nan /\
  MillionaireScan.normalize [one; nan; zero] = replicate 3 nan /\
  JinxSquare.normalize [one; nan; zero] = replicate 3 nan.
Proof.
  apply (nan_entry_poisons_state [one; nan; zero]).
  right. left.
Defined.

(** ** The curve of riemann.py *)

Section CurveProofs.
Import Riemann.
Local Open Scope Z_scope.

Lemma round_aux_nonneg mx ex lx :
  0 <= mx -> nonneg (binary_round_aux 53 1024 false mx ex lx).
Proof.
  intros Hmx. pose proof (round_aux_not_nan false mx ex lx Hmx) as Hnan.
  unfold binary_round_aux in *.
  destruct (shr_fexp 53 1024 mx ex lx) as [mrs1 e1].
  destruct (shr_fexp 53 1024 _ e1 loc_Exact) as [mrs2 e2].
  destruct (shr_m mrs2); [exact I| |done].
  destruct (e2 <=? 1024 - 53); exact I.
Qed.

Lemma binary_round_nonneg mx ex : nonneg (binary_round 53 1024 false mx ex).
Proof.
  unfold binary_round. destruct (shl_align mx ex _) as [mz ez].
  apply round_aux_nonneg. lia.
Qed.

Lemma add_nonneg a b : nonneg a -> nonneg b -> nonneg (add a b).
Proof.
  destruct a as [[]|[]| |[] ma ea]; try contradiction;
  destruct b as [[]|[]| |[] mb eb]; try contradiction; intros _ _;
    try exact I.
  unfold add. cbn [SFadd].
  destruct (shl_align ma ea _) as [ma' ea'].
  destruct (shl_align mb eb _) as [mb' eb'].
  cbn [fst cond_Zopp]. change (Zpos ma' + Zpos mb') with (Zpos (ma' + mb')).
  cbn [binary_normalize]. apply binary_round_nonneg.
Qed.

Lemma square_nonneg d : is_nan d = false -> nonneg (mul d d).
Proof.
  destruct d as [s|s| |s m e]; try discriminate; intros _.
  - cbn. by destruct s.
  - cbn. by destruct s.
  - unfold mul. cbn [SFmul]. rewrite xorb_nilpotent.
    apply round_aux_nonneg. lia.
Qed.

Lemma sqrt_nonneg a : nonneg a -> nonneg (sqrt a).
Proof.
  destruct a as [[]|[]| |[] m e]; try contradiction; intros _; try exact I.
  unfold sqrt. cbn [SFsqrt]. unfold SFsqrt_core_binary.
  match goal with |- context [Z.sqrtrem ?m'] =>
    pose proof (Z.sqrtrem_sqrt m') as Hq; pose proof (Z.sqrt_nonneg m');
    destruct (Z.sqrtrem m') as [q r] end.
  cbn [fst] in Hq. apply round_aux_nonneg. lia.
Qed.

Lemma reciprocal_nonneg a : nonneg a -> nonneg (div one a).
Proof.
  destruct a as [[]|[]| |[] m e]; try contradiction; intros _; try exact I.
  unfold div, one. cbn [SFdiv xorb]. unfold SFdiv_core_binary.
  match goal with |- context [Z.div_eucl ?a ?b] =>
    pose proof (div_eucl_spec a b ltac:(lia)) as Hd;
    assert (0 <= a) as Ha;
    [|destruct (Z.div_eucl a b) as [q r]] end.
  { match goal with |- 0 <= match ?s with _ => _ end =>
      destruct s; try lia; apply Z.shiftl_nonneg; lia end. }
  apply round_aux_nonneg. destruct Hd as [Hd Hr].
  match type of Hd with _ = ?b * q + r =>
    assert (0 < b) by lia; nia end.
Qed.

Lemma sub_not_nan x g :
  is_nan x = false -> is_finite g = true -> is_nan (sub x g) = false.
Proof.
  destruct x as [sx|sx| |sx mx ex]; try discriminate;
  destruct g as [sg|sg| |sg mg eg]; try discriminate; intros _ _;
    try reflexivity.
  - cbn. by destruct sx, sg.
  - unfold sub. cbn [SFsub].
    destruct (shl_align mx ex _) as [mx' ex'].
    destruct (shl_align mg eg _) as [mg' eg']. cbn [fst].
    pose proof (binary_normalize_not_nan
      (cond_Zopp sx (Zpos mx') - cond_Zopp sg (Zpos mg')) (Z.min ex eg) false).
    destruct (binary_normalize _ _ _ _ _); done.
Qed.

Lemma impulse_nonneg gamma x :
  is_finite gamma = true -> Forall (fun xi => is_nan xi = false) x ->
  Forall nonneg (impulse gamma x).
Proof.
  intros Hg Hx. unfold impulse. apply Forall_fmap.
  eapply Forall_impl; [|exact Hx]. intros xi Hxi. cbn [compose].
  apply reciprocal_nonneg, sqrt_nonneg, add_nonneg; [|exact I].
  apply square_nonneg, sub_not_nan; done.
Qed.

Lemma zip_add_nonneg : forall c t,
  Forall nonneg c -> Forall nonneg t -> length c = length t ->
  Forall nonneg (zip_with add c t) /\ length (zip_with add c t) = length c.
Proof.
  induction c as [|a c IH]; intros t Hc Ht Hlen.
  - split; [constructor|reflexivity].
  - destruct t as [|b t]; [discriminate|].
    inversion Hc; inversion Ht; subst. cbn [zip_with length] in *.
    destruct (IH t) as [IH1 IH2]; [done|done|lia|].
    split; [constructor; [by apply add_nonneg|exact IH1]|lia].
Qed.

Lemma curve_loop x gs : forall c,
  Forall (fun g => is_finite g = true) gs ->
  Forall (fun xi => is_nan xi = false) x ->
  Forall nonneg c -> length c = length x ->
  let c' := foldl (fun curve gamma => zip_with add curve (impulse gamma x)) c gs in
  Forall nonneg c' /\ length c' = length x.
Proof.
  induction gs as [|g gs IH]; intros c Hgs Hx Hc Hlen; [by split|].
  inversion Hgs as [|? ? Hg Hgs']; subst. cbn [foldl].
  destruct (zip_add_nonneg c (impulse g x)) as [H1 H2];
    [exact Hc|by apply impulse_nonneg|unfold impulse; by rewrite length_fmap|].
  apply IH; [exact Hgs'|exact Hx|exact H1|lia].
Qed.

(** Whatever the frequency axis, as long as it holds no NaN: the curve has
    one value per point of the axis, and no value is a NaN or negative. *)
Theorem jinx_curve_nonneg x :
  Forall (fun xi => is_nan xi = false) x ->
  length (jinx_curve x) = length x /\ Forall nonneg (jinx_curve x).
Proof.
  intros Hx.
  destruct (curve_loop x riemann_30 (zeros (length x))) as [H1 H2].
  - repeat constructor.
  - exact Hx.
  - unfold zeros. apply Forall_lookup. intros i y Hy.
    apply lookup_replicate in Hy as [-> _]. exact I.
  - apply length_replicate.
  - split; [exact H2|exact H1].
Qed.
End CurveProofs.

Lemma jinx_curve_nonneg_witness :
  length (Riemann.jinx_curve [one; zero]) = length [one; zero] /\
  Forall nonneg (Riemann.jinx_curve [one; zero]).
Proof. apply (jinx_curve_nonneg [one; zero]). repeat constructor. Defined.

(** ** The power spectrum *)

Section SpectrumProofs.
Variable run_qft_circuit : nat -> list float -> result (list complex).
Variable hypot : float -> float -> float.

Lemma square_nonneg_or_nan d : is_nan (mul d d) = true \/ nonneg (mul d d).
Proof.
  destruct (is_nan d) eqn:Hd.
  - left. destruct d; try discriminate. reflexivity.
  - right. by apply square_nonneg.
Qed.

(** Whatever the simulator and [hypot] return, the power spectrum
    [np.abs(sv.data)**2] has one entry per amplitude and no negative entry:
    each is a NaN, +0.0, a positive number or +infinity. *)
Theorem spectrum_never_negative data res :
  MillionaireScan.spectrum run_qft_circuit hypot data = Ok res \/
  JinxSquare.spectrum run_qft_circuit hypot data = Ok res ->
  (exists sv, run_qft_circuit 20 (MillionaireScan.normalize data) = Ok sv /\
              length res = length sv) /\
  Forall (fun y => is_nan y = true \/ nonneg y) res.
Proof.
  intros Hrun.
  assert (MillionaireScan.spectrum run_qft_circuit hypot data = Ok res) as H.
  { destruct Hrun as [H|H]; exact H. }
  clear Hrun. unfold MillionaireScan.spectrum in H.
  change MillionaireScan.n_qubits with 20 in H.
  destruct (run_qft_circuit 20 (MillionaireScan.normalize data)) as [sv|];
    [|discriminate H].
  cbn [mbind result_bind] in H. injection H as <-. split.
  - exists sv. split; [reflexivity|].
    unfold square, absolute_complex. by rewrite !length_fmap.
  - unfold square. apply Forall_fmap, Forall_lookup.
    intros i y _. apply square_nonneg_or_nan.
Qed.
End SpectrumProofs.

Lemma spectrum_never_negative_witness :
  (exists sv, Ok [(one, zero)] = Ok sv /\ length [mul one one] = length sv) /\
  Forall (fun y => is_nan y = true \/ nonneg y) [mul one one].
Proof.
  apply (spectrum_never_negative (fun _ _ => Ok [(one, zero)]) (fun a _ => a)
           [one] [mul one one]).
  left. reflexivity.
Defined.
